(** * mustache-codegen: the template parser, the partial resolver and the
      runtime section semantics, embedded in Rocq.

    Go strings are byte sequences: they are modelled by [string] (a list of
    8-bit [ascii]).  Go [int] indices are modelled by [nat]; the
    "-1 when not found" convention of the [strings] package is modelled by
    [option nat].  A slice expression [s[lo:hi]] is [substr s lo hi]; the
    indices the parser slices with stay in order and inside [s] (lemmas
    [cutTag_bounds], [tag_within_line], [processTag_indices] and
    [elementEnd_bounds]), so that [substr], which is total, agrees with the
    slice expression where the program evaluates one. *)

From Stdlib Require Import Ascii String List Arith Bool NArith ZArith Lia.
From Stdlib Require SpecFloat.
From Stdlib Require DecimalString.
From stdpp Require Import base option list gmap strings.
Import ListNotations.

Local Open Scope nat_scope.

(** ** Byte strings *)

Fixpoint sdrop (n : nat) (s : string) : string :=
  match n, s with
  | 0, _ => s
  | S n', String _ s' => sdrop n' s'
  | S _, EmptyString => EmptyString
  end.

Fixpoint stake (n : nat) (s : string) : string :=
  match n, s with
  | 0, _ => EmptyString
  | S n', String c s' => String c (stake n' s')
  | S _, EmptyString => EmptyString
  end.

(** [s[lo:hi]] *)
Definition substr (s : string) (lo hi : nat) : string := stake (hi - lo) (sdrop lo s).

(** [s[i]], with the zero byte outside of the string. *)
Definition byteAt (s : string) (i : nat) : ascii :=
  match sdrop i s with
  | String c _ => c
  | EmptyString => zero
  end.

Definition nl : ascii := ascii_of_nat 10.

(** ** The parts of Go's [unicode/utf8], [unicode] and [strings] packages
       that the program calls *)

Module utf8.

Definition RuneError : N := 65533.
Definition RuneSelf : N := 128.

Definition inRange (lo hi : N) (c : ascii) : bool :=
  let b := N_of_ascii c in (lo <=? b)%N && (b <=? hi)%N.

Definition cont (c : ascii) : bool := inRange 128 191 c.

Definition low6 (c : ascii) : N := N.land (N_of_ascii c) 63.

(** [utf8.DecodeRuneInString]: an invalid or truncated encoding decodes as
    [(RuneError, 1)]. *)
Definition DecodeRuneInString (s : string) : N * nat :=
  match s with
  | EmptyString => (RuneError, 0)
  | String c0 r =>
    let b0 := N_of_ascii c0 in
    if (b0 <? 128)%N then (b0, 1)
    else if (b0 <? 194)%N then (RuneError, 1)
    else if (b0 <? 224)%N then
      match r with
      | String c1 _ =>
        if cont c1
        then (N.lor (N.shiftl (N.land b0 31) 6) (low6 c1), 2)
        else (RuneError, 1)
      | _ => (RuneError, 1)
      end
    else if (b0 <? 240)%N then
      match r with
      | String c1 (String c2 _) =>
        let lo := if (b0 =? 224)%N then 160%N else 128%N in
        let hi := if (b0 =? 237)%N then 159%N else 191%N in
        if inRange lo hi c1 && cont c2
        then (N.lor (N.shiftl (N.land b0 15) 12)
                (N.lor (N.shiftl (low6 c1) 6) (low6 c2)), 3)
        else (RuneError, 1)
      | _ => (RuneError, 1)
      end
    else if (b0 <? 245)%N then
      match r with
      | String c1 (String c2 (String c3 _)) =>
        let lo := if (b0 =? 240)%N then 144%N else 128%N in
        let hi := if (b0 =? 244)%N then 143%N else 191%N in
        if inRange lo hi c1 && cont c2 && cont c3
        then (N.lor (N.shiftl (N.land b0 7) 18)
                (N.lor (N.shiftl (low6 c1) 12)
                   (N.lor (N.shiftl (low6 c2) 6) (low6 c3))), 4)
        else (RuneError, 1)
      | _ => (RuneError, 1)
      end
    else (RuneError, 1)
  end.

(** [utf8.RuneStart]: the byte is not a continuation byte. *)
Definition RuneStart (c : ascii) : bool :=
  negb (N.land (N_of_ascii c) 192 =? 128)%N.

(** [utf8.DecodeLastRuneInString] *)
Definition DecodeLastRuneInString (s : string) : N * nat :=
  let e := String.length s in
  match e with
  | 0 => (RuneError, 0)
  | S e1 =>
    let r := N_of_ascii (byteAt s e1) in
    if (r <? RuneSelf)%N then (r, 1)
    else
      let lim := e - 4 in
      (* the first rune start found walking back from [e - 2] down to
         [lim]; one below [lim] (or 0) when there is none *)
      let found :=
        if (2 <=? e) && (lim <=? e - 2) && RuneStart (byteAt s (e - 2)) then e - 2
        else if (3 <=? e) && (lim <=? e - 3) && RuneStart (byteAt s (e - 3)) then e - 3
        else if (4 <=? e) && (lim <=? e - 4) && RuneStart (byteAt s (e - 4)) then e - 4
        else lim - 1 in
      let '(r', size) := DecodeRuneInString (substr s found e) in
      if found + size =? e then (r', size) else (RuneError, 1)
  end.

End utf8.

Module unicode.

(** [unicode.IsSpace]: the White_Space property. *)
Definition IsSpace (r : N) : bool :=
  ((9 <=? r) && (r <=? 13) || (r =? 32) || (r =? 133) || (r =? 160)
   || (r =? 5760) || (8192 <=? r) && (r <=? 8202) || (r =? 8232) || (r =? 8233)
   || (r =? 8239) || (r =? 8287) || (r =? 12288))%N.

(** [unicode.Is(unicode.Zs, r)]: the space-separator category. *)
Definition IsZs (r : N) : bool :=
  ((r =? 32) || (r =? 160) || (r =? 5760) || (8192 <=? r) && (r <=? 8202)
   || (r =? 8239) || (r =? 8287) || (r =? 12288))%N.

End unicode.

Module gostrings.

Fixpoint HasPrefix (s pre : string) : bool :=
  match pre, s with
  | EmptyString, _ => true
  | String a pre', String b s' => Ascii.eqb a b && HasPrefix s' pre'
  | String _ _, EmptyString => false
  end.

Definition HasSuffix (s suf : string) : bool :=
  (String.length suf <=? String.length s)
  && String.eqb (sdrop (String.length s - String.length suf) s) suf.

(** [strings.CutPrefix]: [None] stands for [(s, false)]. *)
Definition CutPrefix (s pre : string) : option string :=
  if HasPrefix s pre then Some (sdrop (String.length pre) s) else None.

Definition CutSuffix (s suf : string) : option string :=
  if HasSuffix s suf then Some (stake (String.length s - String.length suf) s) else None.

(** [strings.Index]: [None] stands for -1. *)
Fixpoint Index (s sub : string) : option nat :=
  if HasPrefix s sub then Some 0
  else match s with
       | EmptyString => None
       | String _ s' => option_map S (Index s' sub)
       end.

Fixpoint IndexByte (s : string) (c : ascii) : option nat :=
  match s with
  | EmptyString => None
  | String b s' => if Ascii.eqb b c then Some 0 else option_map S (IndexByte s' c)
  end.

(** [strings.Count] for a non-empty [sub]: the number of non-overlapping
    occurrences. *)
Fixpoint CountFrom (skip : nat) (s sub : string) : nat :=
  match s with
  | EmptyString => 0
  | String _ s' =>
    match skip with
    | S k => CountFrom k s' sub
    | 0 => if HasPrefix s sub
           then S (CountFrom (String.length sub - 1) s' sub)
           else CountFrom 0 s' sub
    end
  end.
Definition Count (s sub : string) : nat := CountFrom 0 s sub.

(** [strings.IndexFunc]: the byte index of the first rune satisfying [f].
    [skip] counts the bytes of the current rune still to be passed. *)
Fixpoint IndexFuncFrom (f : N -> bool) (skip pos : nat) (s : string) : option nat :=
  match s with
  | EmptyString => None
  | String _ s' =>
    match skip with
    | S k => IndexFuncFrom f k (S pos) s'
    | 0 => let '(r, size) := utf8.DecodeRuneInString s in
           if f r then Some pos else IndexFuncFrom f (size - 1) (S pos) s'
    end
  end.
Definition IndexFunc (s : string) (f : N -> bool) : option nat := IndexFuncFrom f 0 0 s.

Definition ContainsFunc (s : string) (f : N -> bool) : bool :=
  match IndexFunc s f with Some _ => true | None => false end.

(** [strings.TrimLeftFunc] *)
Definition TrimLeftFunc (s : string) (f : N -> bool) : string :=
  match IndexFunc s (fun r => negb (f r)) with
  | Some i => sdrop i s
  | None => EmptyString
  end.

(** [lastIndexFunc s f false]: walks back rune by rune from the end. *)
Fixpoint lastIndexNotFunc (fuel : nat) (f : N -> bool) (s : string) (i : nat) : option nat :=
  match fuel with
  | 0 => None
  | S fuel' =>
    if i =? 0 then None
    else let '(r, size) := utf8.DecodeLastRuneInString (stake i s) in
         let i' := i - size in
         if negb (f r) then Some i' else lastIndexNotFunc fuel' f s i'
  end.

(** [strings.TrimRightFunc] *)
Definition TrimRightFunc (s : string) (f : N -> bool) : string :=
  match lastIndexNotFunc (String.length s) f s (String.length s) with
  | Some i =>
    if (utf8.RuneSelf <=? N_of_ascii (byteAt s i))%N
    then stake (i + snd (utf8.DecodeRuneInString (sdrop i s))) s
    else stake (S i) s
  | None => EmptyString
  end.

(** [strings.TrimSpace]: leading and trailing Unicode white space removed
    (the ASCII fast path of the library computes the same string). *)
Definition TrimSpace (s : string) : string :=
  TrimRightFunc (TrimLeftFunc s unicode.IsSpace) unicode.IsSpace.

End gostrings.


(** ** The tag model (main.go) *)

Inductive tagType :=
| literal | variable | rawVariable | section | invertedSection
| partial | block | parent
| indentPoint.

#[local] Unset Elimination Schemes.
Inductive tag := mkTag {
  tag_tt : tagType;
  tag_s : string;
  tag_indent : string;
  tag_body : list tag
}.
#[local] Set Elimination Schemes.

Global Instance tagType_eq_dec : EqDecision tagType.
Proof. solve_decision. Defined.

Definition tagType_eqb (a b : tagType) : bool := bool_decide (a = b).

(** The zero value of [tag], the [start] of the root scope. *)
Definition zeroTag : tag := mkTag literal "" "" [].

Definition withBody (t : tag) (b : list tag) : tag :=
  mkTag (tag_tt t) (tag_s t) (tag_indent t) b.

(** [walkTags]: all tags of the slice in pre-order. *)
Fixpoint walkTag (t : tag) : list tag :=
  match t with
  | mkTag _ _ _ b =>
    t :: (fix walk (l : list tag) : list tag :=
            match l with
            | [] => []
            | x :: l' => walkTag x ++ walk l'
            end) b
  end.

Definition walkTags (tags : list tag) : list tag := flat_map walkTag tags.

(** [tagsEqual]; the inner [fix] is [slices.EqualFunc] at [tagsEqual]. *)
Fixpoint tagsEqual (t1 t2 : tag) : bool :=
  match t1, t2 with
  | mkTag tt1 s1 i1 b1, mkTag tt2 s2 i2 b2 =>
    if negb (tagType_eqb tt1 tt2) || negb (String.eqb s1 s2) || negb (String.eqb i1 i2)
    then false
    else (fix equalFunc (l1 l2 : list tag) : bool :=
            match l1, l2 with
            | [], [] => true
            | x :: l1', y :: l2' => tagsEqual x y && equalFunc l1' l2'
            | _, _ => false
            end) b1 b2
  end.

(** [slices.EqualFunc(p, q, tagsEqual)] *)
Fixpoint tagListsEqual (l1 l2 : list tag) : bool :=
  match l1, l2 with
  | [], [] => true
  | x :: l1', y :: l2' => tagsEqual x y && tagListsEqual l1' l2'
  | _, _ => false
  end.

(** ** Results and errors *)

Inductive result (E A : Type) :=
| Ok (a : A)
| Err (e : E)
| OutOfFuel.
Arguments Ok {E A} a.
Arguments Err {E A} e.
Arguments OutOfFuel {E A}.

Definition bind {E A B} (r : result E A) (k : A -> result E B) : result E B :=
  match r with
  | Ok a => k a
  | Err e => Err e
  | OutOfFuel => OutOfFuel
  end.

Notation "'let*' p ':=' r 'in' k" := (bind r (fun p => k))
  (at level 10, p pattern, r at level 100, k at level 200).

(** The messages of the errors the parser builds, by their format. *)
Inductive errKind :=
| UnclosedTag                                  (* "unclosed tag" *)
| UnclosedComment                              (* "unclosed comment" *)
| NoFinalEquals (tagText endDelim : string)    (* "%s does not end with =%s" *)
| SetDelimEmpty                                (* "set delimiter tag empty" *)
| SetDelimMissingEnd                           (* "... missing an end delimiter" *)
| SetDelimTooMany                              (* "... has more than two delimiters" *)
| Unclosed (name : string)                     (* "unclosed %s" *)
| EmptyTag                                     (* "empty tag" *)
| ExtraWords (word : string)                   (* "extra words in %s tag" *)
| WithoutOpening (sd key ed : string)          (* "%s/%s%s without opening" *)
| Mismatched (sd key ed want : string) (openLine : nat).
                                               (* "mismatched %s/%s%s (last opened %s on line %d)" *)

(** ["%d: %v"] *)
Inductive parseError := AtLine (lineno : nat) (e : errKind).

(** ** The lexer (main.go) *)

Definition isNonSpace (c : N) : bool := negb (unicode.IsSpace c).

Definition isSpace (s : string) : bool := negb (gostrings.ContainsFunc s isNonSpace).

Definition lineIndentation (line : string) : string :=
  match gostrings.IndexFunc line
          (fun c => negb (unicode.IsZs c) && negb (c =? 9)%N) with
  | None => line
  | Some firstNonSpace => substr line 0 firstNonSpace
  end.

Definition indexNextLine (s : string) : nat :=
  match gostrings.IndexByte s nl with
  | None => String.length s
  | Some i => i + 1
  end.

Definition nextIndex (s : string) (start : nat) (sub : string) : option nat :=
  match gostrings.Index (sdrop start s) sub with
  | None => None
  | Some i => Some (start + i)
  end.

Definition nextIndexFunc (s : string) (start : nat) (f : N -> bool) : option nat :=
  match gostrings.IndexFunc (sdrop start s) f with
  | None => None
  | Some i => Some (start + i)
  end.

(** The scan of [cutTag] for the end delimiter; [rest] is [s[pos:]].  (With
    an empty [endDelim] the program would read [s[len(s)]] at the end of [s];
    the delimiters of the parser are never empty.) *)
Inductive scanResult := ScanFound (tagInnerEnd : nat) | ScanNewline | ScanNone.

Fixpoint scanEnd (isComment : bool) (endDelim : string) (rest : string) (pos : nat)
  : scanResult :=
  if String.length rest <? String.length endDelim then ScanNone
  else match rest with
       | EmptyString => ScanNone
       | String c rest' =>
         if Ascii.eqb c nl && negb isComment then ScanNewline
         else if gostrings.HasPrefix rest endDelim then ScanFound pos
         else scanEnd isComment endDelim rest' (S pos)
       end.

Definition specials : string := "#^!<>$/&".

(** [i >= 0] for an index of the [strings] package. *)
Definition found (i : option nat) : bool :=
  match i with Some _ => true | None => false end.

(** [cutTag]: the sigil (the zero byte when there is none), the key and the
    index just after the tag. *)
Definition cutTag (s : string) (tagStart : nat) (startDelim endDelim : string)
  : result errKind (ascii * string * nat) :=
  let tagInnerStart := tagStart + String.length startDelim in
  let isComment := gostrings.HasPrefix (sdrop tagInnerStart s) "!" in
  match scanEnd isComment endDelim (sdrop tagInnerStart s) tagInnerStart with
  | ScanNewline => Err UnclosedTag
  | ScanNone => if isComment then Err UnclosedComment else Err UnclosedTag
  | ScanFound tagInnerEnd =>
    let tagEnd := tagInnerEnd + String.length endDelim in
    let isDefault := String.eqb startDelim "{{" && String.eqb endDelim "}}" in
    if isDefault && Ascii.eqb (byteAt s tagInnerStart) "{"
       && gostrings.HasPrefix (sdrop tagEnd s) "}"
    then Ok ("&"%char,
             gostrings.TrimSpace (substr s (S tagInnerStart) tagInnerEnd),
             S tagEnd)
    else
      let inner := substr s tagInnerStart tagInnerEnd in
      match gostrings.CutPrefix inner "=" with
      | Some inner1 =>
        match gostrings.CutSuffix inner1 "=" with
        | None => Err (NoFinalEquals (substr s tagStart tagEnd) endDelim)
        | Some inner2 => Ok ("="%char, gostrings.TrimSpace inner2, tagEnd)
        end
      | None =>
        if (1 <? String.length inner)
           && found (gostrings.IndexByte specials (byteAt inner 0))
        then Ok (byteAt inner 0, gostrings.TrimSpace (sdrop 1 inner), tagEnd)
        else Ok (zero, gostrings.TrimSpace inner, tagEnd)
      end
  end.

Definition splitSetDelimiterTag (s : string) : result errKind (string * string) :=
  match gostrings.IndexFunc s unicode.IsSpace with
  | None => Err SetDelimMissingEnd
  | Some 0 => Err SetDelimEmpty
  | Some i =>
    match nextIndexFunc s i isNonSpace with
    | None => Err SetDelimMissingEnd
    | Some j =>
      match nextIndexFunc s j unicode.IsSpace with
      | Some _ => Err SetDelimTooMany
      | None => Ok (substr s 0 i, sdrop j s)
      end
    end
  end.

Definition isOpenSigil (special : ascii) : bool :=
  Ascii.eqb special "#" || Ascii.eqb special "^"
  || Ascii.eqb special "$" || Ascii.eqb special "<".

(** The loop of [elementEnd]: [level] open tags named [name] are pending at
    index [i]. *)
Fixpoint elementEndLoop (fuel : nat) (name s : string) (level i : nat)
    (startDelim endDelim : string) : result errKind nat :=
  match level with
  | 0 => Ok i
  | S level' =>
    match fuel with
    | 0 => OutOfFuel
    | S fuel' =>
      match nextIndex s i startDelim with
      | None => Err (Unclosed name)
      | Some tagStart =>
        match cutTag s tagStart startDelim endDelim with
        | Ok (special, key, tagEnd) =>
          if isOpenSigil special then
            elementEndLoop fuel' name s
              (if String.eqb key name then S level else level) tagEnd startDelim endDelim
          else if Ascii.eqb special "/" then
            elementEndLoop fuel' name s
              (if String.eqb key name then level' else level) tagEnd startDelim endDelim
          else if Ascii.eqb special "=" then
            match splitSetDelimiterTag key with
            | Ok (sd, ed) => elementEndLoop fuel' name s level tagEnd sd ed
            | Err e => Err e
            | OutOfFuel => OutOfFuel
            end
          else elementEndLoop fuel' name s level tagEnd startDelim endDelim
        | Err _ => Err (Unclosed name)
        | OutOfFuel => OutOfFuel
        end
      end
    end
  end.

Definition elementEnd (name s : string) (tagEnd : nat) (startDelim endDelim : string)
  : result errKind nat :=
  elementEndLoop (S (String.length s)) name s 1 tagEnd startDelim endDelim.

(** ** The structural parser (main.go, [parse]) *)

(** A frame of the scope stack.  In the program [slice] points at the [body]
    of the scope's tag inside the tree under construction, which is the last
    element of the enclosing scope's slice and stays so while the scope is
    open; here [slice] holds the children gathered so far and the finished tag
    is attached to the enclosing slice when the scope is closed. *)
Record scope := mkScope {
  start : tag;
  lineno : nat;
  slice : list tag;
  standalone : bool
}.

(** The variables of [parse]: the stack, innermost scope ([top]) first and
    the root scope last, the delimiters and the line number. *)
Record pstate := mkState {
  top : scope;
  below : list scope;
  startDelim : string;
  endDelim : string;
  curLine : nat
}.

Definition defaultStartDelim : string := "{{".
Definition defaultEndDelim : string := "}}".

Definition initState : pstate :=
  mkState (mkScope zeroTag 0 [] false) [] defaultStartDelim defaultEndDelim 1.

(** [stack], outermost scope first, as [dedent] ranges over it. *)
Definition stackOf (st : pstate) : list scope := rev (below st) ++ [top st].

Definition withTop (st : pstate) (sc : scope) : pstate :=
  mkState sc (below st) (startDelim st) (endDelim st) (curLine st).

(** [*curr = append( *curr, t)] for [curr := stack[len(stack)-1].slice] *)
Definition appendTag (st : pstate) (t : tag) : pstate :=
  let sc := top st in
  withTop st (mkScope (start sc) (lineno sc) (slice sc ++ [t]) (standalone sc)).

Definition setDelims (st : pstate) (sd ed : string) : pstate :=
  mkState (top st) (below st) sd ed (curLine st).

Definition newScope (st : pstate) (newTag : tag) : pstate :=
  mkState (mkScope newTag (curLine st) [] false) (top st :: below st)
          (startDelim st) (endDelim st) (curLine st).

Definition appendLiteral (st : pstate) (s : string) : pstate :=
  if String.eqb s "" then st else appendTag st (mkTag literal s "" []).

Fixpoint dedentLoop (scopes : list scope) (s : string) : string :=
  match scopes with
  | [] => s
  | curr :: rest =>
    if negb (tagType_eqb (tag_tt (start curr)) block) then dedentLoop rest s
    else match gostrings.CutPrefix s (tag_indent (start curr)) with
         | Some s' => dedentLoop rest s'
         | None => s
         end
  end.

Definition dedent (st : pstate) (s : string) : string := dedentLoop (stackOf st) s.

Definition indentPointTag : tag := mkTag indentPoint "" "" [].

Definition topTT (st : pstate) : tagType := tag_tt (start (top st)).

Definition isParameter (special : ascii) (topTag : tagType) : bool :=
  Ascii.eqb special "$" && negb (tagType_eqb topTag parent).

Definition isArgument (special : ascii) (topTag : tagType) : bool :=
  Ascii.eqb special "$" && tagType_eqb topTag parent.

Definition isStandalonePairTag (special : ascii) (topTag : tagType) : bool :=
  Ascii.eqb special "<" || isParameter special topTag.

(** The text whose blankness decides whether the tag ending at [tagEnd] is
    standalone (lines 202-212). *)
Definition trailingTextOf (st : pstate) (s : string) (special : ascii) (key : string)
    (tagEnd eol : nat) : result errKind string :=
  if isStandalonePairTag special (topTT st) then
    let* i := elementEnd key s tagEnd (startDelim st) (endDelim st) in
    Ok (substr s i (i + indexNextLine (sdrop i s)))
  else Ok (substr s tagEnd eol).

(** The closing tag at the start of a line of a block that is a direct child
    of a parent (line 241). *)
Definition isArgumentBlockClose (st : pstate) (tagStart : nat) (special : ascii) : bool :=
  (tagStart =? 0) && Ascii.eqb special "/" && tagType_eqb (topTT st) block
  && match below st with
     | p :: _ => tagType_eqb (tag_tt (start p)) parent
     | [] => false
     end.

(** The [switch special] of [parse]: the effect of the tag on the stack and
    the tree, with the updated [ignoreRestOfLine]. *)
Definition applyTag (st : pstate) (special : ascii) (key indent : string)
    (isStandalone ignoreRestOfLine : bool) : result parseError (pstate * bool) :=
  if Ascii.eqb special "#" then Ok (newScope st (mkTag section key "" []), ignoreRestOfLine)
  else if Ascii.eqb special "^" then
    Ok (newScope st (mkTag invertedSection key "" []), ignoreRestOfLine)
  else if Ascii.eqb special "!" then Ok (st, ignoreRestOfLine)
  else if Ascii.eqb special ">" then
    Ok (appendTag st (mkTag partial key indent []), ignoreRestOfLine)
  else if Ascii.eqb special "$" then
    let st1 := newScope st (mkTag block key indent []) in
    Ok (if ignoreRestOfLine then st1 else appendTag st1 indentPointTag, ignoreRestOfLine)
  else if Ascii.eqb special "<" then
    let st1 := newScope st (mkTag parent key indent []) in
    let sc := top st1 in
    Ok (withTop st1 (mkScope (start sc) (lineno sc) (slice sc) isStandalone),
        ignoreRestOfLine)
  else if Ascii.eqb special "/" then
    match below st with
    | [] => Err (AtLine (curLine st) (WithoutOpening (startDelim st) key (endDelim st)))
    | p :: rest =>
      let last := top st in
      let ignoreRestOfLine :=
        if tagType_eqb (tag_tt (start last)) parent then standalone last
        else ignoreRestOfLine in
      if negb (String.eqb key (tag_s (start last))) then
        Err (AtLine (curLine st)
               (Mismatched (startDelim st) key (endDelim st) (tag_s (start last)) (lineno last)))
      else
        Ok (mkState (mkScope (start p) (lineno p)
                       (slice p ++ [withBody (start last) (slice last)]) (standalone p))
                    rest (startDelim st) (endDelim st) (curLine st),
            ignoreRestOfLine)
    end
  else if Ascii.eqb special "=" then
    match splitSetDelimiterTag key with
    | Ok (sd, ed) => Ok (setDelims st sd ed, ignoreRestOfLine)
    | Err e => Err (AtLine (curLine st) e)
    | OutOfFuel => OutOfFuel
    end
  else if Ascii.eqb special "&" then
    Ok (appendTag st (mkTag rawVariable key "" []), ignoreRestOfLine)
  else Ok (appendTag st (mkTag variable key "" []), ignoreRestOfLine).

Definition atLine {A} (n : nat) (r : result errKind A) : result parseError A :=
  match r with
  | Ok a => Ok a
  | Err e => Err (AtLine n e)
  | OutOfFuel => OutOfFuel
  end.

(** The check that a tag other than a comment or a delimiter change has one
    word as its key (lines 186-194). *)
Definition checkKey (n : nat) (special : ascii) (key : string) : result parseError unit :=
  if negb (Ascii.eqb special "!") && negb (Ascii.eqb special "=") then
    if String.eqb key "" then Err (AtLine n EmptyTag)
    else match gostrings.IndexFunc key unicode.IsSpace with
         | Some i => Err (AtLine n (ExtraWords (substr key 0 i)))
         | None => Ok tt
         end
  else Ok tt.

(** A tag that spans several lines (a comment) moves the line number and the
    end of the line (lines 180-185). *)
Definition skipLines (st : pstate) (s : string) (tagStart tagEnd eol : nat) : pstate * nat :=
  let n := gostrings.Count (substr s tagStart tagEnd) (String nl EmptyString) in
  if 0 <? n
  then (mkState (top st) (below st) (startDelim st) (endDelim st) (curLine st + n),
        tagEnd + indexNextLine (sdrop tagEnd s))
  else (st, eol).

(** [isStandalone] (lines 213-215) *)
Definition isStandaloneTag (prevEnd : nat) (special : ascii)
    (leadingText trailingText : string) : bool :=
  (prevEnd =? 0) && negb (Ascii.eqb special zero) && negb (Ascii.eqb special "&")
  && isSpace leadingText && isSpace trailingText.

(** The first case of the [switch] that computes the indentation (line 223):
    the tag takes the indentation of the following line. *)
Definition usesNextLine (st : pstate) (s : string) (special : ascii) (isStandalone : bool)
    (tagEnd eol : nat) : bool :=
  (isArgument special (topTT st) || isParameter special (topTT st) && isStandalone)
  && isSpace (substr s tagEnd eol).

(** The literal text since the last tag, with its indent point (lines
    233-246). *)
Definition emitLeading (st : pstate) (isStandalone : bool) (prevEnd tagStart : nat)
    (special : ascii) (leadingText : string) : pstate :=
  if negb isStandalone then
    appendLiteral
      (if (prevEnd =? 0) && negb (isArgumentBlockClose st tagStart special)
       then appendTag st indentPointTag else st)
      leadingText
  else st.

(** One pass through the body of the loop over the tags of a line (lines
    176-337): the state, [eol], [prevEnd] and the next [tagStart]; [None] for
    the next [tagStart] also stands for the [break]. *)
Definition processTag (st : pstate) (s : string) (eol prevEnd tagStart : nat)
  : result parseError (pstate * nat * nat * option nat) :=
  let* (special, key, tagEnd) :=
    atLine (curLine st) (cutTag s tagStart (startDelim st) (endDelim st)) in
  let (st, eol) := skipLines st s tagStart tagEnd eol in
  let* _ := checkKey (curLine st) special key in
  let leadingText := substr s prevEnd tagStart in
  let* trailingText := atLine (curLine st) (trailingTextOf st s special key tagEnd eol) in
  let isStandalone := isStandaloneTag prevEnd special leadingText trailingText in
  let ignoreRestOfLine := isStandalone && negb (isStandalonePairTag special (topTT st)) in
  let useNext := usesNextLine st s special isStandalone tagEnd eol in
  let indent :=
    if useNext then lineIndentation (dedent st (sdrop eol s))
    else if isStandalone then leadingText
    else EmptyString in
  let ignoreRestOfLine := if useNext then true else ignoreRestOfLine in
  let st := emitLeading st isStandalone prevEnd tagStart special leadingText in
  let* (st, ignoreRestOfLine) := applyTag st special key indent isStandalone ignoreRestOfLine in
  if ignoreRestOfLine then Ok (st, eol, eol, None)
  else Ok (st, eol, tagEnd, nextIndex (substr s 0 eol) tagEnd (startDelim st)).

Fixpoint tagLoop (fuel : nat) (st : pstate) (s : string) (eol prevEnd : nat)
    (tagStart : option nat) : result parseError (pstate * nat * nat) :=
  match tagStart with
  | None => Ok (st, eol, prevEnd)
  | Some ts =>
    match fuel with
    | 0 => OutOfFuel
    | S fuel' =>
      let* (st', eol', prevEnd', next) := processTag st s eol prevEnd ts in
      tagLoop fuel' st' s eol' prevEnd' next
    end
  end.

Definition nextLine (st : pstate) : pstate :=
  mkState (top st) (below st) (startDelim st) (endDelim st) (S (curLine st)).

(** One pass through the body of the loop over the lines (lines 162-345): the
    state and the rest of the source. *)
Definition parseLine (st : pstate) (s0 : string) : result parseError (pstate * string) :=
  let s := dedent st s0 in
  let eol := indexNextLine s in
  let tagStart := gostrings.Index (substr s 0 eol) (startDelim st) in
  let st := match tagStart with
            | None => appendTag st indentPointTag
            | Some _ => st
            end in
  let* (st, eol, prevEnd) := tagLoop (S (String.length s)) st s eol 0 tagStart in
  Ok (nextLine (appendLiteral st (substr s prevEnd eol)), sdrop eol s).

(** The check for open tags at the end of the source (lines 348-354). *)
Definition finish (st : pstate) : result parseError (list tag) :=
  match below st with
  | [] => Ok (slice (top st))
  | _ :: _ => Err (AtLine (lineno (top st)) (Unclosed (tag_s (start (top st)))))
  end.

Fixpoint parseLoop (fuel : nat) (st : pstate) (s : string) : result parseError (list tag) :=
  match s with
  | EmptyString => finish st
  | String _ _ =>
    match fuel with
    | 0 => OutOfFuel
    | S fuel' =>
      let* (st', s') := parseLine st s in
      parseLoop fuel' st' s'
    end
  end.

Definition parse (s : string) : result parseError (list tag) :=
  parseLoop (String.length s) initState s.


(** ** The partial resolver and the code generators (go.go, js.go) *)

(** What [load] returns: the source of the partial, or an error. *)
Inductive loadResult :=
| Source (source : string)
| LoadError (msg : string).

Inductive compileError :=
| ParseFailed (e : parseError)                    (* the error of [parse] *)
| ExitParse (e : parseError)                      (* [os.Exit(1)] after printing it *)
| LoadFailed (msg : string)                       (* the error of [load] *)
| PartialFailed (name : string) (e : parseError)  (* "partial %s: %v" *)
| Unhandled (ty : tagType)                        (* "unhandled tag %d" *)
| FormatFailed.                                   (* the error of [gofmt.Source] *)

Definition isReference (t : tag) : bool :=
  tagType_eqb (tag_tt t) partial || tagType_eqb (tag_tt t) parent.

(** [slices.IndexFunc(partials, func(p) { return slices.EqualFunc(partialTags, p, tagsEqual) })] *)
Fixpoint indexOfTree (partials : list (list tag)) (partialTags : list tag) : option nat :=
  match partials with
  | [] => None
  | p :: rest =>
    if tagListsEqual partialTags p then Some 0
    else option_map S (indexOfTree rest partialTags)
  end.

(** The list of partials and the index of [partialTags] in it after lines
    43-49 of go.go. *)
Definition internTree (partials : list (list tag)) (partialTags : list tag)
  : list (list tag) * nat :=
  match indexOfTree partials partialTags with
  | Some i => (partials, i)
  | None => (partials ++ [partialTags], length partials)
  end.

(** [%d] *)
Definition itoa (n : nat) : string := DecimalString.NilEmpty.string_of_uint (Nat.to_uint n).

(** [m[k]] for a map of strings: the empty string when [k] is absent. *)
Definition mapGet {K} `{Countable K} (m : gmap K string) (k : K) : string :=
  default EmptyString (m !! k).

Definition cat (l : list string) : string := String.concat EmptyString l.

(** *** [gatherPartials]

    [compileGo] and [compileJS] each declare the closure [gatherPartials]
    over the variables [partials] and [partialFuncNames].  The two closures
    have the same loop and the same recursion; they differ in the key of
    [partialFuncNames], in the text that is parsed and in the format of the
    function names. *)

(** The variables that [gatherPartials] closes over, and the calls of [load]
    (by the name passed) and of [parse] (by the key of the partial) made so
    far, in order. *)
Record resolver (K : Type) `{Countable K} := mkResolver {
  partials : list (list tag);
  partialFuncNames : gmap K string;
  loads : list string;
  parses : list K
}.
Arguments mkResolver {K _ _} _ _ _ _.
Arguments partials {K _ _} _.
Arguments partialFuncNames {K _ _} _.
Arguments loads {K _ _} _.
Arguments parses {K _ _} _.

Definition logLoad {K} `{Countable K} (r : resolver K) (name : string) : resolver K :=
  mkResolver (partials r) (partialFuncNames r) (loads r ++ [name]) (parses r).

Definition logParse {K} `{Countable K} (r : resolver K) (k : K) : resolver K :=
  mkResolver (partials r) (partialFuncNames r) (loads r) (parses r ++ [k]).

Section Walker.

Context {R : Type}.

(** [known t r]: the test [partialFuncNames[...] != ""] that skips a
    reference; [register t r]: the body of the [if] after it, up to the
    assignment to [partialFuncNames], with the tags of the partial. *)
Variable known : tag -> R -> bool.
Variable register : tag -> R -> result compileError (R * list tag).

(** The loop of [gatherPartials] over the tags [ts] still to be visited of
    [walkTags(tags)]; [fuel] bounds the depth of the recursion into
    partials. *)
Fixpoint gatherWalk (fuel : nat) : list tag -> R -> result compileError R :=
  fix loop (ts : list tag) (r : R) : result compileError R :=
    match ts with
    | [] => Ok r
    | t :: ts' =>
      if isReference t then
        if known t r then loop ts' r
        else
          let* (r, partialTags) := register t r in
          match fuel with
          | 0 => OutOfFuel
          | S fuel' =>
            let* r := gatherWalk fuel' (walkTags partialTags) r in
            loop ts' r
          end
      else loop ts' r
    end.

End Walker.

(** **** Go (go.go, lines 25-60) *)

Definition goFuncName (templateName : string) (i : nat) : string :=
  cat ["_"; templateName; "_p"; itoa i].

Definition knownGo (t : tag) (r : resolver string) : bool :=
  negb (String.eqb (mapGet (partialFuncNames r) (tag_s t)) "").

Definition registerGo (load : string -> loadResult) (templateName : string)
    (t : tag) (r : resolver string) : result compileError (resolver string * list tag) :=
  let r := logLoad r (tag_s t) in
  match load (tag_s t) with
  | LoadError msg => Err (LoadFailed msg)
  | Source source =>
    let r := logParse r (tag_s t) in
    match parse source with
    | Err e => Err (PartialFailed (tag_s t) e)
    | OutOfFuel => OutOfFuel
    | Ok partialTags =>
      let (partials', i) := internTree (partials r) partialTags in
      Ok (mkResolver partials'
            (<[tag_s t := goFuncName templateName i]> (partialFuncNames r))
            (loads r) (parses r),
          partialTags)
    end
  end.

Definition gatherPartialsGo (fuel : nat) (load : string -> loadResult)
    (templateName : string) (tags : list tag) (r : resolver string)
  : result compileError (resolver string) :=
  gatherWalk knownGo (registerGo load templateName) fuel (walkTags tags) r.

(** **** JavaScript (js.go, lines 23-65) *)

(** [partialKey{name, indent}] *)
Abbreviation partialKey := (string * string)%type.

(** [sourceCache := make(map[string]string)]; the program never stores into
    it. *)
Definition sourceCache : gmap string string := ∅.

(** [indent(s, indent)] (main.go) *)
Fixpoint indentLoop (fuel : nat) (s indent : string) : string :=
  match fuel with
  | 0 => EmptyString
  | S fuel' =>
    match gostrings.IndexByte s nl with
    | None => indent +:+ s
    | Some eol =>
      let eol := S eol in
      let line := substr s 0 eol in
      if eol =? String.length s then indent +:+ line
      else indent +:+ line +:+ indentLoop fuel' (sdrop eol s) indent
    end
  end.

Definition indent (s indent : string) : string :=
  if String.eqb indent "" then s else indentLoop (S (String.length s)) s indent.

Definition jsFuncName (i : nat) : string := cat ["p"; itoa i].

Definition knownJS (t : tag) (r : resolver partialKey) : bool :=
  negb (String.eqb (mapGet (partialFuncNames r) (tag_s t, tag_indent t)) "").

Definition registerJS (load : string -> loadResult) (t : tag) (r : resolver partialKey)
  : result compileError (resolver partialKey * list tag) :=
  let k := (tag_s t, tag_indent t) in
  let* (source, r) :=
    match sourceCache !! tag_s t with
    | Some source => Ok (source, r)
    | None =>
      match load (tag_s t) with
      | LoadError msg => Err (LoadFailed msg)
      | Source source => Ok (source, logLoad r (tag_s t))
      end
    end in
  let r := logParse r k in
  match parse (indent source (tag_indent t)) with
  | Err e => Err (PartialFailed (tag_s t) e)
  | OutOfFuel => OutOfFuel
  | Ok partialTags =>
    let (partials', i) := internTree (partials r) partialTags in
    Ok (mkResolver partials' (<[k := jsFuncName i]> (partialFuncNames r))
          (loads r) (parses r),
        partialTags)
  end.

Definition gatherPartialsJS (fuel : nat) (load : string -> loadResult)
    (tags : list tag) (r : resolver partialKey) : result compileError (resolver partialKey) :=
  gatherWalk knownJS (registerJS load) fuel (walkTags tags) r.

Definition resolverInit {K} `{Countable K} : resolver K := mkResolver [] ∅ [] [].

(** *** The emitters *)







(** [strings.Split(s, sep)] for a separator of one byte. *)
Fixpoint splitFrom (sep : ascii) (cur s : string) : list string :=
  match s with
  | EmptyString => [cur]
  | String c s' =>
    if Ascii.eqb c sep then cur :: splitFrom sep EmptyString s'
    else splitFrom sep (cur +:+ String c EmptyString) s'
  end.


Section Generators.

(** Library functions and the parts of the package that this revision of
    main.go does not have. *)
Variable JSEscape : string -> string.            (* [template.JSEscape] *)
Variable prelude : string.                       (* the embedded prelude.js *)
Variable quote : string -> string.               (* the verb [%q], [strconv.Quote] *)
Variable gofmtSource : string -> option string.  (* [gofmt.Source]; [None] is its error *)
Variable ToUpper : N -> N.                       (* [unicode.ToUpper] *)
Variable indentArgument : tag -> bool.           (* the field [t.indentArgument] *)
Variable condenseLiteralsWithoutIndentation : list tag -> tag * nat.

(** **** JavaScript (js.go) *)







(** **** Go (go.go) *)








End Generators.

(** ** The runtime support package (go/mustache/mustache.go) *)

Module mustache.

(** A [reflect.Value] by its kind.  [Invalid] is the zero [reflect.Value];
    a pointer or an interface holds [None] when it is nil; a map records
    whether its key type is of kind string. *)
#[local] Unset Elimination Schemes.
Inductive value :=
| Invalid
| VBool (b : bool)
| VString (s : string)
| VFloat (f : SpecFloat.spec_float)
| VInt (i : Z)
| VUint (u : N)
| VList (l : list value)
| VPointer (p : option value)
| VInterface (p : option value)
| VStruct (fields : list (string * value))
| VMap (stringKeys : bool) (entries : list (string * value))
| VOther.
#[local] Set Elimination Schemes.

Definition IsValid (v : value) : bool :=
  match v with Invalid => false | _ => true end.

Fixpoint resolve (v : value) : value :=
  match v with
  | VPointer (Some x) => resolve x
  | VInterface (Some x) => resolve x
  | _ => v
  end.

(** [v.FieldByName(k)] and [v.MapIndex(k)]: the zero value when there is no
    such field or key. *)
Fixpoint entry (entries : list (string * value)) (k : string) : value :=
  match entries with
  | [] => Invalid
  | (name, v) :: rest => if String.eqb name k then v else entry rest k
  end.

Definition property (v : value) (k : string) : value :=
  match resolve v with
  | VStruct fields => entry fields k
  | VMap stringKeys entries => if stringKeys then entry entries k else Invalid
  | _ => Invalid
  end.

(** The search of [Lookup] for the first part of the path, from the top of
    the context stack down; [frames] is the stack, top first. *)
Fixpoint lookupFirst (frames : list value) (k : string) : value :=
  match frames with
  | [] => Invalid
  | frame :: rest =>
    let v := property frame k in
    if IsValid v then v else lookupFirst rest k
  end.

(** [Lookup]; the top of [contextStack] is its last element. *)
Definition Lookup (contextStack : list value) (path : string) : value :=
  if String.eqb path "." then List.last contextStack Invalid
  else
    match splitFrom "." EmptyString path with
    | [] => Invalid
    | first :: parts => fold_left property parts (lookupFirst (rev contextStack) first)
    end.

Definition IsFalsyOrEmptyList (v : value) : bool :=
  match resolve v with
  | Invalid => true
  | VBool b => negb b
  | VString s => String.eqb s ""
  | VFloat f =>
    match f with
    | SpecFloat.S754_zero _ | SpecFloat.S754_nan => true
    | _ => false
    end
  | VInt i => (i =? 0)%Z
  | VUint u => (u =? 0)%N
  | VList l => length l =? 0
  | VPointer p | VInterface p => match p with None => true | Some _ => false end
  | _ => false
  end.

(** [ForEach]: the values that the iterator yields, in order. *)
Definition ForEach (v : value) : list value :=
  let v := resolve v in
  if negb (IsFalsyOrEmptyList v) then
    match v with
    | VList l => l
    | _ => [v]
    end
  else [].



End mustache.
(** ** Definitions used to state the properties *)

(** The lines of a source, each with its line terminator. *)
Fixpoint splitLinesFrom (cur s : string) : list string :=
  match s with
  | EmptyString => if String.eqb cur "" then [] else [cur]
  | String c s' =>
    if Ascii.eqb c nl then (cur +:+ String c EmptyString) :: splitLinesFrom EmptyString s'
    else splitLinesFrom (cur +:+ String c EmptyString) s'
  end.

Definition sourceLines (s : string) : list string := splitLinesFrom EmptyString s.

(** The tags of a line without tags. *)
Definition lineTags (l : string) : list tag := [indentPointTag; mkTag literal l "" []].

(** The text of the literals of a list of tags. *)
Fixpoint literalText (tags : list tag) : string :=
  match tags with
  | [] => EmptyString
  | t :: r =>
    if tagType_eqb (tag_tt t) literal then tag_s t +:+ literalText r else literalText r
  end.


(** The parser is in the root scope, with the default open delimiter. *)
Definition atRoot (st : pstate) : Prop :=
  below st = [] /\ tag_tt (start (top st)) = literal /\ startDelim st = defaultStartDelim.




(** *** The stream of scope tags

    The scope tags that [parse] reads, in the order in which it reads them:
    an open event for each [#], [^], [$] and [<] tag and a close event for
    each [/] tag that [cutTag] cut and whose key passed [checkKey].  The
    functions below follow the two loops of [parse] and collect the events. *)

Inductive scopeEvent :=
| EvOpen (name : string)
| EvClose (name : string).

(** The events of a tag by its sigil. *)
Definition sigilEvent (special : ascii) (key : string) : list scopeEvent :=
  if isOpenSigil special then [EvOpen key]
  else if Ascii.eqb special "/" then [EvClose key]
  else [].

Definition tagEvent (st : pstate) (s : string) (eol tagStart : nat) : list scopeEvent :=
  match cutTag s tagStart (startDelim st) (endDelim st) with
  | Ok (special, key, tagEnd) =>
    let (st1, _) := skipLines st s tagStart tagEnd eol in
    match checkKey (curLine st1) special key with
    | Ok _ => sigilEvent special key
    | _ => []
    end
  | _ => []
  end.

Fixpoint tagLoopEvents (fuel : nat) (st : pstate) (s : string) (eol prevEnd : nat)
    (tagStart : option nat) : list scopeEvent :=
  match tagStart with
  | None => []
  | Some ts =>
    match fuel with
    | 0 => []
    | S fuel' =>
      tagEvent st s eol ts ++
      match processTag st s eol prevEnd ts with
      | Ok (st', eol', prevEnd', next) => tagLoopEvents fuel' st' s eol' prevEnd' next
      | _ => []
      end
    end
  end.

Definition lineEvents (st : pstate) (s0 : string) : list scopeEvent :=
  let s := dedent st s0 in
  let eol := indexNextLine s in
  let tagStart := gostrings.Index (substr s 0 eol) (startDelim st) in
  let st := match tagStart with
            | None => appendTag st indentPointTag
            | Some _ => st
            end in
  tagLoopEvents (S (String.length s)) st s eol 0 tagStart.

Fixpoint streamLoop (fuel : nat) (st : pstate) (s : string) : list scopeEvent :=
  match s with
  | EmptyString => []
  | String _ _ =>
    match fuel with
    | 0 => []
    | S fuel' =>
      lineEvents st s ++
      match parseLine st s with
      | Ok (st', s') => streamLoop fuel' st' s'
      | _ => []
      end
    end
  end.

Definition tagStream (s : string) : list scopeEvent :=
  streamLoop (String.length s) initState s.

(** The names still open after the events, innermost first; [None] when a
    close event has no open scope to close or closes a scope of another
    name. *)
Fixpoint runEvents (opened : list string) (evs : list scopeEvent) : option (list string) :=
  match evs with
  | [] => Some opened
  | EvOpen n :: r => runEvents (n :: opened) r
  | EvClose n :: r =>
    match opened with
    | [] => None
    | m :: opened' => if String.eqb n m then runEvents opened' r else None
    end
  end.

(** No unmatched open tag, no unmatched close tag and no name mismatch. *)
Definition balancedFrom (opened : list string) (evs : list scopeEvent) : bool :=
  match runEvents opened evs with
  | Some [] => true
  | _ => false
  end.

Definition balanced (evs : list scopeEvent) : bool := balancedFrom [] evs.

(** The names of the open scopes, innermost first, without the root. *)
Fixpoint namesOf (l : list scope) : list string :=
  match l with
  | [] => []
  | sc :: rest =>
    match rest with
    | [] => []
    | _ :: _ => tag_s (start sc) :: namesOf rest
    end
  end.

Definition openNames (st : pstate) : list string := namesOf (top st :: below st).



(** Induction on tags, with the induction hypothesis for the tags of the
    body. *)
Fixpoint tag_induction (P : tag -> Prop)
    (step : forall ty s i b, Forall P b -> P (mkTag ty s i b)) (t : tag) : P t :=
  match t with
  | mkTag ty s i b =>
    step ty s i b
      ((fix all (l : list tag) : Forall P l :=
          match l with
          | [] => @List.Forall_nil tag P
          | x :: l' => @List.Forall_cons tag P x l' (tag_induction P step x) (all l')
          end) b)
  end.

(** *** The resolver, generic in the key of [partialFuncNames]

    [keyOf] is the key of a reference, [prep] the text parsed for it from the
    source of the partial, [fmtName] the format of the function names. *)

Section GenericResolver.

Context {K : Type} `{Countable K}.
Variable keyOf : tag -> K.
Variable prep : tag -> string -> string.
Variable fmtName : nat -> string.
Variable load : string -> loadResult.

Definition knownG (t : tag) (r : resolver K) : bool :=
  negb (String.eqb (mapGet (partialFuncNames r) (keyOf t)) "").

Definition registerG (t : tag) (r : resolver K)
  : result compileError (resolver K * list tag) :=
  let r := logLoad r (tag_s t) in
  match load (tag_s t) with
  | LoadError msg => Err (LoadFailed msg)
  | Source source =>
    let r := logParse r (keyOf t) in
    match parse (prep t source) with
    | Err e => Err (PartialFailed (tag_s t) e)
    | OutOfFuel => OutOfFuel
    | Ok partialTags =>
      let (partials', i) := internTree (partials r) partialTags in
      Ok (mkResolver partials' (<[keyOf t := fmtName i]> (partialFuncNames r))
            (loads r) (parses r),
          partialTags)
    end
  end.

(** The key of the first reference of [ts] that [r] does not know. *)
Fixpoint firstUnknown (ts : list tag) (r : resolver K) : option K :=
  match ts with
  | [] => None
  | t :: ts' =>
    if isReference t && negb (knownG t r) then Some (keyOf t) else firstUnknown ts' r
  end.

Variable nameOf : K -> string.
Variable textOf : K -> string -> string.

(** The tags of the partial of key [k]: its source, loaded and parsed. *)
Definition treeOfKey (k : K) : option (list tag) :=
  match load (nameOf k) with
  | Source source =>
    match parse (textOf k source) with
    | Ok tree => Some tree
    | _ => None
    end
  | LoadError _ => None
  end.

(** What holds of the variables of [gatherPartials] between two passes of
    its loop. *)
Definition resolverInv (r : resolver K) : Prop :=
  NoDup (partials r)
  /\ (forall k f, partialFuncNames r !! k = Some f ->
        exists i tree, f = fmtName i /\ partials r !! i = Some tree
                       /\ treeOfKey k = Some tree)
  /\ NoDup (parses r)
  /\ (forall k, k ∈ parses r <-> is_Some (partialFuncNames r !! k))
  /\ loads r = map nameOf (parses r).

(** Every reference of [ts] has a function name in [r]. *)
Definition resolved (ts : list tag) (r : resolver K) : Prop :=
  forall t, t ∈ ts -> isReference t = true -> is_Some (partialFuncNames r !! keyOf t).

(** The references of every partial registered between [r] and [r'] have a
    function name in [r']. *)
Definition closedFrom (r r' : resolver K) : Prop :=
  forall k tree, partialFuncNames r !! k = None -> is_Some (partialFuncNames r' !! k) ->
    treeOfKey k = Some tree -> resolved (walkTags tree) r'.

End GenericResolver.

(** The key of a reference in the JavaScript backend. *)
Definition keyJS (t : tag) : partialKey := (tag_s t, tag_indent t).

(** The tags of a partial as each backend parses it. *)
Definition partialTreeGo (load : string -> loadResult) (name : string) : option (list tag) :=
  treeOfKey load (fun k => k) (fun _ source => source) name.

Definition partialTreeJS (load : string -> loadResult) (k : partialKey) : option (list tag) :=
  treeOfKey load fst (fun k source => indent source (snd k)) k.

(** The references of a list of tags, in order. *)
Definition references (ts : list tag) : list tag := List.filter isReference ts.

(** The partials [a] and [b] have the same source, [c] another one. *)
Definition exampleLoad (name : string) : loadResult :=
  if String.eqb name "c" then Source "y" else Source "x{{>c}}".

Definition exampleTags : list tag :=
  [mkTag partial "a" "" []; mkTag partial "b" "" []; mkTag partial "a" "" []].


(** [eol] is an end of line of [s]: the end of [s], or the index after a line
    terminator. *)
Definition lineEnd (s : string) (eol : nat) : Prop :=
  eol <= String.length s
  /\ (eol = String.length s \/ (0 < eol /\ byteAt s (eol - 1) = nl)).

(** *** The shape of the tags that [parse] builds *)

(** The key passed the check of lines 186-194: it is not empty and holds no
    white space. *)
Definition isWord (key : string) : bool :=
  negb (String.eqb key "") && negb (found (gostrings.IndexFunc key unicode.IsSpace)).

Definition isNil {A} (l : list A) : bool :=
  match l with [] => true | _ :: _ => false end.

(** The tags that open a scope. *)
Definition isScopeType (ty : tagType) : bool :=
  match ty with
  | section | invertedSection | block | parent => true
  | _ => false
  end.

(** The fields of a tag as the [switch] of [parse] fills them for its type. *)
Definition shapeOK (t : tag) : bool :=
  match tag_tt t with
  | literal =>
    negb (String.eqb (tag_s t) "") && String.eqb (tag_indent t) "" && isNil (tag_body t)
  | indentPoint =>
    String.eqb (tag_s t) "" && String.eqb (tag_indent t) "" && isNil (tag_body t)
  | variable | rawVariable =>
    isWord (tag_s t) && String.eqb (tag_indent t) "" && isNil (tag_body t)
  | partial => isWord (tag_s t) && isSpace (tag_indent t) && isNil (tag_body t)
  | section | invertedSection => isWord (tag_s t) && String.eqb (tag_indent t) ""
  | block | parent => isWord (tag_s t) && isSpace (tag_indent t)
  end.

(** The scopes of the stack but the root scope. *)
Definition openScopes (st : pstate) : list scope := removelast (top st :: below st).

(** What holds of the stack of [parse] between two tags: the tags gathered
    in every scope have their shape, and so does the tag that opened it. *)
Definition shapedState (st : pstate) : Prop :=
  Forall (fun sc => Forall (fun t => shapeOK t = true) (walkTags (slice sc)))
         (top st :: below st)
  /\ Forall (fun sc => isScopeType (tag_tt (start sc)) && shapeOK (start sc) = true)
            (openScopes st).

(** *** The line numbers of [parse] *)

(** The number of line terminators of [s]. *)
Definition countLines (s : string) : nat := gostrings.Count s (String nl EmptyString).

(** The open scopes were opened on lines 1 to [bound]. *)
Definition linesBounded (bound : nat) (st : pstate) : Prop :=
  Forall (fun sc => 1 <= lineno sc <= bound) (openScopes st).

(** The line number of an error. *)
Definition errorLine (e : parseError) : nat :=
  match e with AtLine n _ => n end.

(** *** The resolver of js.go

    This revision of [compileJS] (cmd/mustache-codegen/js.go, lines 21-57)
    keys [partialFuncNames] by the name of the partial and parses the source
    as [load] returns it. *)

Module js.

Definition known (t : tag) (r : resolver string) : bool :=
  negb (String.eqb (mapGet (partialFuncNames r) (tag_s t)) "").

Definition register (load : string -> loadResult) (t : tag) (r : resolver string)
  : result compileError (resolver string * list tag) :=
  let r := logLoad r (tag_s t) in
  match load (tag_s t) with
  | LoadError msg => Err (LoadFailed msg)
  | Source source =>
    let r := logParse r (tag_s t) in
    match parse source with
    | Err e => Err (PartialFailed (tag_s t) e)
    | OutOfFuel => OutOfFuel
    | Ok partialTags =>
      let (partials', i) := internTree (partials r) partialTags in
      Ok (mkResolver partials' (<[tag_s t := jsFuncName i]> (partialFuncNames r))
            (loads r) (parses r),
          partialTags)
    end
  end.

Definition gatherPartials (fuel : nat) (load : string -> loadResult) (tags : list tag)
    (r : resolver string) : result compileError (resolver string) :=
  gatherWalk known (register load) fuel (walkTags tags) r.

End js.

(** *** The parser of mustachejsc.go

    mustachejsc.go (lines 306-541) and this revision of main.go (lines
    85-319) hold the same earlier parser: it has no indent points, no line
    numbers and no delimiter change, and it keeps a tag that is not closed as
    literal text. *)

Module mustachejsc.

(** [strings.LastIndex(s, sep)] for a separator of one byte. *)
Fixpoint lastIndexByte (s : string) (c : ascii) : option nat :=
  match s with
  | EmptyString => None
  | String b s' =>
    match lastIndexByte s' c with
    | Some i => Some (S i)
    | None => if Ascii.eqb b c then Some 0 else None
    end
  end.

Definition cr : ascii := ascii_of_nat 13.

Inductive parseErr :=
| WithoutOpening (sd name ed : string)       (* "%s/%s%s without opening" *)
| Mismatched (sd name ed want : string)      (* "mismatched %s%s%s (last opened %s)" *)
| Unclosed (name : string).                  (* "unclosed %s" *)

(** [cutTag]: the sigil (the zero byte when there is none) and the name. *)
Definition cutTag (inner : string) (isDefault : bool) : ascii * string :=
  if (1 <? String.length inner)
     && (found (gostrings.IndexByte specials (byteAt inner 0))
         || Ascii.eqb (byteAt inner 0) "{" && isDefault)
  then (byteAt inner 0, gostrings.TrimSpace (sdrop 1 inner))
  else (zero, gostrings.TrimSpace inner).

(** [isStandalone]: [None] stands for [ok = false]; otherwise
    [prevLineEnd], [nextLineStart], [insert] and [indent]. *)
Definition isStandalone (s : string) (tagStart tagEnd : nat)
  : option (nat * nat * string * string) :=
  let '(lineStart, prevLineEnd, insert) :=
    match lastIndexByte (substr s 0 tagStart) nl with
    | None => (0, 0, EmptyString)
    | Some i =>
      if gostrings.HasSuffix (substr s 0 i) (String cr EmptyString)
      then (i + 1, i - 1, String cr (String nl EmptyString))
      else (i + 1, i, String nl EmptyString)
    end in
  let '(lineEnd, nextLineStart) :=
    match gostrings.Index (sdrop tagEnd s) (String nl EmptyString) with
    | None => (String.length s, String.length s)
    | Some i => (tagEnd + i, tagEnd + i + 1)
    end in
  if gostrings.ContainsFunc (substr s lineStart tagStart) isNonSpace
     || gostrings.ContainsFunc (substr s tagEnd lineEnd) isNonSpace
  then None
  else Some (prevLineEnd, nextLineStart, insert, substr s lineStart tagStart).

(** A frame of the scope stack.  In the program [slice] points at the body
    of the tag that [newScope] appended to the enclosing slice; here the tag
    is attached to the enclosing slice when the scope is closed, with the
    type recorded in [opened]. *)
Record scope := mkScope {
  name : string;
  opened : tagType;
  slice : list tag
}.

(** The variables of [parse]: the stack, innermost scope first, [base] and
    [prevStandalone] ([None] for -1). *)
Record pstate := mkState {
  top : scope;
  below : list scope;
  base : nat;
  prevStandalone : option nat
}.

Definition startDelim : string := "{{".
Definition endDelim : string := "}}".

Definition initState : pstate := mkState (mkScope "" literal []) [] 0 None.

Definition appendTag (st : pstate) (t : tag) : pstate :=
  mkState (mkScope (name (top st)) (opened (top st)) (slice (top st) ++ [t]))
          (below st) (base st) (prevStandalone st).

Definition appendLiteral (st : pstate) (s : string) : pstate :=
  if String.eqb s "" then st else appendTag st (mkTag literal s "" []).

Definition newScope (st : pstate) (ty : tagType) (key : string) : pstate :=
  mkState (mkScope key ty []) (top st :: below st) (base st) (prevStandalone st).

Definition setBase (st : pstate) (b : nat) : pstate :=
  mkState (top st) (below st) b (prevStandalone st).

(** The sigils of the first [switch]: the tags that can be standalone. *)
Definition standaloneSigil (special : ascii) : bool :=
  Ascii.eqb special "!" || Ascii.eqb special "#" || Ascii.eqb special "^"
  || Ascii.eqb special "/" || Ascii.eqb special "<" || Ascii.eqb special ">"
  || Ascii.eqb special "$".

(** The first [switch] (lines 149-169 of main.go): the literal text before
    the tag, the new [base] and the indentation of the tag. *)
Definition literals (st : pstate) (s search : string) (special : ascii)
    (tagStart tagEnd : nat) : pstate * string :=
  let plain := (setBase (appendLiteral st (substr search 0 tagStart)) (base st + tagEnd),
                EmptyString) in
  if standaloneSigil special then
    match isStandalone s (base st + tagStart) (base st + tagEnd) with
    | Some (prevLineEnd, nextLineStart, insertNL, lineIndent) =>
      let st1 := if base st <? prevLineEnd
                 then appendLiteral st (substr s (base st) prevLineEnd) else st in
      let st2 := if match prevStandalone st with
                    | None => true
                    | Some p => p <? prevLineEnd
                    end
                 then appendLiteral st1 insertNL else st1 in
      (mkState (top st2) (below st2) nextLineStart (Some nextLineStart), lineIndent)
    | None => plain
    end
  else plain.

(** The second [switch] (lines 171-220). *)
Definition applyTag (st : pstate) (s : string) (special : ascii) (key indent : string)
  : result parseErr pstate :=
  if Ascii.eqb special "#" then Ok (newScope st section key)
  else if Ascii.eqb special "^" then Ok (newScope st invertedSection key)
  else if Ascii.eqb special "!" then Ok st
  else if Ascii.eqb special ">" then Ok (appendTag st (mkTag partial key indent []))
  else if Ascii.eqb special "$" then Ok (newScope st block key)
  else if Ascii.eqb special "<" then Ok (newScope st parent key)
  else if Ascii.eqb special "/" then
    match below st with
    | [] => Err (WithoutOpening startDelim key endDelim)
    | p :: rest =>
      if negb (String.eqb key (name (top st)))
      then Err (Mismatched startDelim key endDelim (name (top st)))
      else Ok (mkState (mkScope (name p) (opened p)
                          (slice p ++ [mkTag (opened (top st)) (name (top st)) ""
                                         (slice (top st))]))
                       rest (base st) (prevStandalone st))
    end
  else if Ascii.eqb special "&" then Ok (appendTag st (mkTag rawVariable key "" []))
  else if Ascii.eqb special "{" then
    if gostrings.HasPrefix (sdrop (base st) s) "}"
    then Ok (setBase (appendTag st (mkTag rawVariable key "" [])) (base st + 1))
    else Ok (appendTag st (mkTag variable key "" []))
  else Ok (appendTag st (mkTag variable key "" [])).

(** One pass through the body of the loop (lines 121-221): the state, and
    whether the loop goes on ([false] for a [break]). *)
Definition step (s : string) (st : pstate) : result parseErr (pstate * bool) :=
  let search := sdrop (base st) s in
  match gostrings.Index search startDelim with
  | None => Ok (appendLiteral st search, false)
  | Some tagStart =>
    let tagInnerStart := tagStart + String.length startDelim in
    match gostrings.Index (sdrop tagInnerStart search) endDelim with
    | None => Ok (appendLiteral st (sdrop tagStart search), false)
    | Some tagLength =>
      let tagInnerEnd := tagInnerStart + tagLength in
      let tagInner := substr search tagInnerStart tagInnerEnd in
      let tagEnd := tagInnerEnd + String.length endDelim in
      let (special, key) :=
        cutTag tagInner (String.eqb startDelim "{{" && String.eqb endDelim "}}") in
      if String.eqb key ""
      then Ok (setBase (appendLiteral st (substr search 0 tagEnd)) (base st + tagEnd), true)
      else
        let (st1, indent) := literals st s search special tagStart tagEnd in
        let* st2 := applyTag st1 s special key indent in
        Ok (st2, true)
    end
  end.

Definition finish (st : pstate) : result parseErr (list tag) :=
  match below st with
  | [] => Ok (slice (top st))
  | _ :: _ => Err (Unclosed (name (top st)))
  end.

Fixpoint parseLoop (fuel : nat) (s : string) (st : pstate) : result parseErr (list tag) :=
  match fuel with
  | 0 => OutOfFuel
  | S fuel' =>
    let* (st', more) := step s st in
    if more then parseLoop fuel' s st' else finish st'
  end.

Definition parse (s : string) : result parseErr (list tag) :=
  parseLoop (S (String.length s)) s initState.

(** The fields of a tag as this parser fills them for its type. *)
Definition shapeOK (t : tag) : bool :=
  negb (String.eqb (tag_s t) "")
  && match tag_tt t with
     | literal | variable | rawVariable =>
       String.eqb (tag_indent t) "" && isNil (tag_body t)
     | partial => isSpace (tag_indent t) && isNil (tag_body t)
     | section | invertedSection | block | parent => String.eqb (tag_indent t) ""
     | indentPoint => false
     end.

(** What holds of the stack between two tags: the tags gathered in every
    scope have their shape, and every scope but the root scope was opened by
    a section, inverted section, block or parent tag with a name. *)
Definition shapedState (st : pstate) : Prop :=
  Forall (fun sc => Forall (fun t => shapeOK t = true) (walkTags (slice sc)))
         (top st :: below st)
  /\ Forall (fun sc => isScopeType (opened sc) && negb (String.eqb (name sc) "") = true)
            (removelast (top st :: below st)).

End mustachejsc.

(** *** The resolvers of the two backends side by side *)

(** The variables of two runs of [gatherPartials] that differ in the format
    of the function names only: the same partials, loaded and parsed in the
    same order, and function names made from the same indices. *)
Definition sameResolution {K : Type} `{Countable K} (f1 f2 : nat -> string)
    (r1 r2 : resolver K) : Prop :=
  partials r1 = partials r2 /\ loads r1 = loads r2 /\ parses r1 = parses r2
  /\ forall k,
       (partialFuncNames r1 !! k = None /\ partialFuncNames r2 !! k = None)
       \/ exists i, partialFuncNames r1 !! k = Some (f1 i)
                    /\ partialFuncNames r2 !! k = Some (f2 i).
(** * Properties *)

(** ** Byte strings *)

Lemma length_sdrop n s : String.length (sdrop n s) = String.length s - n.
Proof.
  revert s; induction n as [|n IH]; intros [|c s]; simpl; auto with arith.
Qed.

Lemma length_stake n s : String.length (stake n s) = Nat.min n (String.length s).
Proof.
  revert s; induction n as [|n IH]; intros [|c s]; simpl; auto.
Qed.

Lemma sdrop_sdrop n m s : sdrop n (sdrop m s) = sdrop (m + n) s.
Proof.
  revert s; induction m as [|m IH]; intros s; simpl; auto.
  destruct s; simpl; auto. destruct n; reflexivity.
Qed.

Lemma append_cons c (a b : string) : String c a +:+ b = String c (a +:+ b).
Proof. reflexivity. Qed.

Lemma append_nil_l (b : string) : EmptyString +:+ b = b.
Proof. reflexivity. Qed.

Lemma stake_sdrop n s : stake n s +:+ sdrop n s = s.
Proof.
  revert s; induction n as [|n IH]; intros [|c s]; auto.
  change (String c (stake n s +:+ sdrop n s) = String c s).
  f_equal. apply IH.
Qed.

Lemma sdrop_all n s : String.length s <= n -> sdrop n s = EmptyString.
Proof.
  revert s; induction n as [|n IH]; intros [|c s]; simpl; intros H; auto; try lia.
  apply IH; lia.
Qed.

Lemma stake_all n s : String.length s <= n -> stake n s = s.
Proof.
  revert s; induction n as [|n IH]; intros [|c s]; simpl; intros H; auto; try lia.
  rewrite IH; auto; lia.
Qed.

Lemma length_append (a b : string) :
  String.length (a +:+ b) = String.length a + String.length b.
Proof. induction a; [reflexivity|]. rewrite append_cons. simpl. now f_equal. Qed.

Lemma length_zero_empty s : String.length s = 0 -> s = EmptyString.
Proof. destruct s; simpl; auto; discriminate. Qed.

Lemma byteAt_sdrop n k s : byteAt (sdrop n s) k = byteAt s (n + k).
Proof. unfold byteAt. now rewrite sdrop_sdrop. Qed.

Lemma substr_0 s n : substr s 0 n = stake n s.
Proof. unfold substr. simpl. now rewrite Nat.sub_0_r. Qed.

Lemma HasPrefix_length s p : gostrings.HasPrefix s p = true -> String.length p <= String.length s.
Proof.
  revert s; induction p as [|a p IH]; intros [|b s]; simpl; intros H; try lia; try discriminate.
  apply andb_true_iff in H as [_ H]. apply IH in H. lia.
Qed.

Lemma HasPrefix_nil s : gostrings.HasPrefix s EmptyString = true.
Proof. destruct s; reflexivity. Qed.

(** ** The lexer *)

Lemma scanEnd_cons isComment ed c rest pos :
  scanEnd isComment ed (String c rest) pos =
  if S (String.length rest) <? String.length ed then ScanNone
  else if Ascii.eqb c nl && negb isComment then ScanNewline
  else if gostrings.HasPrefix (String c rest) ed then ScanFound pos
  else scanEnd isComment ed rest (S pos).
Proof. reflexivity. Qed.

Lemma scanEnd_nil isComment ed pos : scanEnd isComment ed EmptyString pos = ScanNone.
Proof. simpl. destruct (0 <? String.length ed); reflexivity. Qed.

Lemma scanEnd_bounds isComment ed rest pos e :
  scanEnd isComment ed rest pos = ScanFound e ->
  pos <= e /\ e + String.length ed <= pos + String.length rest /\ e < pos + String.length rest
  /\ gostrings.HasPrefix (sdrop (e - pos) rest) ed = true.
Proof.
  revert pos; induction rest as [|c rest IH]; intros pos.
  - rewrite scanEnd_nil. discriminate.
  - rewrite scanEnd_cons.
    destruct (S (String.length rest) <? String.length ed) eqn:Hlen; [discriminate|].
    apply Nat.ltb_ge in Hlen.
    destruct (Ascii.eqb c nl && negb isComment); [discriminate|].
    destruct (gostrings.HasPrefix (String c rest) ed) eqn:Hp.
    + intros [= <-]. rewrite Nat.sub_diag. cbn [sdrop String.length].
      repeat split; auto; lia.
    + intros H. apply IH in H as (H1 & H2 & H3 & H4).
      replace (e - pos) with (S (e - S pos)) by lia. cbn [sdrop String.length].
      repeat split; auto; lia.
Qed.

(** A comment is scanned up to the first end delimiter, whatever bytes come
    before it. *)
Lemma scanEnd_comment ed rest pos k :
  (forall q, q < k -> gostrings.HasPrefix (sdrop q rest) ed = false) ->
  gostrings.HasPrefix (sdrop k rest) ed = true ->
  k < String.length rest ->
  scanEnd true ed rest pos = ScanFound (pos + k).
Proof.
  revert rest pos; induction k as [|k IH]; intros rest pos Hno Hyes Hlt;
    (destruct rest as [|c rest]; [simpl in Hlt; lia|]);
    rewrite scanEnd_cons;
    pose proof (HasPrefix_length _ _ Hyes) as Hl; rewrite length_sdrop in Hl;
    cbn [String.length] in *;
    (destruct (S (String.length rest) <? String.length ed) eqn:E;
      [apply Nat.ltb_lt in E; lia|]);
    rewrite andb_false_r.
  - cbn [sdrop] in Hyes. rewrite Hyes. f_equal. lia.
  - pose proof (Hno 0 ltac:(lia)) as H0; cbn [sdrop] in H0; rewrite H0.
    rewrite (IH rest (S pos)); [f_equal; lia | | exact Hyes | lia].
    intros q Hq. apply (Hno (S q)). lia.
Qed.

(** Outside of a comment the scan does not get past a line break. *)
Lemma scanEnd_newline ed rest pos k :
  (forall q, q < k -> gostrings.HasPrefix (sdrop q rest) ed = false) ->
  byteAt rest k = nl ->
  k < String.length rest ->
  forall e, scanEnd false ed rest pos <> ScanFound e.
Proof.
  revert rest pos; induction k as [|k IH]; intros rest pos Hno Hnl Hlt e;
    (destruct rest as [|c rest]; [simpl in Hlt; lia|]);
    rewrite scanEnd_cons;
    (destruct (S (String.length rest) <? String.length ed); [discriminate|]).
  - unfold byteAt in Hnl. cbn [sdrop] in Hnl. subst c.
    replace (Ascii.eqb nl nl && negb false) with true by reflexivity. discriminate.
  - destruct (Ascii.eqb c nl && negb false); [discriminate|].
    pose proof (Hno 0 ltac:(lia)) as H0; cbn [sdrop] in H0; rewrite H0.
    apply IH; [ | exact Hnl | cbn [String.length] in Hlt; lia].
    intros q Hq. apply (Hno (S q)). lia.
Qed.

Lemma cutTag_bounds s tagStart sd ed special key tagEnd :
  cutTag s tagStart sd ed = Ok (special, key, tagEnd) ->
  tagStart + String.length sd + String.length ed <= tagEnd /\ tagEnd <= String.length s.
Proof.
  unfold cutTag.
  destruct (scanEnd _ ed _ _) as [e| |] eqn:Hscan;
    [|discriminate|destruct (gostrings.HasPrefix _ "!"); discriminate].
  apply scanEnd_bounds in Hscan as (H1 & H2 & H3 & _).
  rewrite length_sdrop in H2, H3.
  destruct (_ && _ && gostrings.HasPrefix (sdrop (e + String.length ed) s) "}") eqn:Htriple.
  - intros [= <- <- <-].
    apply andb_true_iff in Htriple as [_ Hp]. apply HasPrefix_length in Hp.
    rewrite length_sdrop in Hp. simpl in Hp. lia.
  - destruct (gostrings.CutPrefix _ "=").
    + destruct (gostrings.CutSuffix _ "="); [|discriminate].
      intros [= <- <- <-]. lia.
    + match goal with |- (if ?c then _ else _) = _ -> _ => destruct c end;
        intros [= <- <- <-]; lia.
Qed.

Lemma length_substr s lo hi :
  String.length (substr s lo hi) = Nat.min (hi - lo) (String.length s - lo).
Proof. unfold substr. now rewrite length_stake, length_sdrop. Qed.

Lemma HasPrefix_bang r :
  gostrings.HasPrefix r "!" = true -> exists r', r = String "!" r'.
Proof.
  destruct r as [|c r]; [discriminate|].
  cbn [gostrings.HasPrefix]. rewrite HasPrefix_nil, andb_true_r.
  intros H. apply Ascii.eqb_eq in H. subst c. now exists r.
Qed.

(** C8: outside of a comment, a line break in the inner content before the
    close delimiter makes [cutTag] fail; a comment is cut at the first close
    delimiter, whatever line breaks its content has. *)
Theorem cutTag_line_break (s : string) (tagStart : nat) (sd ed : string) :
  let tagInnerStart := tagStart + String.length sd in
  let isComment := gostrings.HasPrefix (sdrop tagInnerStart s) "!" in
  (isComment = false ->
   forall p, tagInnerStart <= p -> p < String.length s -> byteAt s p = nl ->
     (forall q, tagInnerStart <= q -> q < p -> gostrings.HasPrefix (sdrop q s) ed = false) ->
     exists e, cutTag s tagStart sd ed = Err e)
  /\
  (isComment = true ->
   forall e, tagInnerStart <= e -> e < String.length s ->
     (forall q, tagInnerStart <= q -> q < e -> gostrings.HasPrefix (sdrop q s) ed = false) ->
     gostrings.HasPrefix (sdrop e s) ed = true ->
     let inner := substr s tagInnerStart e in
     cutTag s tagStart sd ed =
       if 1 <? e - tagInnerStart
       then Ok ("!"%char, gostrings.TrimSpace (sdrop 1 inner), e + String.length ed)
       else Ok (zero, gostrings.TrimSpace inner, e + String.length ed)).
Proof.
  intros tis isComment. subst isComment. split.
  - intros Hc p Hp1 Hp2 Hnl Hno. unfold cutTag. fold tis. rewrite Hc.
    destruct (scanEnd false ed (sdrop tis s) tis) as [e| |] eqn:Hscan; eauto.
    exfalso. revert Hscan. apply (scanEnd_newline ed (sdrop tis s) tis (p - tis)).
    + intros q Hq. rewrite sdrop_sdrop. apply Hno; lia.
    + rewrite byteAt_sdrop. now replace (tis + (p - tis)) with p by lia.
    + rewrite length_sdrop. lia.
  - intros Hc e He1 He2 Hno Hyes inner. unfold cutTag. fold tis. rewrite Hc.
    rewrite (scanEnd_comment ed (sdrop tis s) tis (e - tis)).
    2:{ intros q Hq. rewrite sdrop_sdrop. apply Hno; lia. }
    2:{ rewrite sdrop_sdrop. now replace (tis + (e - tis)) with e by lia. }
    2:{ rewrite length_sdrop. lia. }
    replace (tis + (e - tis)) with e by lia. fold inner.
    destruct (HasPrefix_bang _ Hc) as [r Hr].
    assert (Hb : byteAt s tis = "!"%char) by (unfold byteAt; now rewrite Hr).
    rewrite Hb. replace (Ascii.eqb "!" "{") with false by reflexivity.
    rewrite andb_false_r. cbn [andb].
    assert (Hlen : String.length inner = e - tis).
    { unfold inner. rewrite length_substr. lia. }
    assert (Hinner : inner = stake (e - tis) (String "!" r)).
    { unfold inner, substr. now rewrite Hr. }
    assert (Hcut : gostrings.CutPrefix inner "=" = None).
    { unfold gostrings.CutPrefix. rewrite Hinner.
      destruct (e - tis); reflexivity. }
    rewrite Hcut, Hlen.
    destruct (1 <? e - tis) eqn:Hk; [|reflexivity].
    apply Nat.ltb_lt in Hk.
    assert (Hb0 : byteAt inner 0 = "!"%char).
    { rewrite Hinner. destruct (e - tis); [lia|reflexivity]. }
    rewrite Hb0. reflexivity.
Qed.

(** The tag ["{{a\n}}"] is rejected and the comment ["{{! a\n b }}"] is cut
    whole. *)
Lemma cutTag_line_break_witness :
  (exists e, cutTag ("{{a" +:+ String nl "}}") 0 "{{" "}}" = Err e)
  /\ cutTag ("{{! a" +:+ String nl " b }}") 0 "{{" "}}"
     = Ok ("!"%char, "a" +:+ String nl " b", 11).
Proof.
  split.
  - apply (proj1 (cutTag_line_break ("{{a" +:+ String nl "}}") 0 "{{" "}}") eq_refl 3).
    + simpl; lia.
    + simpl; lia.
    + reflexivity.
    + intros q H1 H2. simpl in H1. assert (q = 2) as -> by lia. reflexivity.
  - refine (eq_trans
      (proj2 (cutTag_line_break ("{{! a" +:+ String nl " b }}") 0 "{{" "}}")
         eq_refl 9 _ _ _ _) _).
    + simpl; lia.
    + simpl; lia.
    + intros q H1 H2. simpl in H1.
      do 2 (destruct q as [|q]; [lia|]).
      do 7 (destruct q as [|q]; [reflexivity|]). lia.
    + reflexivity.
    + reflexivity.
Defined.

(** ** Tag-free sources *)

Lemma HasPrefix_stake n s p :
  gostrings.HasPrefix (stake n s) p = true -> gostrings.HasPrefix s p = true.
Proof.
  revert n s; induction p as [|a p IH]; intros n s; [now rewrite !HasPrefix_nil|].
  destruct n, s as [|b s]; cbn [stake gostrings.HasPrefix]; try discriminate.
  intros H. apply andb_true_iff in H as [H1 H2]. rewrite H1. cbn [andb]. eauto.
Qed.

Lemma Index_cons_None c s sub :
  gostrings.Index (String c s) sub = None ->
  gostrings.HasPrefix (String c s) sub = false /\ gostrings.Index s sub = None.
Proof.
  cbn [gostrings.Index].
  destruct (gostrings.HasPrefix (String c s) sub); [discriminate|].
  destruct (gostrings.Index s sub); [discriminate|auto].
Qed.

Lemma Index_nil_None sub :
  gostrings.Index EmptyString sub = None -> gostrings.HasPrefix EmptyString sub = false.
Proof.
  cbn [gostrings.Index]. destruct (gostrings.HasPrefix EmptyString sub); [discriminate|auto].
Qed.

Lemma Index_stake_None n s sub :
  gostrings.Index s sub = None -> gostrings.Index (stake n s) sub = None.
Proof.
  revert n; induction s as [|c s IH]; intros n H.
  - destruct n; exact H.
  - apply Index_cons_None in H as [H1 H2].
    assert (Hnil : gostrings.HasPrefix EmptyString sub = false).
    { destruct sub; [now rewrite HasPrefix_nil in H1 | reflexivity]. }
    destruct n; cbn [stake gostrings.Index].
    + now rewrite Hnil.
    + destruct (gostrings.HasPrefix (String c (stake n s)) sub) eqn:E.
      * apply (HasPrefix_stake (S n) (String c s)) in E. congruence.
      * now rewrite (IH n H2).
Qed.

Lemma Index_sdrop_None n s sub :
  gostrings.Index s sub = None -> gostrings.Index (sdrop n s) sub = None.
Proof.
  revert s; induction n as [|n IH]; intros s H; [exact H|].
  destruct s as [|c s]; [exact H|].
  apply Index_cons_None in H as [_ H]. cbn [sdrop]. auto.
Qed.

Lemma IndexByte_lt s c i : gostrings.IndexByte s c = Some i -> i < String.length s.
Proof.
  revert i; induction s as [|b s IH]; intros i; cbn [gostrings.IndexByte]; [discriminate|].
  destruct (Ascii.eqb b c); [intros [= <-]; simpl; lia|].
  destruct (gostrings.IndexByte s c) as [j|]; [|discriminate].
  intros [= <-]. specialize (IH j eq_refl). simpl. lia.
Qed.

Lemma indexNextLine_le s : indexNextLine s <= String.length s.
Proof.
  unfold indexNextLine. destruct (gostrings.IndexByte s nl) eqn:E; [|lia].
  apply IndexByte_lt in E. lia.
Qed.

Lemma indexNextLine_pos s : s <> EmptyString -> 0 < indexNextLine s.
Proof.
  unfold indexNextLine. destruct (gostrings.IndexByte s nl); [lia|].
  destruct s; [congruence|simpl; lia].
Qed.

Lemma append_assoc (a b c : string) : (a +:+ b) +:+ c = a +:+ (b +:+ c).
Proof.
  induction a as [|x a IH]; [reflexivity|].
  rewrite !append_cons. now f_equal.
Qed.

Lemma append_nil_r (a : string) : a +:+ EmptyString = a.
Proof. induction a as [|x a IH]; [reflexivity|]. rewrite append_cons. now f_equal. Qed.

Lemma eqb_append_cons (a : string) c b : String.eqb (a +:+ String c b) "" = false.
Proof. destruct a; reflexivity. Qed.

Lemma splitLinesFrom_step cur s :
  s <> EmptyString ->
  splitLinesFrom cur s =
  (cur +:+ stake (indexNextLine s) s) :: sourceLines (sdrop (indexNextLine s) s).
Proof.
  revert cur; induction s as [|c s IH]; intros cur Hne; [congruence|].
  cbn [splitLinesFrom]. unfold indexNextLine. cbn [gostrings.IndexByte].
  destruct (Ascii.eqb c nl) eqn:E.
  - reflexivity.
  - destruct s as [|d s].
    + cbn [splitLinesFrom String.length stake sdrop].
      rewrite eqb_append_cons. reflexivity.
    + rewrite IH by discriminate. unfold indexNextLine.
      destruct (gostrings.IndexByte (String d s) nl) as [i|]; cbn [option_map].
      * rewrite Nat.add_1_r. cbn [stake sdrop]. rewrite Nat.add_1_r.
        rewrite append_assoc. reflexivity.
      * cbn [String.length stake sdrop]. rewrite append_assoc. reflexivity.
Qed.

Lemma sourceLines_step s :
  s <> EmptyString ->
  sourceLines s = stake (indexNextLine s) s :: sourceLines (sdrop (indexNextLine s) s).
Proof. intros H. unfold sourceLines at 1. now rewrite splitLinesFrom_step. Qed.

Lemma literalText_app a b : literalText (a ++ b) = literalText a +:+ literalText b.
Proof.
  induction a as [|t a IH]; [reflexivity|].
  cbn [app literalText]. destruct (tagType_eqb (tag_tt t) literal); auto.
  now rewrite IH, append_assoc.
Qed.

Lemma dedent_atRoot st s : atRoot st -> dedent st s = s.
Proof.
  intros (Hb & Ht & _). unfold dedent, stackOf. rewrite Hb. cbn [rev app dedentLoop].
  now rewrite Ht.
Qed.

Lemma stake_nonempty n s : 0 < n -> s <> EmptyString -> String.eqb (stake n s) "" = false.
Proof. destruct n, s; intros; try lia; try congruence; reflexivity. Qed.

Lemma parseLine_tag_free st s :
  atRoot st -> s <> EmptyString -> gostrings.Index s defaultStartDelim = None ->
  parseLine st s =
    Ok (nextLine (appendTag (appendTag st indentPointTag)
                    (mkTag literal (stake (indexNextLine s) s) "" [])),
        sdrop (indexNextLine s) s).
Proof.
  intros Hroot Hne Hidx. unfold parseLine. rewrite (dedent_atRoot _ _ Hroot).
  destruct Hroot as (Hb & Ht & Hsd). rewrite Hsd, substr_0.
  rewrite (Index_stake_None _ _ _ Hidx). cbn [tagLoop bind].
  rewrite substr_0. unfold appendLiteral.
  now rewrite (stake_nonempty _ _ (indexNextLine_pos _ Hne) Hne).
Qed.

Lemma parseLoop_tag_free fuel st s :
  atRoot st -> String.length s <= fuel -> gostrings.Index s defaultStartDelim = None ->
  parseLoop fuel st s = Ok (slice (top st) ++ flat_map lineTags (sourceLines s)).
Proof.
  revert st s; induction fuel as [|fuel IH]; intros st s Hroot Hlen Hidx.
  - apply Nat.le_0_r, length_zero_empty in Hlen. subst s.
    cbn. unfold finish. destruct Hroot as (-> & _). now rewrite app_nil_r.
  - destruct s as [|c s].
    + cbn. unfold finish. destruct Hroot as (-> & _). now rewrite app_nil_r.
    + cbn [parseLoop]. rewrite parseLine_tag_free by (auto; discriminate).
      cbn [bind]. rewrite IH.
      * rewrite (sourceLines_step (String c s)) by discriminate.
        cbn [flat_map lineTags app nextLine appendTag withTop top slice].
        rewrite <- !app_assoc. reflexivity.
      * destruct Hroot as (Hb & Ht & Hsd). repeat split; assumption.
      * rewrite length_sdrop.
        pose proof (indexNextLine_pos (String c s) ltac:(discriminate)).
        cbn [String.length] in *. lia.
      * now apply Index_sdrop_None.
Qed.

Lemma sourceLines_concat s :
  forall fuel, String.length s <= fuel ->
  literalText (flat_map lineTags (sourceLines s)) = s.
Proof.
  intros fuel; revert s; induction fuel as [|fuel IH]; intros s Hlen.
  - apply Nat.le_0_r, length_zero_empty in Hlen. now subst s.
  - destruct s as [|c s]; [reflexivity|].
    rewrite sourceLines_step by discriminate.
    cbn [flat_map lineTags app literalText tag_tt tag_s indentPointTag].
    replace (tagType_eqb indentPoint literal) with false by reflexivity.
    replace (tagType_eqb literal literal) with true by reflexivity.
    rewrite IH.
    + apply stake_sdrop.
    + rewrite length_sdrop.
      pose proof (indexNextLine_pos (String c s) ltac:(discriminate)).
      cbn [String.length] in *. lia.
Qed.

Lemma lineTags_kinds ls :
  Forall (fun t => tag_tt t = literal \/ tag_tt t = indentPoint) (flat_map lineTags ls).
Proof.
  induction ls as [|l ls IH]; [constructor|].
  cbn [flat_map lineTags app].
  constructor; [right; reflexivity|]. constructor; [left; reflexivity|]. exact IH.
Qed.

(** C10: a source without the open delimiter parses to one indent point and
    one literal per line, and the text of the literals is the source. *)
Theorem parse_tag_free (s : string) :
  gostrings.Index s defaultStartDelim = None ->
  exists tags,
    parse s = Ok tags
    /\ tags = flat_map lineTags (sourceLines s)
    /\ Forall (fun t => tag_tt t = literal \/ tag_tt t = indentPoint) tags
    /\ literalText tags = s.
Proof.
  intros Hidx. exists (flat_map lineTags (sourceLines s)). repeat split.
  - unfold parse. rewrite parseLoop_tag_free; auto.
    repeat split; reflexivity.
  - apply lineTags_kinds.
  - now apply (sourceLines_concat s (String.length s)).
Qed.

(** The two-line source ["ab\ncd"]. *)
Lemma parse_tag_free_witness :
  exists tags,
    parse ("ab" +:+ String nl "cd") = Ok tags
    /\ tags = [indentPointTag; mkTag literal ("ab" +:+ String nl "") "" [];
               indentPointTag; mkTag literal "cd" "" []]
    /\ Forall (fun t => tag_tt t = literal \/ tag_tt t = indentPoint) tags
    /\ literalText tags = "ab" +:+ String nl "cd".
Proof. exact (parse_tag_free ("ab" +:+ String nl "cd") eq_refl). Defined.

(** ** Termination *)

Lemma IndexFuncFrom_bounds f skip pos s i :
  gostrings.IndexFuncFrom f skip pos s = Some i -> pos <= i < pos + String.length s.
Proof.
  revert skip pos; induction s as [|c s IH]; intros skip pos; [discriminate|].
  cbn [gostrings.IndexFuncFrom String.length].
  destruct skip as [|k].
  - destruct (utf8.DecodeRuneInString (String c s)) as [r size].
    destruct (f r); [intros [= <-]; lia|].
    intros H. apply IH in H. lia.
  - intros H. apply IH in H. lia.
Qed.

Lemma IndexFunc_lt s f i : gostrings.IndexFunc s f = Some i -> i < String.length s.
Proof. intros H. apply IndexFuncFrom_bounds in H. lia. Qed.

Lemma nextIndexFunc_bounds s start f j :
  nextIndexFunc s start f = Some j -> start <= j < String.length s.
Proof.
  unfold nextIndexFunc. destruct (gostrings.IndexFunc _ f) as [i|] eqn:E; [|discriminate].
  intros [= <-]. apply IndexFunc_lt in E. rewrite length_sdrop in E. lia.
Qed.

Lemma splitSetDelimiterTag_nonempty s sd ed :
  splitSetDelimiterTag s = Ok (sd, ed) -> sd <> EmptyString /\ ed <> EmptyString.
Proof.
  unfold splitSetDelimiterTag.
  destruct (gostrings.IndexFunc s unicode.IsSpace) as [[|i]|] eqn:Hi; try discriminate.
  destruct (nextIndexFunc s (S i) isNonSpace) as [j|] eqn:Hj; [|discriminate].
  destruct (nextIndexFunc s j unicode.IsSpace); [discriminate|].
  intros [= <- <-]. apply IndexFunc_lt in Hi. apply nextIndexFunc_bounds in Hj.
  split; intros H; apply (f_equal String.length) in H.
  - rewrite length_substr in H. cbn [String.length] in H. lia.
  - rewrite length_sdrop in H. cbn [String.length] in H. lia.
Qed.

Lemma splitSetDelimiterTag_fuel s : splitSetDelimiterTag s <> OutOfFuel.
Proof.
  unfold splitSetDelimiterTag.
  destruct (gostrings.IndexFunc s unicode.IsSpace) as [[|i]|]; try discriminate;
    destruct (nextIndexFunc s _ isNonSpace) as [j|]; try discriminate;
    destruct (nextIndexFunc s j unicode.IsSpace); discriminate.
Qed.

Lemma cutTag_fuel s tagStart sd ed : cutTag s tagStart sd ed <> OutOfFuel.
Proof.
  unfold cutTag.
  destruct (scanEnd _ ed _ _); try (destruct (gostrings.HasPrefix _ "!"); discriminate);
    try discriminate.
  destruct (_ && _ && gostrings.HasPrefix _ "}"); [discriminate|].
  destruct (gostrings.CutPrefix _ "=").
  - destruct (gostrings.CutSuffix _ "="); discriminate.
  - match goal with |- (if ?c then _ else _) <> _ => destruct c end; discriminate.
Qed.

Lemma Index_bounds s sub i :
  gostrings.Index s sub = Some i -> i + String.length sub <= String.length s.
Proof.
  revert i; induction s as [|c s IH]; intros i; cbn [gostrings.Index].
  - destruct (gostrings.HasPrefix EmptyString sub) eqn:E; [|discriminate].
    intros [= <-]. apply HasPrefix_length in E. simpl in *. lia.
  - destruct (gostrings.HasPrefix (String c s) sub) eqn:E.
    + intros [= <-]. apply HasPrefix_length in E. simpl in *. lia.
    + destruct (gostrings.Index s sub) as [j|]; [|discriminate].
      intros [= <-]. specialize (IH j eq_refl). simpl. lia.
Qed.

Lemma nextIndex_bounds s start sub i :
  nextIndex s start sub = Some i -> start <= i.
Proof.
  unfold nextIndex. destruct (gostrings.Index _ sub); [|discriminate].
  intros [= <-]. lia.
Qed.

(** The scan of [elementEnd] returns, and past its starting index. *)
Lemma elementEndLoop_total fuel name s : forall level i sd ed,
  ed <> EmptyString -> String.length s - i < fuel ->
  (exists j, elementEndLoop fuel name s level i sd ed = Ok j
             /\ i <= j <= Nat.max i (String.length s) /\ (0 < level -> i < j))
  \/ (exists e, elementEndLoop fuel name s level i sd ed = Err e).
Proof.
  induction fuel as [|fuel IH]; intros level i sd ed Hed Hfuel; [lia|].
  destruct level as [|level]; [left; exists i; cbn; split; [reflexivity|lia]|].
  cbn [elementEndLoop].
  destruct (nextIndex s i sd) as [tagStart|] eqn:Hnext; [|right; eauto].
  apply nextIndex_bounds in Hnext.
  destruct (cutTag s tagStart sd ed) as [[[special key] tagEnd]|e|] eqn:Hcut;
    [|right; eauto|now apply cutTag_fuel in Hcut].
  apply cutTag_bounds in Hcut.
  assert (Hlen : 0 < String.length ed) by (destruct ed; [congruence|simpl; lia]).
  assert (Hstep : forall level' sd' ed', ed' <> EmptyString ->
    (exists j, elementEndLoop fuel name s level' tagEnd sd' ed' = Ok j
               /\ i <= j <= Nat.max i (String.length s) /\ (0 < S level -> i < j))
    \/ (exists e, elementEndLoop fuel name s level' tagEnd sd' ed' = Err e)).
  { intros level' sd' ed' Hed'.
    destruct (IH level' tagEnd sd' ed' Hed' ltac:(lia)) as [(j & Hj & Hb & _)|[e He]].
    - left. exists j. split; [exact Hj|]. lia.
    - right. eauto. }
  destruct (isOpenSigil special); [apply Hstep; auto|].
  destruct (Ascii.eqb special "/"); [apply Hstep; auto|].
  destruct (Ascii.eqb special "="); [|apply Hstep; auto].
  destruct (splitSetDelimiterTag key) as [[sd' ed']|e|] eqn:Hsplit.
  - apply splitSetDelimiterTag_nonempty in Hsplit as [_ Hed']. apply Hstep; auto.
  - right; eauto.
  - now apply splitSetDelimiterTag_fuel in Hsplit.
Qed.

Lemma elementEnd_bounds name s tagEnd sd ed :
  ed <> EmptyString ->
  (exists i, elementEnd name s tagEnd sd ed = Ok i
             /\ tagEnd < i <= Nat.max tagEnd (String.length s))
  \/ (exists e, elementEnd name s tagEnd sd ed = Err e).
Proof.
  intros Hed. unfold elementEnd.
  destruct (elementEndLoop_total (S (String.length s)) name s 1 tagEnd sd ed Hed ltac:(lia))
    as [(j & Hj & Hb & Hlt)|[e He]].
  - left. exists j. split; [exact Hj|]. specialize (Hlt ltac:(lia)). lia.
  - right. eauto.
Qed.

Lemma applyTag_delims st special key indent sa ig :
  endDelim st <> EmptyString ->
  applyTag st special key indent sa ig <> OutOfFuel
  /\ forall st' ig', applyTag st special key indent sa ig = Ok (st', ig') ->
       endDelim st' <> EmptyString.
Proof.
  intros Hed. unfold applyTag.
  repeat match goal with
         | |- context [if Ascii.eqb special ?c then _ else _] =>
           destruct (Ascii.eqb special c)
         end;
    try (split; [discriminate | intros st' ig' [= <- <-]; try destruct ig; exact Hed]).
  - destruct (below st) as [|p rest]; [split; [discriminate|intros; discriminate]|].
    destruct (negb _); split; try discriminate.
    intros st' ig' [= <- <-]. exact Hed.
  - destruct (splitSetDelimiterTag key) as [[sd ed]|e|] eqn:Hsplit.
    + apply splitSetDelimiterTag_nonempty in Hsplit as [_ Hed'].
      split; [discriminate|]. intros st' ig' [= <- <-]. exact Hed'.
    + split; [discriminate|intros; discriminate].
    + now apply splitSetDelimiterTag_fuel in Hsplit.
Qed.

Lemma endDelim_emitLeading st sa pe ts special lead :
  endDelim (emitLeading st sa pe ts special lead) = endDelim st.
Proof.
  unfold emitLeading, appendLiteral.
  destruct (negb sa); [|reflexivity].
  destruct (_ && _); destruct (String.eqb lead ""); reflexivity.
Qed.

Lemma skipLines_frame st s ts te eol st' eol' :
  skipLines st s ts te eol = (st', eol') ->
  top st' = top st /\ below st' = below st /\ startDelim st' = startDelim st
  /\ endDelim st' = endDelim st
  /\ (0 < eol -> 0 < eol').
Proof.
  unfold skipLines.
  destruct (0 <? gostrings.Count (substr s ts te) (String nl EmptyString)) eqn:E;
    intros [= <- <-]; repeat split; auto.
  intros _. apply Nat.ltb_lt in E.
  destruct (te - ts) eqn:D; [unfold substr in E; rewrite D in E; cbn in E; lia|lia].
Qed.

Lemma checkKey_fuel n special key : checkKey n special key <> OutOfFuel.
Proof.
  unfold checkKey. destruct (_ && _); [|discriminate].
  destruct (String.eqb key ""); [discriminate|].
  destruct (gostrings.IndexFunc key unicode.IsSpace); discriminate.
Qed.

Lemma trailingTextOf_fuel st s special key tagEnd eol :
  endDelim st <> EmptyString -> trailingTextOf st s special key tagEnd eol <> OutOfFuel.
Proof.
  intros Hed. unfold trailingTextOf.
  destruct (isStandalonePairTag special (topTT st)); [|discriminate].
  destruct (elementEnd_bounds key s tagEnd (startDelim st) (endDelim st) Hed)
    as [(i & -> & _)|[e ->]]; discriminate.
Qed.

Lemma processTag_props st s eol pe ts :
  endDelim st <> EmptyString ->
  processTag st s eol pe ts <> OutOfFuel
  /\ forall st' eol' pe' nxt, processTag st s eol pe ts = Ok (st', eol', pe', nxt) ->
       endDelim st' <> EmptyString /\ (0 < eol -> 0 < eol')
       /\ ts < String.length s
       /\ forall ts', nxt = Some ts' -> ts < ts'.
Proof.
  intros Hed. unfold processTag.
  destruct (cutTag s ts (startDelim st) (endDelim st)) as [[[special key] tagEnd]|e|] eqn:Hcut;
    cbn [atLine bind];
    [|split; [discriminate|intros; discriminate]|now apply cutTag_fuel in Hcut].
  apply cutTag_bounds in Hcut.
  assert (Hlen : 0 < String.length (endDelim st))
    by (destruct (endDelim st); [congruence|simpl; lia]).
  destruct (skipLines st s ts tagEnd eol) as [st1 eol1] eqn:Hskip.
  apply skipLines_frame in Hskip as (_ & _ & _ & Hed1 & Heol).
  assert (Hed1' : endDelim st1 <> EmptyString) by now rewrite Hed1.
  destruct (checkKey (curLine st1) special key) as [[]|e|] eqn:Hck; cbn [bind];
    [|split; [discriminate|intros; discriminate]|now apply checkKey_fuel in Hck].
  destruct (trailingTextOf st1 s special key tagEnd eol1) as [trailing|e|] eqn:Htr;
    cbn [atLine bind];
    [|split; [discriminate|intros; discriminate]
     |now apply trailingTextOf_fuel in Htr].
  match goal with
  | |- context [applyTag ?a ?b ?c ?d ?e ?f] =>
    destruct (applyTag_delims a b c d e f) as [Hfuel Hok];
      [now rewrite endDelim_emitLeading|];
      destruct (applyTag a b c d e f) as [[st2 ig]|e'|] eqn:Happ
  end; cbn [bind]; [|split; [discriminate|intros; discriminate]|congruence].
  specialize (Hok _ _ eq_refl).
  destruct ig; (split; [discriminate|]); intros st' eol' pe' nxt [= <- <- <- <-];
    repeat split; auto; try lia.
  - discriminate.
  - intros ts' Hn. apply nextIndex_bounds in Hn. lia.
Qed.

Lemma tagLoop_props fuel : forall st s eol pe tagStart,
  endDelim st <> EmptyString ->
  (forall ts, tagStart = Some ts -> String.length s - ts < fuel) ->
  tagLoop fuel st s eol pe tagStart <> OutOfFuel
  /\ forall st' eol' pe', tagLoop fuel st s eol pe tagStart = Ok (st', eol', pe') ->
       endDelim st' <> EmptyString /\ (0 < eol -> 0 < eol').
Proof.
  induction fuel as [|fuel IH]; intros st s eol pe tagStart Hed Hfuel.
  - destruct tagStart as [ts|]; [specialize (Hfuel ts eq_refl); lia|].
    cbn. split; [discriminate|]. now intros st' eol' pe' [= <- <- <-].
  - destruct tagStart as [ts|];
      [|cbn; split; [discriminate|]; now intros st' eol' pe' [= <- <- <-]].
    cbn [tagLoop]. specialize (Hfuel ts eq_refl).
    destruct (processTag_props st s eol pe ts Hed) as [Hne Hok].
    destruct (processTag st s eol pe ts) as [[[[st1 eol1] pe1] nxt]|e|];
      cbn [bind]; [|split; [discriminate|intros; discriminate]|congruence].
    destruct (Hok _ _ _ _ eq_refl) as (Hed1 & Heol & Hts & Hnxt).
    destruct (IH st1 s eol1 pe1 nxt Hed1) as [Hne' Hok'].
    { intros ts' ->. specialize (Hnxt ts' eq_refl). lia. }
    split; [exact Hne'|].
    intros st' eol' pe' Hloop. destruct (Hok' _ _ _ Hloop). split; auto.
Qed.

Lemma dedentLoop_length scopes s : String.length (dedentLoop scopes s) <= String.length s.
Proof.
  revert s; induction scopes as [|curr rest IH]; intros s; cbn [dedentLoop]; [lia|].
  destruct (negb _); [apply IH|].
  unfold gostrings.CutPrefix. destruct (gostrings.HasPrefix s _); [|lia].
  etransitivity; [apply IH|]. rewrite length_sdrop. lia.
Qed.

Lemma parseLine_props st s :
  endDelim st <> EmptyString ->
  parseLine st s <> OutOfFuel
  /\ forall st' s', parseLine st s = Ok (st', s') ->
       endDelim st' <> EmptyString
       /\ (s <> EmptyString -> String.length s' < String.length s).
Proof.
  intros Hed. unfold parseLine.
  set (s1 := dedent st s).
  set (tagStart := gostrings.Index (substr s1 0 (indexNextLine s1)) (startDelim st)).
  set (st1 := match tagStart with None => appendTag st indentPointTag | Some _ => st end).
  assert (Hed1 : endDelim st1 <> EmptyString) by (unfold st1; destruct tagStart; exact Hed).
  destruct (tagLoop_props (S (String.length s1)) st1 s1 (indexNextLine s1) 0 tagStart Hed1)
    as [Hne Hok]; [intros; lia|].
  destruct (tagLoop _ st1 s1 _ 0 tagStart) as [[[st2 eol2] pe2]|e|];
    cbn [bind]; [|split; [discriminate|intros; discriminate]|congruence].
  split; [discriminate|]. intros st' s' [= <- <-].
  destruct (Hok _ _ _ eq_refl) as [Hed2 Heol]. split.
  - unfold nextLine, appendLiteral. cbn [endDelim].
    destruct (String.eqb _ ""); exact Hed2.
  - intros Hne'. rewrite length_sdrop.
    pose proof (dedentLoop_length (stackOf st) s) as Hd. fold (dedent st s) in Hd. fold s1 in Hd.
    destruct s1 as [|c s1'] eqn:Hs1.
    + destruct s; [congruence|]. cbn [String.length]. lia.
    + specialize (Heol (indexNextLine_pos (String c s1') ltac:(discriminate))).
      cbn [String.length] in *. lia.
Qed.

Lemma parseLoop_total fuel : forall st s,
  endDelim st <> EmptyString -> String.length s <= fuel ->
  parseLoop fuel st s <> OutOfFuel.
Proof.
  induction fuel as [|fuel IH]; intros st s Hed Hlen.
  - apply Nat.le_0_r, length_zero_empty in Hlen. subst s. cbn.
    unfold finish. destruct (below st); discriminate.
  - destruct s as [|c s]; [cbn; unfold finish; destruct (below st); discriminate|].
    cbn [parseLoop].
    destruct (parseLine_props st (String c s) Hed) as [Hne Hok].
    destruct (parseLine st (String c s)) as [[st' s']|e|]; cbn [bind];
      [|discriminate|congruence].
    destruct (Hok _ _ eq_refl) as [Hed' Hlt]. specialize (Hlt ltac:(discriminate)).
    apply IH; [exact Hed'|]. cbn [String.length] in *. lia.
Qed.

Lemma parse_total s : parse s <> OutOfFuel.
Proof. apply parseLoop_total; [discriminate|lia]. Qed.

(** *** The indices of a line stay in order *)

Lemma IndexByte_spec s c i : gostrings.IndexByte s c = Some i -> byteAt s i = c.
Proof.
  revert i; induction s as [|b s IH]; intros i; cbn [gostrings.IndexByte]; [discriminate|].
  destruct (Ascii.eqb b c) eqn:E.
  - intros [= <-]. now apply Ascii.eqb_eq in E.
  - destruct (gostrings.IndexByte s c) as [j|]; [|discriminate].
    intros [= <-]. apply (IH j eq_refl).
Qed.

Lemma indexNextLine_lineEnd r : lineEnd r (indexNextLine r).
Proof.
  split; [apply indexNextLine_le|]. unfold indexNextLine.
  destruct (gostrings.IndexByte r nl) as [i|] eqn:E; [right|now left].
  split; [lia|]. replace (i + 1 - 1) with i by lia. now apply IndexByte_spec.
Qed.

Lemma byteAt_stake n s p : p < n -> byteAt (stake n s) p = byteAt s p.
Proof.
  revert n s; induction p as [|p IH]; intros [|n] [|c s] Hlt; try lia; try reflexivity.
  unfold byteAt in *. cbn [stake sdrop]. apply IH. lia.
Qed.

Lemma Count_nl_zero r :
  gostrings.Count r (String nl EmptyString) = 0 ->
  forall p, p < String.length r -> byteAt r p <> nl.
Proof.
  unfold gostrings.Count. induction r as [|c r IH]; intros Hc p Hp; [simpl in Hp; lia|].
  cbn [gostrings.CountFrom gostrings.HasPrefix] in Hc. rewrite HasPrefix_nil, andb_true_r in Hc.
  destruct (Ascii.eqb nl c) eqn:E; [discriminate|].
  destruct p as [|p].
  - unfold byteAt. cbn [sdrop]. intros ->. now rewrite Ascii.eqb_refl in E.
  - unfold byteAt in *. cbn [sdrop]. apply IH; [exact Hc|]. simpl in Hp. lia.
Qed.

(** A tag that [cutTag] cut ends in the line, the end of the line being moved
    when the tag has line breaks: the slices [s[tagStart:tagEnd]],
    [s[tagEnd:eol]] and [s[:eol][tagEnd:]] are in range. *)
Lemma tag_within_line st s eol ts special key tagEnd st1 eol1 :
  startDelim st <> EmptyString -> endDelim st <> EmptyString ->
  lineEnd s eol -> ts + String.length (startDelim st) <= eol ->
  cutTag s ts (startDelim st) (endDelim st) = Ok (special, key, tagEnd) ->
  skipLines st s ts tagEnd eol = (st1, eol1) ->
  ts < tagEnd /\ tagEnd <= eol1 /\ lineEnd s eol1.
Proof.
  intros Hsd Hed [Hle Hend] Hts Hcut Hskip.
  apply cutTag_bounds in Hcut as [Hlo Hhi].
  assert (0 < String.length (startDelim st)) by (destruct (startDelim st); [congruence|simpl; lia]).
  split; [lia|]. unfold skipLines in Hskip.
  destruct (0 <? gostrings.Count (substr s ts tagEnd) (String nl EmptyString)) eqn:En.
  - injection Hskip as _ <-.
    destruct (indexNextLine_lineEnd (sdrop tagEnd s)) as [Hl He].
    rewrite length_sdrop in Hl, He. split; [lia|]. split; [lia|].
    destruct He as [He|[Hpos He]]; [left; lia|right].
    split; [lia|]. rewrite byteAt_sdrop in He.
    now replace (tagEnd + indexNextLine (sdrop tagEnd s) - 1)
      with (tagEnd + (indexNextLine (sdrop tagEnd s) - 1)) by lia.
  - injection Hskip as _ <-. apply Nat.ltb_ge in En.
    assert (Hno : forall p, ts <= p -> p < tagEnd -> byteAt s p <> nl).
    { intros p Hp1 Hp2.
      pose proof (Count_nl_zero (substr s ts tagEnd) ltac:(lia) (p - ts)) as Hc.
      rewrite length_substr in Hc. unfold substr in Hc.
      rewrite byteAt_stake, byteAt_sdrop in Hc by lia.
      replace (ts + (p - ts)) with p in Hc by lia. apply Hc. lia. }
    split; [|split; assumption].
    destruct Hend as [->|[Hpos Hnl]]; [exact Hhi|].
    destruct (le_lt_dec tagEnd (eol - 1)) as [|Hgt]; [lia|].
    exfalso. apply (Hno (eol - 1)); [lia|lia|exact Hnl].
Qed.

Lemma Index_stake_bounds s eol sub i :
  eol <= String.length s -> gostrings.Index (stake eol s) sub = Some i ->
  i + String.length sub <= eol.
Proof.
  intros Hle Hi. apply Index_bounds in Hi. rewrite length_stake in Hi. lia.
Qed.

Lemma startDelim_emitLeading st sa pe ts special lead :
  startDelim (emitLeading st sa pe ts special lead) = startDelim st.
Proof.
  unfold emitLeading, appendLiteral.
  destruct (negb sa); [|reflexivity].
  destruct (_ && _); destruct (String.eqb lead ""); reflexivity.
Qed.

Lemma applyTag_startDelim st special key indent sa ig st' ig' :
  startDelim st <> EmptyString ->
  applyTag st special key indent sa ig = Ok (st', ig') ->
  startDelim st' <> EmptyString.
Proof.
  intros Hsd. unfold applyTag.
  repeat match goal with
         | |- context [if Ascii.eqb special ?c then _ else _] =>
           destruct (Ascii.eqb special c)
         end;
    try (intros [= <- <-]; try destruct ig; exact Hsd).
  - destruct (below st) as [|p rest]; [discriminate|].
    destruct (negb _); [discriminate|]. intros [= <- <-]. exact Hsd.
  - destruct (splitSetDelimiterTag key) as [[sd ed]|e|] eqn:Hsplit; try discriminate.
    apply splitSetDelimiterTag_nonempty in Hsplit as [Hsd' _].
    intros [= <- <-]. exact Hsd'.
Qed.

(** The indices of the loop over the tags of a line stay in order:
    [prevEnd <= tagStart], the open delimiter at [tagStart] lies in the line,
    and [eol] is an end of line of [s]. *)
Lemma processTag_indices st s eol pe ts st' eol' pe' nxt :
  startDelim st <> EmptyString -> endDelim st <> EmptyString ->
  lineEnd s eol -> pe <= ts -> ts + String.length (startDelim st) <= eol ->
  processTag st s eol pe ts = Ok (st', eol', pe', nxt) ->
  startDelim st' <> EmptyString /\ lineEnd s eol' /\ pe' <= eol'
  /\ forall ts', nxt = Some ts' ->
       pe' <= ts' /\ ts' + String.length (startDelim st') <= eol'.
Proof.
  intros Hsd Hed Hline Hpe Hts. unfold processTag.
  destruct (cutTag s ts (startDelim st) (endDelim st)) as [[[special key] tagEnd]|e|] eqn:Hcut;
    cbn [atLine bind]; try discriminate.
  destruct (skipLines st s ts tagEnd eol) as [st1 eol1] eqn:Hskip.
  destruct (tag_within_line _ _ _ _ _ _ _ _ _ Hsd Hed Hline Hts Hcut Hskip)
    as (Hlt & Hte & Hline1).
  apply skipLines_frame in Hskip as (_ & _ & Hsd1 & _).
  destruct (checkKey (curLine st1) special key) as [[]|e|]; cbn [bind]; try discriminate.
  destruct (trailingTextOf st1 s special key tagEnd eol1) as [trailing|e|];
    cbn [atLine bind]; try discriminate.
  match goal with
  | |- context [applyTag ?a ?b ?c ?d ?e ?f] =>
    pose proof (applyTag_startDelim a b c d e f) as Happ;
      destruct (applyTag a b c d e f) as [[st2 ig]|e'|]
  end; cbn [bind]; try discriminate.
  specialize (Happ st2 ig ltac:(now rewrite startDelim_emitLeading, Hsd1) eq_refl).
  destruct ig; intros [= <- <- <- <-]; (split; [exact Happ|split; [exact Hline1|split]]);
    try lia; try discriminate.
  intros ts' Hn. unfold nextIndex in Hn. rewrite substr_0 in Hn.
  destruct (gostrings.Index (sdrop tagEnd (stake eol1 s)) (startDelim st2)) as [i|] eqn:Hi;
    [|discriminate].
  injection Hn as <-. apply Index_bounds in Hi.
  rewrite length_sdrop, length_stake in Hi. destruct Hline1 as [Hle1 _]. lia.
Qed.

(** C9: [parse] returns on every source; in a state whose close delimiter is
    not empty (the initial state is one, and a line leaves the parser in
    one) the pass over a line returns and consumes input, and the scan of
    [elementEnd] returns an index past its start or an error. *)
Theorem parse_terminates :
  (forall s, (exists tags, parse s = Ok tags) \/ (exists e, parse s = Err e))
  /\ endDelim initState <> EmptyString
  /\ (forall st s, endDelim st <> EmptyString ->
        (exists st' s', parseLine st s = Ok (st', s')
                        /\ endDelim st' <> EmptyString
                        /\ (s <> EmptyString -> String.length s' < String.length s))
        \/ (exists e, parseLine st s = Err e))
  /\ (forall name s tagEnd sd ed, ed <> EmptyString -> tagEnd <= String.length s ->
        (exists i, elementEnd name s tagEnd sd ed = Ok i /\ tagEnd < i <= String.length s)
        \/ (exists e, elementEnd name s tagEnd sd ed = Err e)).
Proof.
  split; [|split; [discriminate|split]].
  - intros s. pose proof (parse_total s) as H.
    destruct (parse s) as [tags|e|]; [left|right|congruence]; eauto.
  - intros st s Hed. destruct (parseLine_props st s Hed) as [Hne Hok].
    destruct (parseLine st s) as [[st' s']|e|]; [left|right; eauto|congruence].
    exists st', s'. split; [reflexivity|]. now apply Hok.
  - intros name s tagEnd sd ed Hed Hle.
    destruct (elementEnd_bounds name s tagEnd sd ed Hed) as [(i & Hi & Hb)|[e He]];
      [left|right; eauto].
    exists i. split; [exact Hi|]. lia.
Qed.

(** The source ["a{{b}}"], its only line, and the scan for the end of the
    block opened in ["{{$a}}x{{/a}}"]. *)
Lemma parse_terminates_witness :
  ((exists tags, parse "a{{b}}" = Ok tags) \/ (exists e, parse "a{{b}}" = Err e))
  /\ ((exists st' s', parseLine initState "a{{b}}" = Ok (st', s')
                      /\ endDelim st' <> EmptyString
                      /\ ("a{{b}}" <> EmptyString -> String.length s' < String.length "a{{b}}"))
      \/ (exists e, parseLine initState "a{{b}}" = Err e))
  /\ ((exists i, elementEnd "a" "{{$a}}x{{/a}}" 6 "{{" "}}" = Ok i
                 /\ 6 < i <= String.length "{{$a}}x{{/a}}")
      \/ (exists e, elementEnd "a" "{{$a}}x{{/a}}" 6 "{{" "}}" = Err e)).
Proof.
  destruct parse_terminates as (H1 & H2 & H3 & H4).
  split; [apply H1|split].
  - apply H3. exact H2.
  - apply H4; [discriminate|simpl; lia].
Defined.

(** ** Standalone lines *)










(** ** Standalone pairs *)





(** ** Balanced scopes *)


Lemma openNames_appendTag st t : openNames (appendTag st t) = openNames st.
Proof. reflexivity. Qed.



Lemma openNames_newScope st t : openNames (newScope st t) = tag_s t :: openNames st.
Proof. reflexivity. Qed.

Lemma openNames_nil st : openNames st = [] <-> below st = [].
Proof.
  unfold openNames. cbn [namesOf]. destruct (below st); split; intros; congruence.
Qed.












(** The stream of ["{{#a}}{{/b}}"] has a close tag of the wrong name, and
    that of ["{{#a}}x"] an unmatched open tag. *)
Example tagStream_examples :
  tagStream "{{#a}}{{/b}}" = [EvOpen "a"; EvClose "b"]
  /\ parse "{{#a}}{{/b}}" = Err (AtLine 1 (Mismatched "{{" "b" "}}" "a" 1))
  /\ tagStream "{{#a}}x" = [EvOpen "a"]
  /\ parse "{{#a}}x" = Err (AtLine 1 (Unclosed "a"))
  /\ tagStream "{{#a}}{{$b}}{{/b}}{{/a}}" = [EvOpen "a"; EvOpen "b"; EvClose "b"; EvClose "a"]
  /\ balanced (tagStream "{{#a}}{{$b}}{{/b}}{{/a}}") = true.
Proof. repeat split. Qed.


(** ** The partial resolver *)

Lemma tagsEqual_unfold ty1 s1 i1 b1 ty2 s2 i2 b2 :
  tagsEqual (mkTag ty1 s1 i1 b1) (mkTag ty2 s2 i2 b2) =
  if negb (tagType_eqb ty1 ty2) || negb (String.eqb s1 s2) || negb (String.eqb i1 i2)
  then false else tagListsEqual b1 b2.
Proof. reflexivity. Qed.

Lemma tagListsEqual_Forall b :
  Forall (fun t1 => forall t2, tagsEqual t1 t2 = true <-> t1 = t2) b ->
  forall b2, tagListsEqual b b2 = true <-> b = b2.
Proof.
  induction 1 as [|x l Hx Hl IH]; intros [|y l2]; cbn [tagListsEqual];
    try (split; congruence).
  rewrite andb_true_iff, Hx, IH. split; [intros [-> ->]; reflexivity|].
  intros [= -> ->]. auto.
Qed.

(** [tagsEqual] is structural equality. *)
Lemma tagsEqual_eq t1 : forall t2, tagsEqual t1 t2 = true <-> t1 = t2.
Proof.
  induction t1 as [ty1 s1 i1 b1 IH] using tag_induction. intros [ty2 s2 i2 b2].
  rewrite tagsEqual_unfold. unfold tagType_eqb.
  destruct (bool_decide (ty1 = ty2)) eqn:Hty; cbn [negb orb].
  2:{ apply bool_decide_eq_false in Hty. split; [discriminate|]. intros [= -> _ _ _]. easy. }
  apply bool_decide_eq_true in Hty. subst ty2.
  destruct (String.eqb s1 s2) eqn:Hs; cbn [negb orb].
  2:{ apply String.eqb_neq in Hs. split; [discriminate|]. intros [= -> _ _]. easy. }
  apply String.eqb_eq in Hs. subst s2.
  destruct (String.eqb i1 i2) eqn:Hi; cbn [negb orb].
  2:{ apply String.eqb_neq in Hi. split; [discriminate|]. intros [= -> _]. easy. }
  apply String.eqb_eq in Hi. subst i2.
  rewrite (tagListsEqual_Forall b1 IH b2). split; [intros ->; reflexivity|].
  now intros [= ->].
Qed.

Lemma tagListsEqual_eq b1 b2 : tagListsEqual b1 b2 = true <-> b1 = b2.
Proof.
  apply tagListsEqual_Forall. apply Forall_forall. intros t _. apply tagsEqual_eq.
Qed.

Lemma indexOfTree_Some ps t i : indexOfTree ps t = Some i -> ps !! i = Some t.
Proof.
  revert i; induction ps as [|p ps IH]; intros i; cbn [indexOfTree]; [discriminate|].
  destruct (tagListsEqual t p) eqn:E.
  - intros [= <-]. apply tagListsEqual_eq in E. now subst.
  - destruct (indexOfTree ps t) as [j|]; [|discriminate].
    intros [= <-]. cbn. auto.
Qed.

Lemma indexOfTree_None ps t : indexOfTree ps t = None -> t ∉ ps.
Proof.
  induction ps as [|p ps IH]; cbn [indexOfTree]; [intros _; apply not_elem_of_nil|].
  destruct (tagListsEqual t p) eqn:E; [discriminate|].
  destruct (indexOfTree ps t) as [j|] eqn:Ej; [discriminate|].
  intros _. apply not_elem_of_cons. split; [|auto].
  intros ->. assert (tagListsEqual p p = true) by now apply tagListsEqual_eq. congruence.
Qed.

Lemma internTree_spec ps t ps' i :
  internTree ps t = (ps', i) ->
  ps' !! i = Some t
  /\ (NoDup ps -> NoDup ps')
  /\ (forall j x, ps !! j = Some x -> ps' !! j = Some x).
Proof.
  unfold internTree. destruct (indexOfTree ps t) as [j|] eqn:E; intros [= <- <-].
  - apply indexOfTree_Some in E. auto.
  - apply indexOfTree_None in E. repeat split.
    + rewrite lookup_app_r by lia. now rewrite Nat.sub_diag.
    + intros Hnd. apply NoDup_app. repeat split; auto.
      * intros x Hx Hx'. apply list_elem_of_singleton in Hx'. now subst.
      * apply NoDup_singleton.
    + intros j x Hj. rewrite lookup_app_l; auto. now apply lookup_lt_Some in Hj.
Qed.

Section WalkerFacts.

Context {R : Type}.

Lemma gatherWalk_nil (known : tag -> R -> bool) register fuel r :
  gatherWalk known register fuel [] r = Ok r.
Proof. destruct fuel; reflexivity. Qed.

Lemma gatherWalk_cons (known : tag -> R -> bool) register fuel t ts r :
  gatherWalk known register fuel (t :: ts) r =
  if isReference t then
    if known t r then gatherWalk known register fuel ts r
    else
      let* (r1, partialTags) := register t r in
      match fuel with
      | 0 => OutOfFuel
      | S fuel' =>
        let* r2 := gatherWalk known register fuel' (walkTags partialTags) r1 in
        gatherWalk known register fuel ts r2
      end
  else gatherWalk known register fuel ts r.
Proof.
  destruct fuel; cbn [gatherWalk]; destruct (isReference t); try reflexivity;
    destruct (known t r); try reflexivity;
    destruct (register t r) as [[r1 pt]| |]; reflexivity.
Qed.

(** The walk depends on [known] and [register] through their values only. *)
Lemma gatherWalk_ext (known known' : tag -> R -> bool) register register' :
  (forall t r, known t r = known' t r) ->
  (forall t r, register t r = register' t r) ->
  forall fuel ts r,
    gatherWalk known register fuel ts r = gatherWalk known' register' fuel ts r.
Proof.
  intros Hk Hr. induction fuel as [|fuel IHf]; induction ts as [|t ts IHt]; intros r;
    rewrite ?gatherWalk_nil, ?gatherWalk_cons; try reflexivity;
    rewrite Hk, Hr, ?IHt;
    destruct (isReference t); auto; destruct (known' t r); auto;
    destruct (register' t r) as [[r1 pt]| |]; cbn [bind]; auto.
  rewrite IHf. destruct (gatherWalk known' register' fuel (walkTags pt) r1); cbn [bind]; auto.
Qed.

End WalkerFacts.

Section GenericFacts.

Context {K : Type} `{Countable K}.
Variable keyOf : tag -> K.
Variable prep : tag -> string -> string.
Variable fmtName : nat -> string.
Variable load : string -> loadResult.
Variable nameOf : K -> string.
Variable textOf : K -> string -> string.

Hypothesis key_name : forall t, nameOf (keyOf t) = tag_s t.
Hypothesis key_text : forall t source, textOf (keyOf t) source = prep t source.
Hypothesis fmt_nonempty : forall i, fmtName i <> EmptyString.

Let Inv := resolverInv fmtName load nameOf textOf.
Let walk := gatherWalk (knownG keyOf) (registerG keyOf prep fmtName load).

Lemma resolverInit_inv : Inv resolverInit.
Proof.
  repeat split; cbn.
  - apply NoDup_nil_2.
  - intros k f Hk. now rewrite lookup_empty in Hk.
  - apply NoDup_nil_2.
  - intros Hk. now apply elem_of_nil in Hk.
  - intros [f Hf]. now rewrite lookup_empty in Hf.
Qed.

Lemma knownG_spec r t :
  Inv r -> knownG keyOf t r = true <-> is_Some (partialFuncNames r !! keyOf t).
Proof.
  intros (_ & Hnames & _). unfold knownG, mapGet.
  destruct (partialFuncNames r !! keyOf t) as [f|] eqn:E; cbn.
  - destruct (Hnames _ _ E) as (i & tree & -> & _).
    destruct (String.eqb (fmtName i) "") eqn:Ef.
    + apply String.eqb_eq in Ef. now apply fmt_nonempty in Ef.
    + split; eauto.
  - split; [discriminate|]. intros [f Hf]. discriminate.
Qed.

Lemma registerG_spec r t r' tree :
  Inv r -> partialFuncNames r !! keyOf t = None ->
  registerG keyOf prep fmtName load t r = Ok (r', tree) ->
  Inv r'
  /\ treeOfKey load nameOf textOf (keyOf t) = Some tree
  /\ (exists f, partialFuncNames r' = <[keyOf t := f]> (partialFuncNames r))
  /\ parses r' = parses r ++ [keyOf t].
Proof.
  intros (Hnd & Hnames & Hndp & Hdom & Hloads) Hnew. unfold registerG.
  destruct (load (tag_s t)) as [source|msg] eqn:Hload; [|discriminate].
  destruct (parse (prep t source)) as [partialTags|e|] eqn:Hparse; try discriminate.
  cbn [logLoad logParse partials partialFuncNames loads parses].
  destruct (internTree (partials r) partialTags) as [ps i] eqn:Hin.
  intros [= <- <-].
  apply internTree_spec in Hin as (Hi & Hnd' & Hkeep).
  assert (Htree : treeOfKey load nameOf textOf (keyOf t) = Some partialTags).
  { unfold treeOfKey. now rewrite key_name, Hload, key_text, Hparse. }
  split; [|split; [exact Htree|split; [eauto|reflexivity]]].
  repeat split; cbn [partials partialFuncNames loads parses].
  - auto.
  - intros k f. destruct (decide (keyOf t = k)) as [<-|Hne].
    + rewrite lookup_insert_eq. intros [= <-]. eauto.
    + rewrite lookup_insert_ne by exact Hne. intros Hk.
      destruct (Hnames _ _ Hk) as (j & tr & -> & Hj & Htr). eauto 6.
  - apply NoDup_app. repeat split; auto.
    + intros k Hk Hk'. apply list_elem_of_singleton in Hk'. subst k.
      apply Hdom in Hk. rewrite Hnew in Hk. now destruct Hk.
    + apply NoDup_singleton.
  - intros Hk. apply elem_of_app in Hk as [Hk|Hk].
    + apply Hdom in Hk. destruct (decide (keyOf t = k)) as [<-|Hne];
        [rewrite lookup_insert_eq; eauto|now rewrite lookup_insert_ne].
    + apply list_elem_of_singleton in Hk. subst k. rewrite lookup_insert_eq; eauto.
  - intros Hk. apply elem_of_app. destruct (decide (keyOf t = k)) as [<-|Hne].
    + right. apply list_elem_of_singleton. reflexivity.
    + left. apply Hdom. now rewrite lookup_insert_ne in Hk.
  - rewrite map_app, Hloads. cbn [map]. now rewrite key_name.
Qed.

Lemma resolved_weaken ts (r r' : resolver K) :
  partialFuncNames r ⊆ partialFuncNames r' -> resolved keyOf ts r -> resolved keyOf ts r'.
Proof.
  intros Hsub Hres t Ht Href. destruct (Hres t Ht Href) as [f Hf].
  exists f. eapply lookup_weaken; eauto.
Qed.

(** The walk keeps the invariant, only adds function names, resolves the
    references it visits and those of the partials it registers, and calls
    [parse] first for the first reference it does not know. *)
Lemma walk_spec fuel : forall ts r r',
  Inv r -> walk fuel ts r = Ok r' ->
  Inv r'
  /\ partialFuncNames r ⊆ partialFuncNames r'
  /\ resolved keyOf ts r'
  /\ closedFrom keyOf load nameOf textOf r r'
  /\ exists new, parses r' = parses r ++ new /\ head new = firstUnknown keyOf ts r.
Proof.
  induction fuel as [fuel IHf] using lt_wf_ind.
  induction ts as [|t ts IHt]; intros r r' Hinv Hrun; unfold walk in Hrun.
  - rewrite gatherWalk_nil in Hrun. injection Hrun as <-.
    split; [exact Hinv|split; [reflexivity|split; [|split]]].
    + intros t Ht. now apply elem_of_nil in Ht.
    + intros k tree Hk [f Hf]. congruence.
    + exists []. now rewrite app_nil_r.
  - rewrite gatherWalk_cons in Hrun. cbn [firstUnknown].
    destruct (isReference t) eqn:Href.
    2:{ destruct (IHt _ _ Hinv Hrun) as (Hinv' & Hsub & Hres & Hcl & Hnew).
        split; [exact Hinv'|split; [exact Hsub|split; [|split; [exact Hcl|exact Hnew]]]].
        intros u Hu Hu'. apply elem_of_cons in Hu as [->|Hu]; [congruence|auto]. }
    destruct (knownG keyOf t r) eqn:Hknown.
    { destruct (IHt _ _ Hinv Hrun) as (Hinv' & Hsub & Hres & Hcl & Hnew).
      split; [exact Hinv'|split; [exact Hsub|split; [|split; [exact Hcl|exact Hnew]]]].
      intros u Hu Hu'. apply elem_of_cons in Hu as [->|Hu]; [|auto].
      apply (knownG_spec _ _ Hinv) in Hknown as [f Hf].
      exists f. eapply lookup_weaken; eauto. }
    assert (Hnone : partialFuncNames r !! keyOf t = None).
    { destruct (partialFuncNames r !! keyOf t) eqn:E; [|reflexivity].
      assert (knownG keyOf t r = true) by (apply knownG_spec; eauto). congruence. }
    destruct (registerG keyOf prep fmtName load t r) as [[r1 tree]|e|] eqn:Hreg;
      cbn [bind] in Hrun; try discriminate.
    destruct fuel as [|fuel']; [discriminate|].
    destruct (gatherWalk _ _ fuel' (walkTags tree) r1) as [r2|e|] eqn:Hrec;
      cbn [bind] in Hrun; try discriminate.
    destruct (registerG_spec _ _ _ _ Hinv Hnone Hreg) as (Hinv1 & Htree & [f Hf] & Hp1).
    destruct (IHf fuel' ltac:(lia) _ _ _ Hinv1 Hrec)
      as (Hinv2 & Hsub2 & Hres2 & Hcl2 & new1 & Hp2 & _).
    destruct (IHt _ _ Hinv2 Hrun) as (Hinv' & Hsub' & Hres' & Hcl' & new2 & Hp' & _).
    assert (Hsub1 : partialFuncNames r ⊆ partialFuncNames r1).
    { rewrite Hf. now apply insert_subseteq. }
    split; [exact Hinv'|split; [|split; [|split]]].
    + etransitivity; [exact Hsub1|]. etransitivity; eauto.
    + intros u Hu Hu'. apply elem_of_cons in Hu as [->|Hu]; [|auto].
      exists f. eapply lookup_weaken; [|exact Hsub'].
      eapply lookup_weaken; [|exact Hsub2]. rewrite Hf. apply lookup_insert_eq.
    + intros k tr Hk Hk' Htr.
      destruct (partialFuncNames r2 !! k) as [f2|] eqn:Hk2; [|now apply (Hcl' k tr)].
      apply (resolved_weaken _ r2); [exact Hsub'|].
      destruct (decide (keyOf t = k)) as [<-|Hne].
      * rewrite Htree in Htr. injection Htr as <-. exact Hres2.
      * apply (Hcl2 k tr); eauto. rewrite Hf. now rewrite lookup_insert_ne.
    + exists (keyOf t :: new1 ++ new2). split.
      * rewrite Hp', Hp2, Hp1. now rewrite <- !app_assoc.
      * reflexivity.
Qed.

End GenericFacts.

Lemma firstUnknown_init {K : Type} `{Countable K} (keyOf : tag -> K) ts :
  firstUnknown keyOf ts resolverInit = head (map keyOf (references ts)).
Proof.
  induction ts as [|t ts IH]; [reflexivity|].
  cbn [firstUnknown references List.filter].
  destruct (isReference t); [reflexivity|exact IH].
Qed.


Lemma goFuncName_nonempty templateName i : goFuncName templateName i <> EmptyString.
Proof. discriminate. Qed.

Lemma jsFuncName_nonempty i : jsFuncName i <> EmptyString.
Proof. discriminate. Qed.

Lemma gatherPartialsGo_generic fuel load templateName tags r :
  gatherPartialsGo fuel load templateName tags r =
  gatherWalk (knownG tag_s) (registerG tag_s (fun _ source => source)
                               (goFuncName templateName) load)
    fuel (walkTags tags) r.
Proof. apply gatherWalk_ext; reflexivity. Qed.

Lemma gatherPartialsJS_generic fuel load tags r :
  gatherPartialsJS fuel load tags r =
  gatherWalk (knownG keyJS) (registerG keyJS (fun t source => indent source (tag_indent t))
                               jsFuncName load)
    fuel (walkTags tags) r.
Proof.
  apply gatherWalk_ext; [reflexivity|].
  intros t r0. unfold registerJS, registerG, sourceCache. rewrite lookup_empty.
  destruct (load (tag_s t)); reflexivity.
Qed.








(** ** Determinism *)



Section GeneratorFacts.

Variable JSEscape : string -> string.
Variable prelude : string.
Variable quote : string -> string.
Variable gofmtSource : string -> option string.
Variable ToUpper : N -> N.
Variable indentArgument : tag -> bool.
Variable condenseLiteralsWithoutIndentation : list tag -> tag * nat.









End GeneratorFacts.


(** ** Sections at run time *)

Import mustache.





(** ** The runtime package: dereferencing, lookup and iteration *)

Lemma resolve_shape : forall v,
  match resolve v with
  | VPointer (Some _) | VInterface (Some _) => False
  | _ => True
  end.
Proof.
  fix IH 1. intros [ | b | s | f | i | u | l | [x|] | [x|] | fields | sk entries | ];
    cbn [resolve]; auto; apply IH.
Qed.

Lemma resolve_resolve v : resolve (resolve v) = resolve v.
Proof.
  pose proof (resolve_shape v) as Hs.
  destruct (resolve v) as [ | b | s | f | i | u | l | [x|] | [x|] | fields | sk entries | ];
    cbn [resolve]; auto; contradiction.
Qed.

Lemma IsFalsyOrEmptyList_resolve v :
  IsFalsyOrEmptyList (resolve v) = IsFalsyOrEmptyList v.
Proof. unfold IsFalsyOrEmptyList. now rewrite resolve_resolve. Qed.

(** X1: [resolve] returns a value that is not a non-nil pointer or interface,
    resolving it again changes nothing, and [property], [IsFalsyOrEmptyList]
    and [ForEach] see a value only through [resolve]: a pointer to a value, or
    an interface holding it, behaves as the value itself. *)
Theorem resolve_transparent (v : value) (k : string) :
  resolve (resolve v) = resolve v
  /\ (forall x, resolve v <> VPointer (Some x) /\ resolve v <> VInterface (Some x))
  /\ property (VPointer (Some v)) k = property v k
  /\ property (VInterface (Some v)) k = property v k
  /\ IsFalsyOrEmptyList (VPointer (Some v)) = IsFalsyOrEmptyList v
  /\ IsFalsyOrEmptyList (VInterface (Some v)) = IsFalsyOrEmptyList v
  /\ ForEach (VPointer (Some v)) = ForEach v
  /\ ForEach (VInterface (Some v)) = ForEach v.
Proof.
  split; [apply resolve_resolve|]. split; [|repeat split].
  intros x. pose proof (resolve_shape v) as Hs.
  split; intros E; rewrite E in Hs; exact Hs.
Qed.

(** X2: for every value exactly one of a section and an inverted section
    runs: [ForEach] yields nothing exactly when [IsFalsyOrEmptyList] holds;
    otherwise it yields the elements of a list, which is then not empty, or
    the dereferenced value itself. *)
Theorem section_or_inverted (v : value) :
  (ForEach v = [] <-> IsFalsyOrEmptyList v = true)
  /\ (IsFalsyOrEmptyList v = false ->
      match resolve v with
      | VList l => l <> [] /\ ForEach v = l
      | w => ForEach v = [w]
      end).
Proof.
  unfold ForEach. cbv zeta. rewrite IsFalsyOrEmptyList_resolve.
  destruct (IsFalsyOrEmptyList v) eqn:E; cbn [negb].
  - split; [split; auto|discriminate].
  - unfold IsFalsyOrEmptyList in E. split.
    + split; [|discriminate].
      destruct (resolve v) as [ | b | s | f | i | u | [|x l] | p | p | fields | sk entries | ];
        try discriminate.
    + intros _.
      destruct (resolve v) as [ | b | s | f | i | u | [|x l] | p | p | fields | sk entries | ];
        try discriminate; auto.
Qed.

Lemma splitFrom_nonempty sep : forall s cur, splitFrom sep cur s <> [].
Proof.
  induction s as [|c s IH]; intros cur; cbn [splitFrom]; [discriminate|].
  destruct (Ascii.eqb c sep); [discriminate|apply IH].
Qed.

(** The parts of a string that does not hold the separator. *)
Lemma splitFrom_single sep : forall k cur,
  (forall p, p < String.length k -> byteAt k p <> sep) ->
  splitFrom sep cur k = [cur +:+ k].
Proof.
  induction k as [|c k IH]; intros cur Hno; cbn [splitFrom].
  - now rewrite append_nil_r.
  - destruct (Ascii.eqb c sep) eqn:E.
    + apply Ascii.eqb_eq in E. exfalso. apply (Hno 0); [simpl; lia|exact E].
    + rewrite IH.
      * now rewrite append_assoc, append_cons, append_nil_l.
      * intros p Hp. apply (Hno (S p)). simpl. lia.
Qed.

Lemma splitFrom_snoc sep k :
  (forall p, p < String.length k -> byteAt k p <> sep) ->
  forall a cur, splitFrom sep cur (a +:+ String sep k) = splitFrom sep cur a ++ [k].
Proof.
  intros Hno. induction a as [|c a IH]; intros cur.
  - rewrite append_nil_l. cbn [splitFrom]. rewrite Ascii.eqb_refl.
    now rewrite (splitFrom_single sep k EmptyString Hno).
  - rewrite append_cons. cbn [splitFrom]. destruct (Ascii.eqb c sep).
    + now rewrite IH.
    + apply IH.
Qed.

(** X3: the first part of a path is looked up from the innermost context
    outwards: a context that has it shadows the contexts below it, and the
    other parts are then looked up in the value found there only. *)
Theorem Lookup_innermost_first (stack : list value) (c : value) (path first : string)
    (parts : list string) :
  path <> "." ->
  splitFrom "." EmptyString path = first :: parts ->
  Lookup (stack ++ [c]) path =
  if IsValid (property c first) then fold_left property parts (property c first)
  else Lookup stack path.
Proof.
  intros Hdot Hsplit. unfold Lookup.
  destruct (String.eqb path ".") eqn:E; [now apply String.eqb_eq in E|].
  rewrite Hsplit, rev_app_distr. cbn [rev app lookupFirst].
  destruct (IsValid (property c first)); reflexivity.
Qed.

Lemma Lookup_innermost_first_witness :
  let outer := VMap true [("a", VString "outer"); ("b", VString "b")] in
  let inner := VMap true [("a", VString "inner")] in
  Lookup ([outer] ++ [inner]) "a" = VString "inner"
  /\ Lookup ([outer] ++ [inner]) "b" = VString "b".
Proof.
  intros outer inner. split.
  - exact (Lookup_innermost_first [outer] inner "a" "a" [] ltac:(discriminate) eq_refl).
  - exact (Lookup_innermost_first [outer] inner "b" "b" [] ltac:(discriminate) eq_refl).
Defined.

(** X4: a dotted name is resolved part by part: the value of [p.k] is the
    property [k] of the value of [p], with no second search of the context
    stack when [k] is missing there. *)
Theorem Lookup_dotted (stack : list value) (p k : string) :
  p <> "." -> p +:+ String "." k <> "." ->
  (forall i, i < String.length k -> byteAt k i <> "."%char) ->
  Lookup stack (p +:+ String "." k) = property (Lookup stack p) k.
Proof.
  intros Hp Hpk Hk. unfold Lookup.
  destruct (String.eqb p ".") eqn:E1; [now apply String.eqb_eq in E1|].
  destruct (String.eqb (p +:+ String "." k) ".") eqn:E2; [now apply String.eqb_eq in E2|].
  rewrite (splitFrom_snoc "." k Hk).
  pose proof (splitFrom_nonempty "." p EmptyString) as Hne.
  destruct (splitFrom "." EmptyString p) as [|first parts]; [congruence|].
  cbn [app]. now rewrite fold_left_app.
Qed.

(** The inner context has [a] but [a] has no [b]: the [a.b] of the outer
    context is not found. *)
Lemma Lookup_dotted_witness :
  let outer := VMap true [("a", VMap true [("b", VString "x")])] in
  let inner := VMap true [("a", VMap true [("c", VString "y")])] in
  Lookup [outer; inner] "a.b" = Invalid
  /\ Lookup [outer; inner] "a.c" = VString "y".
Proof.
  intros outer inner. split.
  - refine (eq_trans (Lookup_dotted [outer; inner] "a" "b" _ _ _) _);
      [discriminate|discriminate| |reflexivity].
    intros [|i] Hi; [discriminate|simpl in Hi; lia].
  - refine (eq_trans (Lookup_dotted [outer; inner] "a" "c" _ _ _) _);
      [discriminate|discriminate| |reflexivity].
    intros [|i] Hi; [discriminate|simpl in Hi; lia].
Defined.

(** ** Runes and the functions of the [strings] package over them *)

Lemma Decode_size_pos c r : 1 <= snd (utf8.DecodeRuneInString (String c r)).
Proof.
  unfold utf8.DecodeRuneInString.
  repeat match goal with
         | |- context [if ?b then _ else _] => destruct b
         | |- context [match ?x with EmptyString => _ | String _ _ => _ end] => destruct x
         end; cbn [snd]; lia.
Qed.

(** A rune decodes the same in a prefix of the string that holds all its
    bytes. *)
Lemma Decode_stake n s :
  snd (utf8.DecodeRuneInString s) <= n ->
  utf8.DecodeRuneInString (stake n s) = utf8.DecodeRuneInString s.
Proof.
  destruct s as [|c0 r]; [destruct n; reflexivity|].
  destruct n as [|n]; [pose proof (Decode_size_pos c0 r); lia|].
  cbn [stake]. unfold utf8.DecodeRuneInString.
  destruct (N_of_ascii c0 <? 128)%N; [reflexivity|].
  destruct (N_of_ascii c0 <? 194)%N; [reflexivity|].
  destruct r as [|c1 r]; [destruct n; reflexivity|].
  destruct n as [|n]; cbn [stake];
    [repeat match goal with
            | |- context [if ?b then _ else _] => destruct b
            | |- context [match ?x with EmptyString => _ | String _ _ => _ end] => destruct x
            end; cbn [snd]; intros; try reflexivity; lia|].
  destruct (N_of_ascii c0 <? 224)%N; [reflexivity|].
  destruct r as [|c2 r]; [destruct n; reflexivity|].
  destruct n as [|n]; cbn [stake];
    [repeat match goal with
            | |- context [if ?b then _ else _] => destruct b
            | |- context [match ?x with EmptyString => _ | String _ _ => _ end] => destruct x
            end; cbn [snd]; intros; try reflexivity; lia|].
  destruct (N_of_ascii c0 <? 240)%N; [reflexivity|].
  destruct r as [|c3 r]; [destruct n; reflexivity|].
  destruct n as [|n]; cbn [stake];
    [repeat match goal with
            | |- context [if ?b then _ else _] => destruct b
            | |- context [match ?x with EmptyString => _ | String _ _ => _ end] => destruct x
            end; cbn [snd]; intros; try reflexivity; lia|].
  reflexivity.
Qed.

Lemma IndexFuncFrom_skip f skip pos s i :
  gostrings.IndexFuncFrom f skip pos s = Some i -> pos + skip <= i.
Proof.
  revert skip pos; induction s as [|c s IH]; intros skip pos; [discriminate|].
  cbn [gostrings.IndexFuncFrom]. destruct skip as [|k].
  - destruct (utf8.DecodeRuneInString (String c s)) as [r size] eqn:D.
    destruct (f r); [intros [= <-]; lia|].
    intros H. apply IH in H. lia.
  - intros H. apply IH in H. lia.
Qed.

(** Before the index that [IndexFunc] returns no rune satisfies [f]. *)
Lemma IndexFuncFrom_stake f : forall s skip pos i,
  gostrings.IndexFuncFrom f skip pos s = Some (pos + i) ->
  gostrings.IndexFuncFrom f skip pos (stake i s) = None.
Proof.
  induction s as [|c s IH]; intros skip pos i; [discriminate|].
  destruct i as [|i]; [reflexivity|].
  cbn [stake gostrings.IndexFuncFrom]. destruct skip as [|k].
  - destruct (utf8.DecodeRuneInString (String c s)) as [r size] eqn:D.
    destruct (f r) eqn:Hf; [intros [= E]; lia|].
    intros H. pose proof (IndexFuncFrom_skip _ _ _ _ _ H) as Hsk.
    pose proof (Decode_size_pos c s) as Hpos. rewrite D in Hpos. cbn [snd] in Hpos.
    change (String c (stake i s)) with (stake (S i) (String c s)).
    rewrite Decode_stake by (rewrite D; cbn [snd]; lia).
    rewrite D, Hf. apply IH. rewrite H. f_equal. lia.
  - intros H. apply IH. rewrite H. f_equal. lia.
Qed.

Lemma IndexFunc_stake f s i :
  gostrings.IndexFunc s f = Some i -> gostrings.IndexFunc (stake i s) f = None.
Proof. intros H. apply (IndexFuncFrom_stake f s 0 0 i). exact H. Qed.

(** At the index that [IndexFunc] returns a rune that satisfies [f] starts. *)
Lemma IndexFuncFrom_at f : forall s skip pos i,
  gostrings.IndexFuncFrom f skip pos s = Some (pos + i) ->
  f (fst (utf8.DecodeRuneInString (sdrop i s))) = true.
Proof.
  induction s as [|c s IH]; intros skip pos i; [discriminate|].
  cbn [gostrings.IndexFuncFrom]. destruct skip as [|k].
  - destruct (utf8.DecodeRuneInString (String c s)) as [r size] eqn:D.
    destruct (f r) eqn:Hf.
    + intros [= E]. assert (i = 0) by lia. subst i. cbn [sdrop]. now rewrite D.
    + intros H. pose proof (IndexFuncFrom_bounds _ _ _ _ _ H).
      destruct i as [|i]; [lia|]. cbn [sdrop]. apply (IH (size - 1) (S pos)).
      rewrite H. f_equal. lia.
  - intros H. pose proof (IndexFuncFrom_bounds _ _ _ _ _ H).
    destruct i as [|i]; [lia|]. cbn [sdrop]. apply (IH k (S pos)).
    rewrite H. f_equal. lia.
Qed.

Lemma IndexFunc_at f s i :
  gostrings.IndexFunc s f = Some i ->
  f (fst (utf8.DecodeRuneInString (sdrop i s))) = true.
Proof. intros H. apply (IndexFuncFrom_at f s 0 0 i). exact H. Qed.

(** No rune satisfies a stronger predicate either. *)
Lemma IndexFuncFrom_None_impl (f g : N -> bool) :
  (forall r, g r = true -> f r = true) ->
  forall s skip pos, gostrings.IndexFuncFrom f skip pos s = None ->
    gostrings.IndexFuncFrom g skip pos s = None.
Proof.
  intros Himp. induction s as [|c s IH]; intros skip pos; [reflexivity|].
  cbn [gostrings.IndexFuncFrom]. destruct skip as [|k]; [|apply IH].
  destruct (utf8.DecodeRuneInString (String c s)) as [r size].
  destruct (f r) eqn:Hf; [discriminate|].
  destruct (g r) eqn:Hg; [rewrite (Himp r Hg) in Hf; discriminate|apply IH].
Qed.

Lemma Zs_IsSpace r :
  negb (unicode.IsSpace r) = true -> negb (unicode.IsZs r) && negb (r =? 9)%N = true.
Proof.
  unfold unicode.IsSpace, unicode.IsZs. intros H.
  apply negb_true_iff in H. apply andb_true_iff. split; apply negb_true_iff.
  - repeat match goal with
           | H : (_ || _) = false |- _ => apply orb_false_iff in H as [? ?]
           end.
    repeat (apply orb_false_iff; split); assumption.
  - apply N.eqb_neq. intros ->. discriminate.
Qed.

(** ** The helpers of the lexer *)

Lemma Index_Some_spec sub : forall s i,
  gostrings.Index s sub = Some i ->
  gostrings.HasPrefix (sdrop i s) sub = true
  /\ forall j, j < i -> gostrings.HasPrefix (sdrop j s) sub = false.
Proof.
  induction s as [|c s IH]; intros i; cbn [gostrings.Index].
  - destruct (gostrings.HasPrefix EmptyString sub) eqn:E; [|discriminate].
    intros [= <-]. split; [exact E|]. intros j Hj. lia.
  - destruct (gostrings.HasPrefix (String c s) sub) eqn:E.
    + intros [= <-]. split; [exact E|]. intros j Hj. lia.
    + destruct (gostrings.Index s sub) as [k|]; [|discriminate].
      intros [= <-]. destruct (IH k eq_refl) as [H1 H2]. split; [exact H1|].
      intros [|j] Hj; [exact E|]. cbn [sdrop]. apply H2. lia.
Qed.

Lemma Index_None_spec sub : forall s j,
  gostrings.Index s sub = None -> gostrings.HasPrefix (sdrop j s) sub = false.
Proof.
  induction s as [|c s IH]; intros j H.
  - apply Index_nil_None in H. now destruct j.
  - apply Index_cons_None in H as [H1 H2]. destruct j as [|j]; [exact H1|].
    cbn [sdrop]. now apply IH.
Qed.

(** X5: [nextIndex] returns the index of the first occurrence of [substr] at
    or after [start], and -1 when there is none; [nextIndexFunc] returns the
    index of the first rune at or after [start] that satisfies [f]. *)
Theorem nextIndex_first (s : string) (start : nat) (sub : string) (f : N -> bool) :
  start <= String.length s ->
  match nextIndex s start sub with
  | Some i =>
    start <= i /\ i + String.length sub <= String.length s
    /\ substr s i (i + String.length sub) = sub
    /\ forall j, start <= j < i -> gostrings.HasPrefix (sdrop j s) sub = false
  | None => forall j, start <= j -> gostrings.HasPrefix (sdrop j s) sub = false
  end
  /\ match nextIndexFunc s start f with
     | Some i =>
       start <= i < String.length s
       /\ f (fst (utf8.DecodeRuneInString (sdrop i s))) = true
       /\ gostrings.IndexFunc (substr s start i) f = None
     | None => gostrings.IndexFunc (sdrop start s) f = None
     end.
Proof.
  intros Hstart. split.
  - unfold nextIndex. destruct (gostrings.Index (sdrop start s) sub) as [i|] eqn:E.
    + pose proof (Index_bounds _ _ _ E) as Hb. rewrite length_sdrop in Hb.
      destruct (Index_Some_spec _ _ _ E) as [Hp Hno]. rewrite sdrop_sdrop in Hp.
      split; [lia|]. split; [lia|]. split.
      * unfold substr. replace (start + i + String.length sub - (start + i))
          with (String.length sub) by lia.
        clear -Hp. revert Hp. generalize (sdrop (start + i) s). intros r.
        revert r. induction sub as [|a sub IH]; intros [|b r]; cbn; try discriminate; auto.
        intros H. apply andb_true_iff in H as [H1 H2]. apply Ascii.eqb_eq in H1.
        subst b. f_equal. now apply IH.
      * intros j Hj. specialize (Hno (j - start) ltac:(lia)).
        rewrite sdrop_sdrop in Hno. now replace (start + (j - start)) with j in Hno by lia.
    + intros j Hj. pose proof (Index_None_spec sub _ (j - start) E) as Hno.
      rewrite sdrop_sdrop in Hno. now replace (start + (j - start)) with j in Hno by lia.
  - unfold nextIndexFunc. destruct (gostrings.IndexFunc (sdrop start s) f) as [i|] eqn:E;
      [|reflexivity].
    pose proof (IndexFunc_lt _ _ _ E) as Hb. rewrite length_sdrop in Hb.
    split; [lia|]. split.
    + apply IndexFunc_at in E. now rewrite sdrop_sdrop in E.
    + unfold substr. replace (start + i - start) with i by lia.
      now apply IndexFunc_stake.
Qed.

Lemma nextIndex_first_witness :
  nextIndex "a{{b}} {{c}}" 3 "{{" = Some 7
  /\ substr "a{{b}} {{c}}" 7 9 = "{{"
  /\ nextIndexFunc "ab  c" 2 isNonSpace = Some 4.
Proof.
  pose proof (nextIndex_first "a{{b}} {{c}}" 3 "{{" isNonSpace ltac:(simpl; lia)) as [H _].
  pose proof (nextIndex_first "ab  c" 2 "{{" isNonSpace ltac:(simpl; lia)) as [_ H'].
  change (nextIndex "a{{b}} {{c}}" 3 "{{") with (Some 7) in H.
  change (nextIndexFunc "ab  c" 2 isNonSpace) with (Some 4) in H'.
  split; [reflexivity|]. split; [exact (proj1 (proj2 (proj2 H)))|reflexivity].
Defined.

Lemma IndexByte_first s c : forall i,
  gostrings.IndexByte s c = Some i -> forall p, p < i -> byteAt s p <> c.
Proof.
  induction s as [|b s IH]; intros i; cbn [gostrings.IndexByte]; [discriminate|].
  destruct (Ascii.eqb b c) eqn:E; [intros [= <-] p Hp; lia|].
  destruct (gostrings.IndexByte s c) as [j|]; [|discriminate].
  intros [= <-] [|p] Hp.
  - unfold byteAt. cbn [sdrop]. intros ->. now rewrite Ascii.eqb_refl in E.
  - unfold byteAt. cbn [sdrop]. apply (IH j eq_refl p). lia.
Qed.

Lemma IndexByte_None s c :
  gostrings.IndexByte s c = None -> forall p, p < String.length s -> byteAt s p <> c.
Proof.
  induction s as [|b s IH]; cbn [gostrings.IndexByte String.length]; [intros _ p Hp; lia|].
  destruct (Ascii.eqb b c) eqn:E; [discriminate|].
  destruct (gostrings.IndexByte s c) as [j|]; [discriminate|].
  intros _ [|p] Hp.
  - unfold byteAt. cbn [sdrop]. intros ->. now rewrite Ascii.eqb_refl in E.
  - unfold byteAt. cbn [sdrop]. apply (IH eq_refl p). lia.
Qed.

(** X6: [indexNextLine] returns the end of the first line of [s]: the index
    after the first line terminator, or the length of [s] when it has none;
    it is positive for a non-empty [s], so that the loop of [parse] over the
    lines consumes input at every pass. *)
Theorem indexNextLine_first_line (s : string) :
  let eol := indexNextLine s in
  eol <= String.length s
  /\ (s = EmptyString \/ 0 < eol)
  /\ (forall p, p + 1 < eol -> byteAt s p <> nl)
  /\ (eol = String.length s /\ (forall p, p < eol -> byteAt s p <> nl)
      \/ 0 < eol /\ byteAt s (eol - 1) = nl).
Proof.
  cbv zeta. split; [apply indexNextLine_le|]. split.
  - destruct s as [|c s]; [now left|right]. now apply indexNextLine_pos.
  - unfold indexNextLine. destruct (gostrings.IndexByte s nl) as [i|] eqn:E.
    + split.
      * intros p Hp. apply (IndexByte_first _ _ _ E). lia.
      * right. split; [lia|]. replace (i + 1 - 1) with i by lia.
        now apply IndexByte_spec.
    + split.
      * intros p Hp. apply (IndexByte_None _ _ E). lia.
      * left. split; [reflexivity|]. apply (IndexByte_None _ _ E).
Qed.

Lemma isSpace_of_IndexFunc s :
  gostrings.IndexFunc s isNonSpace = None -> isSpace s = true.
Proof. unfold isSpace, gostrings.ContainsFunc. now intros ->. Qed.

Lemma isSpace_lineIndentation line : isSpace (lineIndentation line) = true.
Proof.
  apply isSpace_of_IndexFunc. unfold lineIndentation.
  set (f := fun c : N => negb (unicode.IsZs c) && negb (c =? 9)%N).
  apply (IndexFuncFrom_None_impl f isNonSpace Zs_IsSpace).
  destruct (gostrings.IndexFunc line f) as [i|] eqn:E; [|exact E].
  rewrite substr_0. now apply IndexFunc_stake.
Qed.

(** X7: [lineIndentation] returns a prefix of the line that holds only
    space separators and tabs, hence only white space, and that is the
    longest one: what follows it is empty or starts with another rune. *)
Theorem lineIndentation_longest_prefix (line : string) :
  let notIndent := fun c : N => negb (unicode.IsZs c) && negb (c =? 9)%N in
  exists rest,
    line = lineIndentation line +:+ rest
    /\ gostrings.IndexFunc (lineIndentation line) notIndent = None
    /\ isSpace (lineIndentation line) = true
    /\ (rest = EmptyString
        \/ notIndent (fst (utf8.DecodeRuneInString rest)) = true).
Proof.
  intros notIndent. pose proof (isSpace_lineIndentation line) as Hsp.
  unfold lineIndentation in *. fold notIndent in Hsp |- *.
  destruct (gostrings.IndexFunc line notIndent) as [i|] eqn:E.
  - exists (sdrop i line). rewrite substr_0 in *.
    split; [now rewrite stake_sdrop|]. split; [now apply IndexFunc_stake|].
    split; [exact Hsp|]. right. now apply IndexFunc_at.
  - exists EmptyString. rewrite append_nil_r. auto.
Qed.

(** X8: a set delimiter tag that [splitSetDelimiterTag] accepts is made of
    two words separated by white space: the delimiters returned are not
    empty and hold no white space, and the tag is the start delimiter, then
    white space, then the end delimiter. *)
Theorem splitSetDelimiterTag_two_words (s sd ed : string) :
  splitSetDelimiterTag s = Ok (sd, ed) ->
  exists ws,
    s = sd +:+ ws +:+ ed
    /\ sd <> EmptyString /\ ws <> EmptyString /\ ed <> EmptyString
    /\ gostrings.IndexFunc sd unicode.IsSpace = None
    /\ isSpace ws = true
    /\ gostrings.IndexFunc ed unicode.IsSpace = None.
Proof.
  intros Hsplit. pose proof (splitSetDelimiterTag_nonempty _ _ _ Hsplit) as [Hsd Hed].
  revert Hsplit. unfold splitSetDelimiterTag.
  destruct (gostrings.IndexFunc s unicode.IsSpace) as [[|i0]|] eqn:Hi; try discriminate.
  remember (S i0) as i eqn:Ei. clear Ei i0. unfold nextIndexFunc.
  destruct (gostrings.IndexFunc (sdrop i s) isNonSpace) as [j|] eqn:Hj; [|discriminate].
  destruct (gostrings.IndexFunc (sdrop (i + j) s) unicode.IsSpace) eqn:Hk; [discriminate|].
  intros [= <- <-]. exists (stake j (sdrop i s)). rewrite substr_0 in *.
  split; [|split; [exact Hsd|split; [|split; [exact Hed|split; [|split]]]]].
  - rewrite <- sdrop_sdrop, (stake_sdrop j), stake_sdrop. reflexivity.
  - destruct j as [|j]; [|intros H; apply (f_equal String.length) in H;
                           rewrite length_stake in H; apply IndexFunc_lt in Hj;
                           cbn [String.length] in H; lia].
    exfalso. apply IndexFunc_at in Hi. apply IndexFunc_at in Hj.
    cbn [sdrop] in Hj. unfold isNonSpace in Hj. rewrite Hi in Hj. discriminate.
  - now apply IndexFunc_stake.
  - apply isSpace_of_IndexFunc. now apply IndexFunc_stake.
  - exact Hk.
Qed.

Lemma splitSetDelimiterTag_two_words_witness :
  exists ws, "<% %>" = "<%" +:+ ws +:+ "%>" /\ isSpace ws = true.
Proof.
  destruct (splitSetDelimiterTag_two_words "<% %>" "<%" "%>" eq_refl)
    as (ws & Hcat & _ & _ & _ & _ & Hws & _).
  exists ws. split; assumption.
Defined.




Lemma sdrop_append (a b : string) k : sdrop (String.length a + k) (a +:+ b) = sdrop k b.
Proof. induction a as [|c a IH]; [reflexivity|]. rewrite append_cons. exact IH. Qed.

Lemma stake_append (a b : string) : stake (String.length a) (a +:+ b) = a.
Proof.
  induction a as [|c a IH]; [now destruct b|].
  rewrite append_cons. cbn [String.length stake]. now f_equal.
Qed.

(** Outside of a comment the scan for ["}}"] passes the bytes that are
    neither a closing brace nor a line break. *)
Lemma scanEnd_plain (y r : string) pos :
  (forall p, p < String.length y -> byteAt y p <> "}"%char /\ byteAt y p <> nl) ->
  scanEnd false "}}" (y +:+ String "}" (String "}" r)) pos
  = ScanFound (pos + String.length y).
Proof.
  revert pos. induction y as [|c y IH]; intros pos Hy.
  - rewrite append_nil_l, scanEnd_cons. cbn [String.length].
    replace (S (S (String.length r)) <? 2) with false by (symmetry; apply Nat.ltb_ge; lia).
    cbn. rewrite HasPrefix_nil. f_equal. lia.
  - rewrite append_cons, scanEnd_cons, length_append. cbn [String.length].
    replace (S (String.length y + S (S (String.length r))) <? 2) with false
      by (symmetry; apply Nat.ltb_ge; lia).
    destruct (Hy 0 ltac:(simpl; lia)) as [Hb Hn]. unfold byteAt in Hb, Hn. cbn [sdrop] in Hb, Hn.
    replace (Ascii.eqb c nl) with false by (symmetry; now apply Ascii.eqb_neq).
    cbn [andb gostrings.HasPrefix].
    replace (Ascii.eqb "}" c) with false
      by (symmetry; apply Ascii.eqb_neq; congruence).
    cbn [andb]. rewrite IH.
    + f_equal. lia.
    + intros p Hp. apply (Hy (S p)). simpl. lia.
Qed.

(** X10: with the default delimiters the tag [{{{x}}}] is cut as the tag
    [{{&x}}] is: both give the sigil [&] and the same key, for every
    non-empty [x] without a closing brace or a line break. *)
Theorem cutTag_triple_mustache (pre x rest : string) :
  x <> EmptyString ->
  (forall p, p < String.length x -> byteAt x p <> "}"%char /\ byteAt x p <> nl) ->
  cutTag (pre +:+ "{{{" +:+ x +:+ "}}}" +:+ rest) (String.length pre) "{{" "}}"
  = Ok ("&"%char, gostrings.TrimSpace x, String.length pre + String.length x + 6)
  /\ cutTag (pre +:+ "{{&" +:+ x +:+ "}}" +:+ rest) (String.length pre) "{{" "}}"
     = Ok ("&"%char, gostrings.TrimSpace x, String.length pre + String.length x + 5).
Proof.
  intros Hne Hx. split.
  - unfold cutTag. cbn [String.length].
    change (pre +:+ "{{{" +:+ x +:+ "}}}" +:+ rest)
      with (pre +:+ String "{" (String "{" (String "{" x +:+ String "}" (String "}" (String "}" rest))))).
    rewrite (sdrop_append pre _ 2). cbn [sdrop].
    replace (gostrings.HasPrefix (String "{" x +:+ String "}" (String "}" (String "}" rest))) "!")
      with false by reflexivity.
    rewrite (scanEnd_plain (String "{" x)).
    2:{ intros [|p] Hp; [split; discriminate|]. apply (Hx p). simpl in Hp. lia. }
    cbn [String.length String.eqb Ascii.eqb Bool.eqb andb].
    unfold byteAt. rewrite (sdrop_append pre _ 2). cbn [sdrop].
    replace (String.length pre + 2 + S (String.length x) + 2)
      with (String.length pre + (S (S (S (String.length x + 2))))) by lia.
    rewrite (sdrop_append pre). cbn [sdrop].
    rewrite <- (Nat.add_0_r (String.length x + 2)) at 1.
    replace (String.length x + 2 + 0) with (String.length x + 2) by lia.
    change (String "{" x +:+ String "}" (String "}" (String "}" rest)))
      with (String "{" (x +:+ String "}" (String "}" (String "}" rest)))).
    cbn [sdrop].
    replace (sdrop (String.length x + 2) (x +:+ String "}" (String "}" (String "}" rest))))
      with (String "}" rest) by (now rewrite (sdrop_append x)).
    cbn [gostrings.HasPrefix Ascii.eqb Bool.eqb andb]. rewrite HasPrefix_nil.
    f_equal. f_equal; [|lia]. f_equal. f_equal. unfold substr.
    replace (S (String.length pre + 2)) with (String.length pre + 3) by lia.
    rewrite (sdrop_append pre). cbn [sdrop].
    replace (String.length pre + 2 + S (String.length x) - (String.length pre + 3))
      with (String.length x) by lia.
    apply stake_append.
  - unfold cutTag. cbn [String.length].
    change (pre +:+ "{{&" +:+ x +:+ "}}" +:+ rest)
      with (pre +:+ String "{" (String "{" (String "&" x +:+ String "}" (String "}" rest)))).
    rewrite (sdrop_append pre _ 2). cbn [sdrop].
    replace (gostrings.HasPrefix (String "&" x +:+ String "}" (String "}" rest)) "!")
      with false by reflexivity.
    rewrite (scanEnd_plain (String "&" x)).
    2:{ intros [|p] Hp; [split; discriminate|]. apply (Hx p). simpl in Hp. lia. }
    cbn [String.length String.eqb Ascii.eqb Bool.eqb andb].
    unfold byteAt at 1. rewrite (sdrop_append pre _ 2). cbn [sdrop].
    change (String "&" x +:+ String "}" (String "}" rest))
      with (String "&" (x +:+ String "}" (String "}" rest))).
    cbn [Ascii.eqb Bool.eqb andb].
    assert (Hinner : substr (pre +:+ String "{" (String "{" (String "&" (x +:+ String "}" (String "}" rest)))))
                       (String.length pre + 2) (String.length pre + 2 + S (String.length x))
                     = String "&" x).
    { unfold substr. rewrite (sdrop_append pre _ 2). cbn [sdrop].
      replace (String.length pre + 2 + S (String.length x) - (String.length pre + 2))
        with (S (String.length x)) by lia.
      cbn [stake]. f_equal. apply stake_append. }
    rewrite Hinner. unfold gostrings.CutPrefix. cbn [gostrings.HasPrefix Ascii.eqb Bool.eqb andb].
    cbn [String.length]. destruct x as [|c x]; [congruence|].
    cbn [String.length Nat.ltb Nat.leb andb]. unfold byteAt. cbn [sdrop].
    cbn. f_equal. f_equal. lia.
Qed.

Lemma cutTag_triple_mustache_witness :
  cutTag "a{{{ b }}}c" 1 "{{" "}}" = Ok ("&"%char, "b", 10)
  /\ cutTag "a{{& b }}c" 1 "{{" "}}" = Ok ("&"%char, "b", 9).
Proof.
  refine (cutTag_triple_mustache "a" " b " "c" ltac:(discriminate) _).
  intros [|[|[|p]]] Hp; try (split; discriminate). simpl in Hp. lia.
Defined.

(** ** Trees of tags *)

(** X11: [tagsEqual] decides the equality of two tags, children included,
    and [slices.EqualFunc] with it the equality of two lists of tags; both
    are therefore reflexive, symmetric and transitive. *)
Theorem tagsEqual_decides_equality (t1 t2 : tag) (l1 l2 : list tag) :
  (tagsEqual t1 t2 = true <-> t1 = t2)
  /\ (tagListsEqual l1 l2 = true <-> l1 = l2)
  /\ tagsEqual t1 t1 = true
  /\ tagsEqual t1 t2 = tagsEqual t2 t1
  /\ (forall t3, tagsEqual t1 t2 = true -> tagsEqual t2 t3 = true -> tagsEqual t1 t3 = true).
Proof.
  assert (Hrefl : forall t, tagsEqual t t = true) by (intros t; now apply tagsEqual_eq).
  split; [apply tagsEqual_eq|]. split; [apply tagListsEqual_eq|]. split; [|split].
  - apply Hrefl.
  - destruct (tagsEqual t1 t2) eqn:E12, (tagsEqual t2 t1) eqn:E21; auto.
    + apply tagsEqual_eq in E12. subst t2. rewrite Hrefl in E21. discriminate.
    + apply tagsEqual_eq in E21. subst t2. rewrite Hrefl in E12. discriminate.
  - intros t3 H12 H23. apply tagsEqual_eq in H12, H23. apply tagsEqual_eq. congruence.
Qed.

Lemma walkTag_unfold ty s ind body :
  walkTag (mkTag ty s ind body) = mkTag ty s ind body :: walkTags body.
Proof. reflexivity. Qed.

Lemma walkTags_cons t ts : walkTags (t :: ts) = t :: walkTags (tag_body t) ++ walkTags ts.
Proof. destruct t as [ty s ind body]. cbn [walkTags flat_map tag_body]. now rewrite walkTag_unfold. Qed.

Lemma walkTags_app ts1 ts2 : walkTags (ts1 ++ ts2) = walkTags ts1 ++ walkTags ts2.
Proof. unfold walkTags. apply flat_map_app. Qed.

(** X12: [walkTags] visits the tags in pre-order: a tag, then the tags of
    its body, then the tags that follow it; it visits every tag of the slice
    and of the bodies of the tags it visits, and nothing else. *)
Theorem walkTags_preorder (t : tag) (ts : list tag) :
  walkTags (t :: ts) = t :: walkTags (tag_body t) ++ walkTags ts
  /\ (forall x, x ∈ walkTags ts <->
        x ∈ ts \/ exists y, y ∈ walkTags ts /\ x ∈ tag_body y).
Proof.
  split; [apply walkTags_cons|].
  assert (Hsub : forall l x, x ∈ l -> x ∈ walkTags l).
  { induction l as [|a l IH]; intros x Hx; [now apply elem_of_nil in Hx|].
    rewrite walkTags_cons. apply elem_of_cons in Hx as [->|Hx]; [apply list_elem_of_here|].
    apply list_elem_of_further, elem_of_app. right. auto. }
  assert (Hbody : forall l y x, y ∈ walkTags l -> x ∈ tag_body y -> x ∈ walkTags l).
  { assert (Hall : forall a, (fun a => forall y x, y ∈ walkTag a -> x ∈ tag_body y ->
                                                   x ∈ walkTag a) a).
    { induction a as [ty s ind body IH] using tag_induction. intros y x.
      rewrite walkTag_unfold. intros Hy Hx.
      apply elem_of_cons in Hy as [->|Hy].
      - cbn [tag_body] in Hx. apply list_elem_of_further. now apply Hsub.
      - apply list_elem_of_further. unfold walkTags in *.
        apply list_elem_of_In, in_flat_map in Hy as (b & Hb & Hy).
        apply list_elem_of_In, in_flat_map. exists b. split; [exact Hb|].
        apply list_elem_of_In. rewrite List.Forall_forall in IH.
        apply (IH b Hb y x); [now apply list_elem_of_In|exact Hx]. }
    intros l y x Hy Hx. unfold walkTags in *.
    apply list_elem_of_In, in_flat_map in Hy as (b & Hb & Hy).
    apply list_elem_of_In, in_flat_map. exists b. split; [exact Hb|].
    apply list_elem_of_In. apply (Hall b y x); [now apply list_elem_of_In|exact Hx]. }
  intros x. split.
  - assert (Hgen : forall n l z, length (walkTags l) <= n -> z ∈ walkTags l ->
              z ∈ l \/ exists y, y ∈ walkTags l /\ z ∈ tag_body y).
    { induction n as [|n IH]; intros l z Hn Hz; (destruct l as [|a l];
        [now apply elem_of_nil in Hz|]); rewrite walkTags_cons in Hn, Hz;
        cbn [length] in Hn; rewrite length_app in Hn; [lia|].
      apply elem_of_cons in Hz as [->|Hz]; [left; apply list_elem_of_here|].
      apply elem_of_app in Hz as [Hz|Hz].
      - destruct (IH (tag_body a) z ltac:(lia) Hz) as [Hin|(y & Hy & Hzy)].
        + right. exists a. split; [apply Hsub, list_elem_of_here|exact Hin].
        + right. exists y. split; [|exact Hzy].
          rewrite walkTags_cons. apply list_elem_of_further, elem_of_app. now left.
      - destruct (IH l z ltac:(lia) Hz) as [Hin|(y & Hy & Hzy)].
        + left. now apply list_elem_of_further.
        + right. exists y. split; [|exact Hzy].
          rewrite walkTags_cons. apply list_elem_of_further, elem_of_app. now right. }
    apply (Hgen (length (walkTags ts))). lia.
  - intros [Hx|(y & Hy & Hx)]; [now apply Hsub|]. eapply Hbody; eauto.
Qed.

(** ** The shape of the tags that [parse] builds *)

Lemma shapedState_frame st st' :
  top st' = top st -> below st' = below st -> shapedState st -> shapedState st'.
Proof. unfold shapedState, openScopes. now intros -> ->. Qed.

Lemma shapedState_appendTag st t :
  shapeOK t = true -> tag_body t = [] -> shapedState st -> shapedState (appendTag st t).
Proof.
  intros Ht Hb [Hsl Hop]. unfold shapedState, openScopes, appendTag, withTop in *.
  cbn [top below] in *.
  apply Forall_cons in Hsl as [Htop Hbelow]. split.
  - apply Forall_cons. split; [|exact Hbelow]. cbn [slice].
    rewrite walkTags_app. apply Forall_app. split; [exact Htop|].
    rewrite walkTags_cons, Hb. cbn. apply Forall_cons. split; [exact Ht|apply Forall_nil_2].
  - destruct (below st) as [|p rest]; [exact Hop|].
    change (removelast (?a :: p :: rest)) with (a :: removelast (p :: rest)) in *.
    apply Forall_cons in Hop as [H1 H2]. apply Forall_cons. split; [exact H1|exact H2].
Qed.

Lemma shapedState_appendLiteral st text : shapedState st -> shapedState (appendLiteral st text).
Proof.
  intros H. unfold appendLiteral. destruct (String.eqb text "") eqn:E; [exact H|].
  apply shapedState_appendTag; auto. unfold shapeOK. cbn. now rewrite E.
Qed.

Lemma shapedState_newScope st t :
  isScopeType (tag_tt t) && shapeOK t = true -> shapedState st -> shapedState (newScope st t).
Proof.
  intros Ht [Hsl Hop]. unfold shapedState, openScopes, newScope in *. cbn [top below slice] in *.
  split.
  - apply Forall_cons. split; [apply Forall_nil_2|exact Hsl].
  - change (removelast (?a :: top st :: below st)) with (a :: removelast (top st :: below st)).
    apply Forall_cons. split; [exact Ht|exact Hop].
Qed.

Lemma shapedState_standalone st b :
  shapedState st ->
  shapedState (withTop st (mkScope (start (top st)) (lineno (top st)) (slice (top st)) b)).
Proof.
  intros [Hsl Hop]. unfold shapedState, openScopes, withTop in *. cbn [top below] in *.
  apply Forall_cons in Hsl as [Htop Hbelow]. split.
  - apply Forall_cons. split; [exact Htop|exact Hbelow].
  - destruct (below st) as [|p rest]; [exact Hop|].
    change (removelast (?a :: p :: rest)) with (a :: removelast (p :: rest)) in *.
    apply Forall_cons in Hop as [H1 H2]. apply Forall_cons. split; [exact H1|exact H2].
Qed.

Lemma shapedState_emitLeading st sa pe ts special lead :
  shapedState st -> shapedState (emitLeading st sa pe ts special lead).
Proof.
  intros H. unfold emitLeading. destruct (negb sa); [|exact H].
  apply shapedState_appendLiteral. destruct (_ && _); [|exact H].
  now apply shapedState_appendTag.
Qed.

Lemma shapedState_applyTag st special key indent sa ig st' ig' :
  (Ascii.eqb special "!" = false -> Ascii.eqb special "=" = false -> isWord key = true) ->
  isSpace indent = true ->
  shapedState st ->
  applyTag st special key indent sa ig = Ok (st', ig') ->
  shapedState st'.
Proof.
  intros Hkey Hind Hst. unfold applyTag.
  destruct (Ascii.eqb special "#") eqn:E1.
  { apply Ascii.eqb_eq in E1. subst special. intros [= <- <-].
    apply shapedState_newScope; [|exact Hst]. unfold shapeOK. cbn.
    now rewrite (Hkey eq_refl eq_refl). }
  destruct (Ascii.eqb special "^") eqn:E2.
  { apply Ascii.eqb_eq in E2. subst special. intros [= <- <-].
    apply shapedState_newScope; [|exact Hst]. unfold shapeOK. cbn.
    now rewrite (Hkey eq_refl eq_refl). }
  destruct (Ascii.eqb special "!") eqn:E3; [now intros [= <- <-]|].
  destruct (Ascii.eqb special ">") eqn:E4.
  { apply Ascii.eqb_eq in E4. subst special. intros [= <- <-].
    apply shapedState_appendTag; auto. unfold shapeOK. cbn.
    now rewrite (Hkey eq_refl eq_refl), Hind. }
  destruct (Ascii.eqb special "$") eqn:E5.
  { apply Ascii.eqb_eq in E5. subst special. intros [= <- <-].
    assert (shapedState (newScope st (mkTag block key indent []))).
    { apply shapedState_newScope; [|exact Hst]. unfold shapeOK. cbn.
      now rewrite (Hkey eq_refl eq_refl), Hind. }
    destruct ig; [assumption|]. now apply shapedState_appendTag. }
  destruct (Ascii.eqb special "<") eqn:E6.
  { apply Ascii.eqb_eq in E6. subst special. intros [= <- <-].
    assert (Hn : shapedState (newScope st (mkTag parent key indent []))).
    { apply shapedState_newScope; [|exact Hst]. unfold shapeOK. cbn.
      now rewrite (Hkey eq_refl eq_refl), Hind. }
    exact (shapedState_standalone _ sa Hn). }
  destruct (Ascii.eqb special "/") eqn:E7.
  { destruct (below st) as [|p rest] eqn:Hbelow; [discriminate|].
    destruct (negb (String.eqb key (tag_s (start (top st))))); [discriminate|].
    intros [= <- <-]. destruct Hst as [Hsl Hop].
    unfold shapedState, openScopes in *. rewrite Hbelow in *. cbn [top below slice start] in *.
    apply Forall_cons in Hsl as [Htop Hsl]. apply Forall_cons in Hsl as [Hp Hrest].
    change (removelast (top st :: p :: rest)) with (top st :: removelast (p :: rest)) in Hop.
    apply Forall_cons in Hop as [Hstart Hop]. split.
    - apply Forall_cons. split; [|exact Hrest]. cbn [slice].
      rewrite walkTags_app. apply Forall_app. split; [exact Hp|].
      rewrite walkTags_cons, app_nil_r. cbn [tag_body withBody].
      apply Forall_cons. split; [|exact Htop].
      apply andb_true_iff in Hstart as [Hty Hshape]. revert Hty Hshape.
      unfold shapeOK, withBody. cbn [tag_tt tag_s tag_indent tag_body].
      destruct (tag_tt (start (top st))); auto; discriminate.
    - destruct rest as [|q rest]; [apply Forall_nil_2|].
      change (removelast (?a :: q :: rest)) with (a :: removelast (q :: rest)) in *.
      apply Forall_cons in Hop as [H1 H2]. apply Forall_cons. split; [exact H1|exact H2]. }
  destruct (Ascii.eqb special "=") eqn:E8.
  { destruct (splitSetDelimiterTag key) as [[sd ed]|e|]; try discriminate.
    intros [= <- <-]. exact Hst. }
  destruct (Ascii.eqb special "&") eqn:E9.
  { intros [= <- <-]. apply shapedState_appendTag; auto. unfold shapeOK. cbn.
    now rewrite (Hkey eq_refl eq_refl). }
  intros [= <- <-]. apply shapedState_appendTag; auto. unfold shapeOK. cbn.
  now rewrite (Hkey eq_refl eq_refl).
Qed.

Lemma checkKey_word n special key :
  checkKey n special key = Ok tt ->
  Ascii.eqb special "!" = false -> Ascii.eqb special "=" = false -> isWord key = true.
Proof.
  unfold checkKey, isWord. intros H E1 E2. rewrite E1, E2 in H. cbn [negb andb] in H.
  destruct (String.eqb key ""); [discriminate|].
  destruct (gostrings.IndexFunc key unicode.IsSpace); [discriminate|reflexivity].
Qed.

Lemma processTag_shaped st s eol pe ts st' eol' pe' nxt :
  shapedState st ->
  processTag st s eol pe ts = Ok (st', eol', pe', nxt) -> shapedState st'.
Proof.
  intros Hst. unfold processTag.
  destruct (cutTag s ts (startDelim st) (endDelim st)) as [[[special key] tagEnd]|e|];
    cbn [atLine bind]; try discriminate.
  destruct (skipLines st s ts tagEnd eol) as [st1 eol1] eqn:Hskip.
  apply skipLines_frame in Hskip as (Ht & Hb & _).
  assert (Hst1 : shapedState st1) by (eapply shapedState_frame; eauto).
  destruct (checkKey (curLine st1) special key) as [[]|e|] eqn:Hck; cbn [bind]; try discriminate.
  destruct (trailingTextOf st1 s special key tagEnd eol1) as [trailing|e|];
    cbn [atLine bind]; try discriminate.
  match goal with
  | |- context [applyTag ?a ?b ?c ?d ?e ?f] =>
    pose proof (shapedState_applyTag a b c d e f) as Happ;
      destruct (applyTag a b c d e f) as [[st2 ig]|e'|]
  end; cbn [bind]; try discriminate.
  assert (Hfinal : shapedState st2).
  { apply (Happ st2 ig); [now apply (checkKey_word _ _ _ Hck)| |
                          now apply shapedState_emitLeading|reflexivity].
    destruct (usesNextLine _ _ _ _ _ _); [apply isSpace_lineIndentation|].
    unfold isStandaloneTag.
    destruct (isSpace (substr s pe ts)) eqn:Hlead; [|now rewrite !andb_false_r].
    destruct (_ && _); [exact Hlead|reflexivity]. }
  destruct ig; intros [= <- <- <- <-]; exact Hfinal.
Qed.

Lemma tagLoop_shaped fuel : forall st s eol pe tagStart st' eol' pe',
  shapedState st ->
  tagLoop fuel st s eol pe tagStart = Ok (st', eol', pe') -> shapedState st'.
Proof.
  induction fuel as [|fuel IH]; intros st s eol pe [ts|] st' eol' pe' Hst; cbn [tagLoop];
    try discriminate; try (now intros [= <- <- <-]).
  destruct (processTag st s eol pe ts) as [[[[st1 eol1] pe1] nxt]|e|] eqn:Hp;
    cbn [bind]; try discriminate.
  apply IH. eapply processTag_shaped; eauto.
Qed.

Lemma parseLine_shaped st s st' s' :
  shapedState st -> parseLine st s = Ok (st', s') -> shapedState st'.
Proof.
  intros Hst. unfold parseLine.
  match goal with
  | |- context [tagLoop ?f ?a ?b ?c ?d ?e] =>
    destruct (tagLoop f a b c d e) as [[[st2 eol2] pe2]|e'|] eqn:Hloop
  end; cbn [bind]; try discriminate.
  intros [= <- <-].
  apply (shapedState_frame (appendLiteral st2 (substr (dedent st s) pe2 eol2)));
    [reflexivity|reflexivity|].
  apply shapedState_appendLiteral. eapply tagLoop_shaped; [|exact Hloop].
  destruct (gostrings.Index _ _); [exact Hst|]. now apply shapedState_appendTag.
Qed.

Lemma parseLoop_shaped fuel : forall st s tags,
  shapedState st -> parseLoop fuel st s = Ok tags ->
  Forall (fun t => shapeOK t = true) (walkTags tags).
Proof.
  assert (Hfin : forall st tags, shapedState st -> finish st = Ok tags ->
                   Forall (fun t => shapeOK t = true) (walkTags tags)).
  { intros st tags [Hsl _]. unfold finish. destruct (below st); [|discriminate].
    intros [= <-]. now apply Forall_cons in Hsl as [Htop _]. }
  induction fuel as [|fuel IH]; intros st [|c s] tags Hst; cbn [parseLoop];
    try discriminate; try (now apply Hfin).
  destruct (parseLine st (String c s)) as [[st1 s1]|e|] eqn:Hl; cbn [bind]; try discriminate.
  apply IH. eapply parseLine_shaped; eauto.
Qed.

(** Every tag of a tree that [parse] returns has the shape of its type. *)
Lemma parse_shaped s tags t :
  parse s = Ok tags -> t ∈ walkTags tags -> shapeOK t = true.
Proof.
  intros Hp Ht. apply parseLoop_shaped in Hp.
  - rewrite Forall_forall in Hp. now apply Hp.
  - split; cbn; [apply Forall_cons; split; apply Forall_nil_2|apply Forall_nil_2].
Qed.

(** X13: [parse] never builds an empty literal: the text of every literal
    tag of the tree, at any depth, is not empty; literal tags and indent
    points carry no indentation and no children, and an indent point no
    text. *)
Theorem parse_literals_nonempty (s : string) (tags : list tag) (t : tag) :
  parse s = Ok tags -> t ∈ walkTags tags ->
  (tag_tt t = literal -> tag_s t <> EmptyString /\ tag_indent t = EmptyString /\ tag_body t = [])
  /\ (tag_tt t = indentPoint -> t = indentPointTag).
Proof.
  intros Hp Ht. pose proof (parse_shaped s tags t Hp Ht) as Hs. unfold shapeOK in Hs.
  destruct t as [ty key ind body]. cbn [tag_tt tag_s tag_indent tag_body] in *.
  split; intros ->; apply andb_true_iff in Hs as [Hs Hb];
    apply andb_true_iff in Hs as [Hk Hi]; apply String.eqb_eq in Hi;
    (destruct body; [|discriminate]).
  - apply negb_true_iff, String.eqb_neq in Hk. auto.
  - apply String.eqb_eq in Hk. now subst.
Qed.

Lemma parse_literals_nonempty_witness :
  let t := mkTag literal "a" "" [] in
  tag_s t <> EmptyString /\ tag_indent t = EmptyString /\ tag_body t = [].
Proof.
  intros t.
  refine (proj1 (parse_literals_nonempty "a{{b}}"
                   [indentPointTag; t; mkTag variable "b" "" []] t eq_refl _) eq_refl).
  apply list_elem_of_further, list_elem_of_here.
Defined.

(** X14: every tag of the tree other than a literal and an indent point has
    a name that is not empty and holds no white space. *)
Theorem parse_names_one_word (s : string) (tags : list tag) (t : tag) :
  parse s = Ok tags -> t ∈ walkTags tags ->
  tag_tt t <> literal -> tag_tt t <> indentPoint ->
  tag_s t <> EmptyString /\ gostrings.IndexFunc (tag_s t) unicode.IsSpace = None.
Proof.
  intros Hp Ht Hl Hi. pose proof (parse_shaped s tags t Hp Ht) as Hs. unfold shapeOK in Hs.
  assert (Hw : isWord (tag_s t) = true).
  { destruct (tag_tt t); try congruence;
      repeat match type of Hs with
             | (_ && _) = true => apply andb_true_iff in Hs as [Hs _]
             end; exact Hs. }
  unfold isWord in Hw. apply andb_true_iff in Hw as [H1 H2].
  apply negb_true_iff, String.eqb_neq in H1. split; [exact H1|].
  destruct (gostrings.IndexFunc (tag_s t) unicode.IsSpace); [discriminate|reflexivity].
Qed.

Lemma parse_names_one_word_witness :
  "s" <> EmptyString /\ gostrings.IndexFunc "s" unicode.IsSpace = None.
Proof.
  refine (parse_names_one_word ("  {{>p}}" +:+ String nl "{{#s}}x{{/s}}")
            [mkTag partial "p" "  " []; indentPointTag;
             mkTag section "s" "" [mkTag literal "x" "" []]]
            (mkTag section "s" "" [mkTag literal "x" "" []]) eq_refl _ _ _);
    [|discriminate|discriminate].
  do 2 apply list_elem_of_further. apply list_elem_of_here.
Defined.

(** X15: only section, inverted section, block and parent tags have
    children, only partial, block and parent tags have an indentation, and
    an indentation is white space. *)
Theorem parse_children_and_indentation (s : string) (tags : list tag) (t : tag) :
  parse s = Ok tags -> t ∈ walkTags tags ->
  (tag_body t <> [] -> isScopeType (tag_tt t) = true)
  /\ (tag_indent t <> EmptyString ->
      tag_tt t = partial \/ tag_tt t = block \/ tag_tt t = parent)
  /\ isSpace (tag_indent t) = true.
Proof.
  intros Hp Ht. pose proof (parse_shaped s tags t Hp Ht) as Hs. unfold shapeOK in Hs.
  destruct t as [ty key ind body]. cbn [tag_tt tag_s tag_indent tag_body] in *.
  destruct ty; cbn [isScopeType];
    repeat match goal with
           | H : _ && _ = true |- _ => apply andb_true_iff in H as [? ?]
           | H : String.eqb _ _ = true |- _ => apply String.eqb_eq in H; subst
           | H : isNil ?b = true |- _ => destruct b; [clear H|discriminate]
           end;
    repeat split; auto; try congruence.
Qed.

Lemma parse_children_and_indentation_witness :
  isSpace "  " = true.
Proof.
  refine (proj2 (proj2 (parse_children_and_indentation
                          ("  {{>p}}" +:+ String nl "{{#s}}x{{/s}}")
                          [mkTag partial "p" "  " []; indentPointTag;
                           mkTag section "s" "" [mkTag literal "x" "" []]]
                          (mkTag partial "p" "  " []) eq_refl _))).
  apply list_elem_of_here.
Defined.

(** ** The line numbers of the errors of [parse] *)

Lemma countLines_cons c s :
  countLines (String c s) = (if Ascii.eqb nl c then 1 else 0) + countLines s.
Proof.
  unfold countLines, gostrings.Count. cbn [gostrings.CountFrom gostrings.HasPrefix].
  rewrite HasPrefix_nil, andb_true_r. destruct (Ascii.eqb nl c); reflexivity.
Qed.

Lemma countLines_append a b : countLines (a +:+ b) = countLines a + countLines b.
Proof.
  induction a as [|c a IH]; [reflexivity|].
  rewrite append_cons, !countLines_cons, IH. lia.
Qed.

Lemma countLines_split n s : countLines s = countLines (stake n s) + countLines (sdrop n s).
Proof. now rewrite <- countLines_append, stake_sdrop. Qed.

Lemma sdrop_stake a b s : sdrop a (stake b s) = stake (b - a) (sdrop a s).
Proof.
  revert b s; induction a as [|a IH]; intros b s; [now rewrite Nat.sub_0_r|].
  destruct b as [|b], s as [|c s]; cbn [stake sdrop Nat.sub]; auto.
  now destruct (b - a).
Qed.

Lemma stake_stake a b s : a <= b -> stake a (stake b s) = stake a s.
Proof.
  revert b s; induction a as [|a IH]; intros b s Hle; [reflexivity|].
  destruct b as [|b]; [lia|]. destruct s as [|c s]; [reflexivity|].
  cbn [stake]. f_equal. apply IH. lia.
Qed.

Lemma countLines_substr s a b :
  a <= b -> countLines (stake b s) = countLines (stake a s) + countLines (substr s a b).
Proof.
  intros Hle. rewrite (countLines_split a (stake b s)), stake_stake by exact Hle.
  now rewrite sdrop_stake.
Qed.

Lemma countLines_stake_le s a b : a <= b -> countLines (stake a s) <= countLines (stake b s).
Proof. intros Hle. rewrite (countLines_substr s a b Hle). lia. Qed.

Lemma countLines_stake_all s a : countLines (stake a s) <= countLines s.
Proof. rewrite (countLines_split a s). lia. Qed.

Lemma countLines_sdrop_le s a : countLines (sdrop a s) <= countLines s.
Proof. rewrite (countLines_split a s). lia. Qed.

Lemma countLines_newline s p :
  byteAt s p = nl -> p < String.length s ->
  countLines (stake (S p) s) = countLines (stake p s) + 1.
Proof.
  revert s; induction p as [|p IH]; intros [|c s] Hb Hlt; cbn [String.length] in Hlt; try lia.
  - unfold byteAt in Hb. cbn [sdrop] in Hb. subst c. reflexivity.
  - unfold byteAt in *. cbn [sdrop] in Hb.
    change (stake (S (S p)) (String c s)) with (String c (stake (S p) s)).
    change (stake (S p) (String c s)) with (String c (stake p s)).
    rewrite !countLines_cons, (IH s Hb) by lia. lia.
Qed.

Lemma dedentLoop_suffix scopes : forall s, exists k, dedentLoop scopes s = sdrop k s.
Proof.
  induction scopes as [|curr rest IH]; intros s; cbn [dedentLoop]; [now exists 0|].
  destruct (negb _); [apply IH|].
  unfold gostrings.CutPrefix. destruct (gostrings.HasPrefix s _); [|now exists 0].
  destruct (IH (sdrop (String.length (tag_indent (start curr))) s)) as [k Hk].
  exists (String.length (tag_indent (start curr)) + k). now rewrite Hk, sdrop_sdrop.
Qed.

Lemma linesBounded_frame B st st' :
  top st' = top st -> below st' = below st -> linesBounded B st -> linesBounded B st'.
Proof. unfold linesBounded, openScopes. now intros -> ->. Qed.

Lemma linesBounded_withSlice B st l b :
  linesBounded B st ->
  linesBounded B (withTop st (mkScope (start (top st)) (lineno (top st)) l b)).
Proof.
  unfold linesBounded, openScopes, withTop. cbn [top below]. intros H.
  destruct (below st) as [|p rest]; [exact H|].
  change (removelast (?a :: p :: rest)) with (a :: removelast (p :: rest)) in *.
  apply Forall_cons in H as [H1 H2]. apply Forall_cons. split; [exact H1|exact H2].
Qed.

Lemma linesBounded_appendTag B st t : linesBounded B st -> linesBounded B (appendTag st t).
Proof. apply linesBounded_withSlice. Qed.

Lemma linesBounded_appendLiteral B st text :
  linesBounded B st -> linesBounded B (appendLiteral st text).
Proof.
  unfold appendLiteral. destruct (String.eqb text ""); [auto|apply linesBounded_appendTag].
Qed.

Lemma linesBounded_emitLeading B st sa pe ts special lead :
  linesBounded B st -> linesBounded B (emitLeading st sa pe ts special lead).
Proof.
  intros H. unfold emitLeading. destruct (negb sa); [|exact H].
  apply linesBounded_appendLiteral. destruct (_ && _); [|exact H].
  now apply linesBounded_appendTag.
Qed.

Lemma curLine_emitLeading st sa pe ts special lead :
  curLine (emitLeading st sa pe ts special lead) = curLine st.
Proof.
  unfold emitLeading, appendLiteral.
  destruct (negb sa); [|reflexivity].
  destruct (_ && _); destruct (String.eqb lead ""); reflexivity.
Qed.

Lemma linesBounded_newScope B st t :
  1 <= curLine st <= B -> linesBounded B st -> linesBounded B (newScope st t).
Proof.
  intros Hc H. unfold linesBounded, openScopes, newScope in *. cbn [top below] in *.
  change (removelast (?a :: top st :: below st)) with (a :: removelast (top st :: below st)).
  apply Forall_cons. split; [exact Hc|exact H].
Qed.

(** The [switch] of [parse] reports its errors at the current line, and
    keeps the line number and the bound on the lines of the open scopes. *)
Lemma applyTag_lines B st special key indent sa ig :
  1 <= curLine st <= B -> linesBounded B st ->
  match applyTag st special key indent sa ig with
  | Ok (st', _) => curLine st' = curLine st /\ linesBounded B st'
  | Err e => errorLine e = curLine st
  | OutOfFuel => True
  end.
Proof.
  intros Hc Hst. unfold applyTag.
  repeat match goal with
         | |- context [if Ascii.eqb special ?c then _ else _] =>
           destruct (Ascii.eqb special c)
         end;
    try (split; [reflexivity|]);
    try (now apply linesBounded_newScope);
    try (now apply linesBounded_appendTag); try exact Hst.
  - destruct ig; (split; [reflexivity|]); [now apply linesBounded_newScope|].
    apply linesBounded_appendTag. now apply linesBounded_newScope.
  - apply (linesBounded_withSlice B (newScope st (mkTag parent key indent [])) [] sa).
    now apply linesBounded_newScope.
  - destruct (below st) as [|p rest] eqn:Hbelow; [reflexivity|].
    destruct (negb _); [reflexivity|]. split; [reflexivity|].
    unfold linesBounded, openScopes in *. rewrite Hbelow in Hst. cbn [top below].
    change (removelast (top st :: p :: rest)) with (top st :: removelast (p :: rest)) in Hst.
    apply Forall_cons in Hst as [_ Hst].
    destruct rest as [|q rest]; [apply Forall_nil_2|].
    change (removelast (?a :: q :: rest)) with (a :: removelast (q :: rest)) in *.
    apply Forall_cons in Hst as [H1 H2]. apply Forall_cons. split; [exact H1|exact H2].
  - destruct (splitSetDelimiterTag key) as [[sd ed]|e|]; auto.
Qed.

Lemma checkKey_line n special key e : checkKey n special key = Err e -> errorLine e = n.
Proof.
  unfold checkKey. destruct (_ && _); [|discriminate].
  destruct (String.eqb key ""); [now intros [= <-]|].
  destruct (gostrings.IndexFunc key unicode.IsSpace); [now intros [= <-]|discriminate].
Qed.

(** A tag that spans several lines moves the line number by the line
    terminators it holds. *)
Lemma skipLines_lines st s ts tagEnd eol st1 eol1 :
  skipLines st s ts tagEnd eol = (st1, eol1) ->
  curLine st1 = curLine st + countLines (substr s ts tagEnd)
  /\ (eol1 = eol /\ countLines (substr s ts tagEnd) = 0
      \/ eol1 = tagEnd + indexNextLine (sdrop tagEnd s)).
Proof.
  unfold skipLines, countLines.
  destruct (0 <? gostrings.Count (substr s ts tagEnd) (String nl EmptyString)) eqn:E;
    intros [= <- <-]; cbn [curLine].
  - auto.
  - apply Nat.ltb_ge in E. split; [lia|left; split; [reflexivity|lia]].
Qed.

Lemma processTag_lines B c0 st s eol pe ts :
  startDelim st <> EmptyString -> endDelim st <> EmptyString ->
  lineEnd s eol -> pe <= ts -> ts + String.length (startDelim st) <= eol ->
  1 <= curLine st -> curLine st <= c0 + countLines (stake pe s) ->
  (eol < String.length s ->
   curLine st <= c0 + countLines (stake (Nat.min pe (eol - 1)) s)) ->
  c0 + countLines s <= B -> linesBounded B st ->
  match processTag st s eol pe ts with
  | Ok (st', eol', pe', _) =>
    1 <= curLine st' /\ curLine st' <= c0 + countLines (stake pe' s)
    /\ (eol' < String.length s ->
        curLine st' <= c0 + countLines (stake (Nat.min pe' (eol' - 1)) s))
    /\ linesBounded B st'
  | Err e => 1 <= errorLine e <= B
  | OutOfFuel => True
  end.
Proof.
  intros Hsd Hed Hline Hpe Hts Hpos Hcur Hcur2 HB Hst. unfold processTag.
  pose proof (countLines_stake_all s pe) as Hall.
  destruct (cutTag s ts (startDelim st) (endDelim st)) as [[[special key] tagEnd]|e|] eqn:Hcut;
    cbn [atLine bind errorLine]; [|lia|exact I].
  destruct (skipLines st s ts tagEnd eol) as [st1 eol1] eqn:Hskip.
  destruct (tag_within_line _ _ _ _ _ _ _ _ _ Hsd Hed Hline Hts Hcut Hskip)
    as (Hlt & Hte & Hline1).
  pose proof (skipLines_frame _ _ _ _ _ _ _ Hskip) as (Htop & Hbelow & _).
  apply skipLines_lines in Hskip as [Hc1 Heol1].
  pose proof (countLines_substr s ts tagEnd ltac:(lia)) as Hsplit.
  pose proof (countLines_stake_le s pe ts Hpe) as Hmono.
  pose proof (countLines_stake_all s tagEnd) as Hall'.
  assert (F1 : curLine st1 <= c0 + countLines (stake tagEnd s)) by lia.
  assert (F2 : eol1 < String.length s ->
               curLine st1 <= c0 + countLines (stake (Nat.min tagEnd (eol1 - 1)) s)).
  { intros Hlt1. destruct Heol1 as [[-> Hz] | ->].
    - specialize (Hcur2 Hlt1).
      pose proof (countLines_stake_le s (Nat.min pe (eol - 1)) (Nat.min tagEnd (eol - 1))
                    ltac:(lia)). lia.
    - assert (sdrop tagEnd s <> EmptyString).
      { intros E. rewrite E in Hlt1. cbn in Hlt1.
        apply (f_equal String.length) in E. rewrite length_sdrop in E. cbn in E. lia. }
      pose proof (indexNextLine_pos _ H).
      replace (Nat.min tagEnd (tagEnd + indexNextLine (sdrop tagEnd s) - 1)) with tagEnd
        by lia. exact F1. }
  assert (F3 : linesBounded B st1) by (eapply linesBounded_frame; eauto).
  assert (Hc : 1 <= curLine st1 <= B) by lia.
  destruct (checkKey (curLine st1) special key) as [[]|e|] eqn:Hck; cbn [bind];
    [|apply checkKey_line in Hck; lia|exact I].
  destruct (trailingTextOf st1 s special key tagEnd eol1) as [trailing|e|];
    cbn [atLine bind errorLine]; [|lia|exact I].
  match goal with
  | |- context [applyTag ?a ?b ?c ?d ?e ?f] =>
    pose proof (applyTag_lines B a b c d e f) as Happ;
      destruct (applyTag a b c d e f) as [[st2 ig]|e'|]
  end; cbn [bind]; rewrite curLine_emitLeading in Happ;
    specialize (Happ Hc (linesBounded_emitLeading _ _ _ _ _ _ _ F3)); [|lia|exact I].
  destruct Happ as [Hc2 Hst2].
  pose proof (countLines_stake_le s tagEnd eol1 Hte) as Hm1.
  destruct ig.
  - split; [lia|]. split; [lia|]. split; [|exact Hst2].
    intros Hlt1. specialize (F2 Hlt1).
    pose proof (countLines_stake_le s (Nat.min tagEnd (eol1 - 1)) (Nat.min eol1 (eol1 - 1))
                  ltac:(lia)). lia.
  - split; [lia|]. split; [lia|]. split; [|exact Hst2].
    intros Hlt1. specialize (F2 Hlt1). lia.
Qed.

Lemma tagLoop_lines B c0 s fuel : forall st eol pe tagStart,
  startDelim st <> EmptyString -> endDelim st <> EmptyString ->
  lineEnd s eol ->
  (forall ts, tagStart = Some ts -> pe <= ts /\ ts + String.length (startDelim st) <= eol) ->
  1 <= curLine st -> curLine st <= c0 + countLines (stake pe s) ->
  (eol < String.length s ->
   curLine st <= c0 + countLines (stake (Nat.min pe (eol - 1)) s)) ->
  c0 + countLines s <= B -> linesBounded B st ->
  match tagLoop fuel st s eol pe tagStart with
  | Ok (st', eol', pe') =>
    startDelim st' <> EmptyString /\ endDelim st' <> EmptyString /\ lineEnd s eol'
    /\ 1 <= curLine st'
    /\ (eol' < String.length s -> curLine st' <= c0 + countLines (stake (eol' - 1) s))
    /\ linesBounded B st'
  | Err e => 1 <= errorLine e <= B
  | OutOfFuel => True
  end.
Proof.
  induction fuel as [|fuel IH]; intros st eol pe tagStart Hsd Hed Hline Hts Hpos Hcur Hcur2 HB Hst;
    destruct tagStart as [ts|]; cbn [tagLoop]; try exact I.
  - repeat (split; [assumption|]). split; [|exact Hst].
    intros Hlt. specialize (Hcur2 Hlt).
    pose proof (countLines_stake_le s (Nat.min pe (eol - 1)) (eol - 1) ltac:(lia)). lia.
  - destruct (Hts ts eq_refl) as [Hpe Hle].
    pose proof (processTag_lines B c0 st s eol pe ts Hsd Hed Hline Hpe Hle Hpos Hcur Hcur2 HB Hst)
      as Hstep.
    pose proof (processTag_indices st s eol pe ts) as Hidx.
    pose proof (processTag_props st s eol pe ts Hed) as [_ Hprops].
    destruct (processTag st s eol pe ts) as [[[[st1 eol1] pe1] nxt]|e|]; cbn [bind];
      [|exact Hstep|exact I].
    destruct Hstep as (H1 & H2 & H3 & H4).
    destruct (Hidx _ _ _ _ Hsd Hed Hline Hpe Hle eq_refl) as (Hsd1 & Hline1 & Hpe1 & Hnxt).
    destruct (Hprops _ _ _ _ eq_refl) as (Hed1 & _).
    apply IH; auto.
  - repeat (split; [assumption|]). split; [|exact Hst].
    intros Hlt. specialize (Hcur2 Hlt).
    pose proof (countLines_stake_le s (Nat.min pe (eol - 1)) (eol - 1) ltac:(lia)). lia.
Qed.

Lemma parseLine_lines B st s0 :
  startDelim st <> EmptyString -> endDelim st <> EmptyString ->
  1 <= curLine st -> curLine st + countLines s0 <= B -> linesBounded B st ->
  match parseLine st s0 with
  | Ok (st', s') =>
    startDelim st' <> EmptyString /\ endDelim st' <> EmptyString
    /\ 1 <= curLine st'
    /\ (s' <> EmptyString -> curLine st' + countLines s' <= B)
    /\ linesBounded B st'
  | Err e => 1 <= errorLine e <= B
  | OutOfFuel => True
  end.
Proof.
  intros Hsd Hed Hpos HB Hst. unfold parseLine.
  destruct (dedentLoop_suffix (stackOf st) s0) as [k Hk]. fold (dedent st s0) in Hk.
  pose proof (countLines_sdrop_le s0 k) as Hcount. rewrite <- Hk in Hcount.
  set (s1 := dedent st s0) in *.
  set (eol := indexNextLine s1).
  set (tagStart := gostrings.Index (substr s1 0 eol) (startDelim st)).
  set (st1 := match tagStart with None => appendTag st indentPointTag | Some _ => st end).
  assert (Hsame : startDelim st1 = startDelim st /\ endDelim st1 = endDelim st
                  /\ curLine st1 = curLine st)
    by (unfold st1; destruct tagStart; repeat split).
  destruct Hsame as (E1 & E2 & E3).
  pose proof (tagLoop_lines B (curLine st) s1 (S (String.length s1)) st1 eol 0 tagStart) as Hloop.
  rewrite E1, E2, E3 in Hloop.
  specialize (Hloop Hsd Hed (indexNextLine_lineEnd s1)).
  assert (Hts : forall ts, tagStart = Some ts ->
                  0 <= ts /\ ts + String.length (startDelim st) <= eol).
  { intros ts Hs. split; [lia|]. unfold tagStart in Hs. rewrite substr_0 in Hs.
    eapply Index_stake_bounds; [apply indexNextLine_le|exact Hs]. }
  specialize (Hloop Hts Hpos).
  assert (Hst1 : linesBounded B st1)
    by (unfold st1; destruct tagStart; [exact Hst|now apply linesBounded_appendTag]).
  cbn [stake Nat.min] in Hloop.
  specialize (Hloop ltac:(cbn; lia) ltac:(intros _; cbn; lia) ltac:(lia) Hst1).
  destruct (tagLoop (S (String.length s1)) st1 s1 eol 0 tagStart) as [[[st2 eol2] pe2]|e|];
    cbn [bind]; [|exact Hloop|exact I].
  destruct Hloop as (Hsd2 & Hed2 & Hline2 & Hpos2 & Hcur2 & Hst2).
  assert (Hlit : forall text,
            startDelim (appendLiteral st2 text) = startDelim st2
            /\ endDelim (appendLiteral st2 text) = endDelim st2
            /\ curLine (appendLiteral st2 text) = curLine st2).
  { intros text. unfold appendLiteral. destruct (String.eqb text ""); repeat split. }
  destruct (Hlit (substr s1 pe2 eol2)) as (L1 & L2 & L3).
  unfold nextLine. cbn [startDelim endDelim curLine]. rewrite L1, L2, L3.
  split; [exact Hsd2|]. split; [exact Hed2|]. split; [lia|]. split.
  - intros Hne.
    assert (Hlt : eol2 < String.length s1).
    { destruct (le_lt_dec (String.length s1) eol2) as [Hge|]; [|assumption].
      exfalso. apply Hne. now apply sdrop_all. }
    specialize (Hcur2 Hlt). destruct Hline2 as [_ [Heq|[Hp Hnl]]]; [lia|].
    pose proof (countLines_newline s1 (eol2 - 1) Hnl ltac:(lia)) as Hn.
    replace (S (eol2 - 1)) with eol2 in Hn by lia.
    pose proof (countLines_split eol2 s1). lia.
  - apply (linesBounded_frame B (appendLiteral st2 (substr s1 pe2 eol2)));
      [reflexivity|reflexivity|]. now apply linesBounded_appendLiteral.
Qed.

Lemma parseLoop_lines B fuel : forall st s,
  startDelim st <> EmptyString -> endDelim st <> EmptyString ->
  1 <= curLine st -> (s <> EmptyString -> curLine st + countLines s <= B) ->
  linesBounded B st ->
  forall e, parseLoop fuel st s = Err e -> 1 <= errorLine e <= B.
Proof.
  induction fuel as [|fuel IH]; intros st [|c s] Hsd Hed Hpos HB Hst e; cbn [parseLoop];
    try discriminate.
  1,2: unfold finish; destruct (below st) as [|p rest] eqn:Hb; [discriminate|];
       intros [= <-]; cbn [errorLine];
       unfold linesBounded, openScopes in Hst; rewrite Hb in Hst;
       change (removelast (top st :: p :: rest)) with (top st :: removelast (p :: rest)) in Hst;
       now apply Forall_cons in Hst as [Ht _].
  pose proof (parseLine_lines B st (String c s) Hsd Hed Hpos (HB ltac:(discriminate)) Hst)
    as Hline.
  destruct (parseLine st (String c s)) as [[st1 s1]|e1|]; cbn [bind];
    [|now intros [= <-]|discriminate].
  destruct Hline as (Hsd1 & Hed1 & Hpos1 & HB1 & Hst1). now apply IH.
Qed.

(** X16: the line number of an error of [parse] is a line of the source:
    it lies between 1 and the number of line terminators of the source plus
    one. *)
Theorem parse_error_line (s : string) (n : nat) (e : errKind) :
  parse s = Err (AtLine n e) -> 1 <= n <= countLines s + 1.
Proof.
  intros H.
  apply (parseLoop_lines (countLines s + 1) (String.length s) initState s) in H;
    [exact H|discriminate|discriminate|cbn; lia|cbn; lia|apply Forall_nil_2].
Qed.

(** The closing tag on the third line has no opening tag. *)
Lemma parse_error_line_witness :
  let s := "a" +:+ String nl ("{{! c" +:+ String nl ("}}{{/x}}" +:+ String nl "b")) in
  parse s = Err (AtLine 3 (WithoutOpening "{{" "x" "}}")) /\ 1 <= 3 <= countLines s + 1.
Proof.
  intros s. split; [reflexivity|].
  exact (parse_error_line s 3 (WithoutOpening "{{" "x" "}}") eq_refl).
Defined.

(** ** The partial resolver: recursion, errors *)

Section ResolverFuel.

Context {K : Type} {EqK : EqDecision K} {CountK : Countable K}.
Variable keyOf : tag -> K.
Variable prep : tag -> string -> string.
Variable fmtName : nat -> string.
Variable load : string -> loadResult.
Variable nameOf : K -> string.
Variable textOf : K -> string -> string.

Hypothesis key_name : forall t, nameOf (keyOf t) = tag_s t.
Hypothesis key_text : forall t source, textOf (keyOf t) source = prep t source.
Hypothesis fmt_nonempty : forall i, fmtName i <> EmptyString.

(** A set of keys that holds the keys of the references of its partials. *)
Variable universe : gset K.
Hypothesis universe_closed : forall k tree t,
  k ∈ universe -> treeOfKey load nameOf textOf k = Some tree ->
  t ∈ walkTags tree -> isReference t = true -> keyOf t ∈ universe.

Lemma registerG_fuel t (r : resolver K) :
  registerG keyOf prep fmtName load t r <> OutOfFuel.
Proof.
  unfold registerG. destruct (load (tag_s t)) as [source|msg]; [|discriminate].
  pose proof (parse_total (prep t source)) as Hp.
  destruct (parse (prep t source)); [|discriminate|congruence].
  destruct (internTree _ _). discriminate.
Qed.

(** The depth of the recursion into partials is at most the number of keys
    that have no function name yet. *)
Lemma walk_fuel fuel : forall ts (r : resolver K),
  resolverInv fmtName load nameOf textOf r ->
  (forall t, t ∈ ts -> isReference t = true -> keyOf t ∈ universe) ->
  size (universe ∖ dom (partialFuncNames r)) <= fuel ->
  gatherWalk (knownG keyOf) (registerG keyOf prep fmtName load) fuel ts r <> OutOfFuel.
Proof.
  induction fuel as [fuel IHf] using lt_wf_ind.
  induction ts as [|t ts IHt]; intros r Hinv Hin Hsize;
    [now rewrite gatherWalk_nil|].
  rewrite gatherWalk_cons.
  assert (Hrest : forall u, u ∈ ts -> isReference u = true -> keyOf u ∈ universe)
    by (intros u Hu; apply Hin; now apply list_elem_of_further).
  destruct (isReference t) eqn:Href; [|now apply IHt].
  destruct (knownG keyOf t r) eqn:Hknown; [now apply IHt|].
  assert (Hnone : partialFuncNames r !! keyOf t = None).
  { destruct (partialFuncNames r !! keyOf t) eqn:E; [|reflexivity].
    assert (knownG keyOf t r = true)
      by (apply (knownG_spec keyOf fmtName load nameOf textOf fmt_nonempty); eauto).
    congruence. }
  pose proof (registerG_fuel t r) as Hreg0.
  destruct (registerG keyOf prep fmtName load t r) as [[r1 tree]|e|] eqn:Hreg;
    cbn [bind]; [|discriminate|congruence].
  destruct (registerG_spec keyOf prep fmtName load nameOf textOf key_name key_text
              _ _ _ _ Hinv Hnone Hreg) as (Hinv1 & Htree & [f Hf] & _).
  assert (Hkey : keyOf t ∈ universe) by (apply Hin; [apply list_elem_of_here|exact Href]).
  assert (Hlt : size (universe ∖ dom (partialFuncNames r1))
                < size (universe ∖ dom (partialFuncNames r))).
  { apply subset_size. rewrite Hf, dom_insert_L.
    apply not_elem_of_dom in Hnone. split.
    - intros x Hx. apply elem_of_difference in Hx as [Hx1 Hx2].
      apply elem_of_difference. split; [exact Hx1|].
      intros Hd. apply Hx2, elem_of_union. now right.
    - intros Hsub. specialize (Hsub (keyOf t)).
      assert (Hk : keyOf t ∈ universe ∖ dom (partialFuncNames r))
        by (apply elem_of_difference; auto).
      apply Hsub, elem_of_difference in Hk as [_ Hk]. apply Hk, elem_of_union.
      left. now apply elem_of_singleton. }
  destruct fuel as [|fuel']; [lia|].
  pose proof (IHf fuel' ltac:(lia) (walkTags tree) r1 Hinv1) as Hrec.
  destruct (gatherWalk _ _ fuel' (walkTags tree) r1) as [r2|e|] eqn:Hrun; cbn [bind];
    [|discriminate|].
  - destruct (walk_spec keyOf prep fmtName load nameOf textOf key_name key_text fmt_nonempty
                fuel' _ _ _ Hinv1 Hrun) as (Hinv2 & Hsub & _).
    apply IHt; [exact Hinv2|exact Hrest|].
    assert (Hd : dom (partialFuncNames r) ⊆ dom (partialFuncNames r2)).
    { etransitivity; [|apply subseteq_dom; exact Hsub].
      rewrite Hf, dom_insert_L. intros x Hx. apply elem_of_union. now right. }
    etransitivity; [|exact Hsize]. apply subseteq_size.
    intros x Hx. apply elem_of_difference in Hx as [Hx1 Hx2].
    apply elem_of_difference. split; [exact Hx1|]. intros Hx3. apply Hx2, Hd, Hx3.
  - exfalso. apply Hrec; [|lia|reflexivity].
    intros u Hu Hu'. eapply universe_closed; eauto.
Qed.

End ResolverFuel.

Lemma size_list_to_set_le {K : Type} {EqK : EqDecision K} {CountK : Countable K}
    (l : list K) : size (list_to_set l : gset K) <= length l.
Proof.
  induction l as [|x l IH]; [now rewrite list_to_set_nil, size_empty|].
  rewrite list_to_set_cons, size_union_alt, size_singleton. cbn [length].
  assert (size (list_to_set l ∖ {[x]} : gset K) <= size (list_to_set l : gset K)).
  { apply subseteq_size. intros y Hy. now apply elem_of_difference in Hy as [Hy _]. }
  lia.
Qed.

Lemma resolver_fuel_list {K : Type} {EqK : EqDecision K} {CountK : Countable K}
    (keys : list K) : size ((list_to_set keys : gset K) ∖ dom (∅ : gmap K string)) <= length keys.
Proof.
  etransitivity; [|apply size_list_to_set_le].
  apply subseteq_size. intros y Hy. now apply elem_of_difference in Hy as [Hy _].
Qed.

(** X17: the resolver returns when partials refer to each other, and to
    themselves: if the references of the template and of the partials come
    from a finite list of names (of pairs of a name and an indentation for
    [compileJS]), the depth of the recursion of [gatherPartials] is at most
    the length of that list. *)
Theorem gatherPartials_terminates (load : string -> loadResult) (tags : list tag) :
  (forall templateName (names : list string),
     (forall t, t ∈ walkTags tags -> isReference t = true -> tag_s t ∈ names) ->
     (forall name tree t, name ∈ names -> partialTreeGo load name = Some tree ->
        t ∈ walkTags tree -> isReference t = true -> tag_s t ∈ names) ->
     gatherPartialsGo (length names) load templateName tags resolverInit <> OutOfFuel)
  /\ (forall keys : list partialKey,
        (forall t, t ∈ walkTags tags -> isReference t = true -> keyJS t ∈ keys) ->
        (forall k tree t, k ∈ keys -> partialTreeJS load k = Some tree ->
           t ∈ walkTags tree -> isReference t = true -> keyJS t ∈ keys) ->
        gatherPartialsJS (length keys) load tags resolverInit <> OutOfFuel).
Proof.
  split.
  - intros templateName names Htags Hclosed. rewrite gatherPartialsGo_generic.
    apply (walk_fuel tag_s (fun _ source => source) (goFuncName templateName) load
             (fun k => k) (fun _ source => source)
             ltac:(reflexivity) ltac:(reflexivity) (goFuncName_nonempty templateName)
             (list_to_set names)).
    + intros k tree t Hk Htree Ht Href. apply elem_of_list_to_set.
      apply elem_of_list_to_set in Hk. eapply Hclosed; eauto.
    + apply resolverInit_inv.
    + intros t Ht Href. apply elem_of_list_to_set. auto.
    + apply resolver_fuel_list.
  - intros keys Htags Hclosed. rewrite gatherPartialsJS_generic.
    apply (walk_fuel keyJS (fun t source => indent source (tag_indent t)) jsFuncName load
             fst (fun k source => indent source (snd k))
             ltac:(reflexivity) ltac:(reflexivity) jsFuncName_nonempty
             (list_to_set keys)).
    + intros k tree t Hk Htree Ht Href. apply elem_of_list_to_set.
      apply elem_of_list_to_set in Hk. eapply Hclosed; eauto.
    + apply resolverInit_inv.
    + intros t Ht Href. apply elem_of_list_to_set. auto.
    + apply resolver_fuel_list.
Qed.

(** The partial [a] includes itself. *)
Lemma gatherPartials_terminates_witness :
  gatherPartialsGo 1 (fun _ => Source "{{>a}}") "T" [mkTag partial "a" "" []] resolverInit
  <> OutOfFuel.
Proof.
  refine (proj1 (gatherPartials_terminates (fun _ => Source "{{>a}}")
                   [mkTag partial "a" "" []]) "T" ["a"] _ _).
  - intros t Ht _. apply list_elem_of_singleton in Ht. subst t. apply list_elem_of_here.
  - intros name tree t _ Htree Ht _. injection Htree as <-.
    apply list_elem_of_singleton in Ht. subst t. apply list_elem_of_here.
Defined.

Section ResolverErrors.

Context {K : Type} {EqK : EqDecision K} {CountK : Countable K}.
Variable keyOf : tag -> K.
Variable prep : tag -> string -> string.
Variable fmtName : nat -> string.
Variable load : string -> loadResult.

(** An error of the walk is the error of a call of [load] or of [parse]
    that it made for a reference. *)
Lemma walk_errors fuel : forall ts (r : resolver K) e,
  gatherWalk (knownG keyOf) (registerG keyOf prep fmtName load) fuel ts r = Err e ->
  (exists t, isReference t = true
     /\ exists msg, e = LoadFailed msg /\ load (tag_s t) = LoadError msg)
  \/ (exists t source pe, isReference t = true /\ e = PartialFailed (tag_s t) pe
        /\ load (tag_s t) = Source source /\ parse (prep t source) = Err pe).
Proof.
  induction fuel as [fuel IHf] using lt_wf_ind.
  induction ts as [|t ts IHt]; intros r e; [now rewrite gatherWalk_nil|].
  rewrite gatherWalk_cons.
  destruct (isReference t) eqn:Href; [|apply IHt].
  destruct (knownG keyOf t r); [apply IHt|].
  destruct (registerG keyOf prep fmtName load t r) as [[r1 tree]|e1|] eqn:Hreg;
    cbn [bind]; [| |discriminate].
  - destruct fuel as [|fuel']; [discriminate|].
    destruct (gatherWalk _ _ fuel' (walkTags tree) r1) as [r2|e2|] eqn:Hrun; cbn [bind];
      [apply IHt| |discriminate].
    intros [= <-]. eapply IHf; [|exact Hrun]. lia.
  - intros [= <-]. revert Hreg. unfold registerG.
    destruct (load (tag_s t)) as [source|msg] eqn:Hload.
    + destruct (parse (prep t source)) as [pt|pe|] eqn:Hparse; try discriminate.
      * destruct (internTree _ _). discriminate.
      * intros [= <-]. right. exists t, source, pe. auto.
    + intros [= <-]. left. exists t. split; [exact Href|]. eauto.
Qed.

(** The first reference of the tags is loaded and parsed first: an error
    there is the error of the walk, whatever the other partials are. *)
Lemma walk_first_error fuel : forall ts t rest,
  references ts = t :: rest ->
  match load (tag_s t) with
  | LoadError msg =>
    gatherWalk (knownG keyOf) (registerG keyOf prep fmtName load) fuel ts resolverInit
    = Err (LoadFailed msg)
  | Source source =>
    forall pe, parse (prep t source) = Err pe ->
      gatherWalk (knownG keyOf) (registerG keyOf prep fmtName load) fuel ts resolverInit
      = Err (PartialFailed (tag_s t) pe)
  end.
Proof.
  induction ts as [|u ts IHt]; intros t rest; [discriminate|].
  unfold references. cbn [List.filter]. rewrite gatherWalk_cons.
  destruct (isReference u) eqn:Href; [|apply IHt].
  intros [= -> _]. unfold knownG at 1, mapGet. cbn [resolverInit partialFuncNames].
  rewrite lookup_empty. cbn. unfold registerG.
  destruct (load (tag_s t)) as [source|msg]; [|reflexivity].
  intros pe ->. reflexivity.
Qed.

End ResolverErrors.

(** X18: an error of the resolver is the error of a call of [load], passed
    on as it is, or the error of [parse] on the source of a partial, reported
    with the name of the partial; and an error for the first reference of the
    template is the error of the resolver. *)
Theorem gatherPartials_errors (fuel : nat) (load : string -> loadResult)
    (templateName : string) (tags : list tag) :
  (forall e, gatherPartialsGo fuel load templateName tags resolverInit = Err e ->
     (exists name msg, e = LoadFailed msg /\ load name = LoadError msg)
     \/ (exists name source pe, e = PartialFailed name pe
           /\ load name = Source source /\ parse source = Err pe))
  /\ (forall e, gatherPartialsJS fuel load tags resolverInit = Err e ->
        (exists name msg, e = LoadFailed msg /\ load name = LoadError msg)
        \/ (exists name ind source pe, e = PartialFailed name pe
              /\ load name = Source source /\ parse (indent source ind) = Err pe))
  /\ (forall t rest msg, references (walkTags tags) = t :: rest ->
        load (tag_s t) = LoadError msg ->
        gatherPartialsGo fuel load templateName tags resolverInit = Err (LoadFailed msg)
        /\ gatherPartialsJS fuel load tags resolverInit = Err (LoadFailed msg))
  /\ (forall t rest source pe, references (walkTags tags) = t :: rest ->
        load (tag_s t) = Source source -> parse source = Err pe ->
        gatherPartialsGo fuel load templateName tags resolverInit
        = Err (PartialFailed (tag_s t) pe)).
Proof.
  split; [|split; [|split]].
  - intros e. rewrite gatherPartialsGo_generic. intros Hrun.
    apply walk_errors in Hrun as [(t & _ & msg & -> & Hl)|(t & source & pe & _ & -> & Hl & Hp)].
    + left. eauto.
    + right. exists (tag_s t), source, pe. auto.
  - intros e. rewrite gatherPartialsJS_generic. intros Hrun.
    apply walk_errors in Hrun as [(t & _ & msg & -> & Hl)|(t & source & pe & _ & -> & Hl & Hp)].
    + left. eauto.
    + right. exists (tag_s t), (tag_indent t), source, pe. auto.
  - intros t rest msg Href Hload. rewrite gatherPartialsGo_generic, gatherPartialsJS_generic.
    split.
    + pose proof (walk_first_error tag_s (fun _ source => source) (goFuncName templateName)
                    load fuel _ _ _ Href) as H. now rewrite Hload in H.
    + pose proof (walk_first_error keyJS (fun t source => indent source (tag_indent t))
                    jsFuncName load fuel _ _ _ Href) as H. now rewrite Hload in H.
  - intros t rest source pe Href Hload Hparse. rewrite gatherPartialsGo_generic.
    pose proof (walk_first_error tag_s (fun _ source => source) (goFuncName templateName)
                  load fuel _ _ _ Href) as H. rewrite Hload in H. now apply H.
Qed.

(** The partial [a] has an unclosed section. *)
Lemma gatherPartials_errors_witness :
  gatherPartialsGo 1 (fun _ => Source "{{#x}}") "T" [mkTag partial "a" "" []] resolverInit
  = Err (PartialFailed "a" (AtLine 1 (Unclosed "x"))).
Proof.
  exact (proj2 (proj2 (proj2 (gatherPartials_errors 1 (fun _ => Source "{{#x}}") "T"
                                [mkTag partial "a" "" []])))
           (mkTag partial "a" "" []) [] "{{#x}}" (AtLine 1 (Unclosed "x"))
           eq_refl eq_refl eq_refl).
Defined.

Lemma js_gatherPartials_generic fuel load tags r :
  js.gatherPartials fuel load tags r =
  gatherWalk (knownG tag_s) (registerG tag_s (fun _ source => source) jsFuncName load)
    fuel (walkTags tags) r.
Proof. apply gatherWalk_ext; reflexivity. Qed.

(** X19: the resolver of js.go calls [load] and [parse] once for each
    partial name, in the same order, the first call being for the first
    reference in pre-order; every reference of the template and of every
    partial that was parsed has a function name, which names the one function
    emitted for the tree of the partial. *)
Theorem js_partials_resolved_once (fuel : nat) (load : string -> loadResult)
    (tags : list tag) (r : resolver string) :
  js.gatherPartials fuel load tags resolverInit = Ok r ->
  NoDup (loads r) /\ parses r = loads r
  /\ (forall name, name ∈ loads r <-> is_Some (partialFuncNames r !! name))
  /\ head (loads r) = head (map tag_s (references (walkTags tags)))
  /\ resolved tag_s (walkTags tags) r
  /\ (forall name tree, is_Some (partialFuncNames r !! name) ->
        partialTreeGo load name = Some tree -> resolved tag_s (walkTags tree) r)
  /\ (forall name f, partialFuncNames r !! name = Some f ->
        exists i tree, f = jsFuncName i /\ partials r !! i = Some tree
                       /\ partialTreeGo load name = Some tree).
Proof.
  rewrite js_gatherPartials_generic. intros Hrun.
  destruct (walk_spec tag_s (fun _ source => source) jsFuncName load
              (fun k => k) (fun _ source => source)
              ltac:(reflexivity) ltac:(reflexivity) jsFuncName_nonempty
              fuel _ _ _ (resolverInit_inv _ _ _ _) Hrun)
    as ((_ & Hnames & Hnd & Hdom & Hloads) & _ & Hres & Hcl & new & Hp & Hhead).
  cbn in Hp. subst new. rewrite firstUnknown_init in Hhead.
  rewrite map_id in Hloads. rewrite Hloads.
  split; [exact Hnd|]. split; [reflexivity|]. split; [exact Hdom|].
  split; [exact Hhead|]. split; [exact Hres|]. split; [|exact Hnames].
  intros name tree Hname Htree. apply (Hcl name tree); auto.
Qed.

(** The template refers to the partial [p] with two indentations. *)
Lemma js_partials_resolved_once_witness :
  exists r,
    js.gatherPartials 1 (fun _ => Source "")
      [mkTag partial "p" " " []; mkTag partial "p" "" []] resolverInit = Ok r
    /\ loads r = ["p"] /\ NoDup (loads r).
Proof.
  eexists. split; [vm_compute; reflexivity|]. split; [reflexivity|].
  refine (proj1 (js_partials_resolved_once 1 (fun _ => Source "")
                   [mkTag partial "p" " " []; mkTag partial "p" "" []] _ _)).
  vm_compute. reflexivity.
Defined.

Section ResolverOrder.

Context {K : Type} {EqK : EqDecision K} {CountK : Countable K}.
Variable keyOf : tag -> K.
Variable prep : tag -> string -> string.
Variable fmtName : nat -> string.
Variable load : string -> loadResult.
Variable nameOf : K -> string.
Variable textOf : K -> string -> string.

Hypothesis key_name : forall t, nameOf (keyOf t) = tag_s t.
Hypothesis key_text : forall t source, textOf (keyOf t) source = prep t source.
Hypothesis fmt_nonempty : forall i, fmtName i <> EmptyString.

(** What every registration of a partial keeps, the walk keeps. *)
Lemma walk_preserves (P : resolver K -> Prop) :
  (forall t r r' tree,
     resolverInv fmtName load nameOf textOf r -> P r ->
     partialFuncNames r !! keyOf t = None ->
     registerG keyOf prep fmtName load t r = Ok (r', tree) -> P r') ->
  forall fuel ts r r',
    resolverInv fmtName load nameOf textOf r -> P r ->
    gatherWalk (knownG keyOf) (registerG keyOf prep fmtName load) fuel ts r = Ok r' -> P r'.
Proof.
  intros Hstep. induction fuel as [fuel IHf] using lt_wf_ind.
  induction ts as [|t ts IHt]; intros r r' Hinv HP;
    [rewrite gatherWalk_nil; now intros [= <-]|].
  rewrite gatherWalk_cons.
  destruct (isReference t) eqn:Href; [|now apply IHt].
  destruct (knownG keyOf t r) eqn:Hknown; [now apply IHt|].
  assert (Hnone : partialFuncNames r !! keyOf t = None).
  { destruct (partialFuncNames r !! keyOf t) eqn:E; [|reflexivity].
    assert (knownG keyOf t r = true)
      by (apply (knownG_spec keyOf fmtName load nameOf textOf fmt_nonempty); eauto).
    congruence. }
  destruct (registerG keyOf prep fmtName load t r) as [[r1 tree]|e|] eqn:Hreg;
    cbn [bind]; try discriminate.
  destruct (registerG_spec keyOf prep fmtName load nameOf textOf key_name key_text
              _ _ _ _ Hinv Hnone Hreg) as (Hinv1 & _).
  pose proof (Hstep _ _ _ _ Hinv HP Hnone Hreg) as HP1.
  destruct fuel as [|fuel']; [discriminate|].
  destruct (gatherWalk _ _ fuel' (walkTags tree) r1) as [r2|e|] eqn:Hrun; cbn [bind];
    try discriminate.
  destruct (walk_spec keyOf prep fmtName load nameOf textOf key_name key_text fmt_nonempty
              fuel' _ _ _ Hinv1 Hrun) as (Hinv2 & _).
  apply IHt; [exact Hinv2|].
  exact (IHf fuel' ltac:(lia) (walkTags tree) r1 r2 Hinv1 HP1 Hrun).
Qed.

(** Every tree of [partials] is the tree of a partial that has the function
    name of its index. *)
Lemma walk_functions_used fuel ts (r r' : resolver K) :
  resolverInv fmtName load nameOf textOf r ->
  (forall i tree, partials r !! i = Some tree ->
     exists k, partialFuncNames r !! k = Some (fmtName i)
               /\ treeOfKey load nameOf textOf k = Some tree) ->
  gatherWalk (knownG keyOf) (registerG keyOf prep fmtName load) fuel ts r = Ok r' ->
  forall i tree, partials r' !! i = Some tree ->
    exists k, partialFuncNames r' !! k = Some (fmtName i)
              /\ treeOfKey load nameOf textOf k = Some tree.
Proof.
  apply (walk_preserves (fun r => forall i tree, partials r !! i = Some tree ->
           exists k, partialFuncNames r !! k = Some (fmtName i)
                     /\ treeOfKey load nameOf textOf k = Some tree)).
  intros t r0 r1 tree0 Hinv HP Hnone Hreg.
  destruct (registerG_spec keyOf prep fmtName load nameOf textOf key_name key_text
              _ _ _ _ Hinv Hnone Hreg) as (_ & Htree & _).
  revert Hreg. unfold registerG.
  destruct (load (tag_s t)) as [source|msg]; [|discriminate].
  destruct (parse (prep t source)) as [pt|pe|]; try discriminate.
  cbn [logLoad logParse partials partialFuncNames loads parses]. unfold internTree.
  destruct (indexOfTree (partials r0) pt) as [j|] eqn:Hidx; intros [= <- <-];
    cbn [partials partialFuncNames]; intros i tree Hi.
  - destruct (HP i tree Hi) as (k & Hk & Hktree). exists k. split; [|exact Hktree].
    rewrite lookup_insert_ne; [exact Hk|]. intros E. rewrite E in Hnone. congruence.
  - destruct (decide (i < length (partials r0))) as [Hlt|Hge].
    + rewrite lookup_app_l in Hi by exact Hlt.
      destruct (HP i tree Hi) as (k & Hk & Hktree). exists k. split; [|exact Hktree].
      rewrite lookup_insert_ne; [exact Hk|]. intros E. rewrite E in Hnone. congruence.
    + rewrite lookup_app_r in Hi by lia.
      destruct (i - length (partials r0)) as [|d] eqn:Hd; [|destruct d; discriminate].
      injection Hi as <-. assert (i = length (partials r0)) by lia. subst i.
      exists (keyOf t). split; [apply lookup_insert_eq|exact Htree].
Qed.

(** The partial of the first reference is function 0. *)
Lemma walk_first_index fuel : forall ts t rest (r : resolver K),
  references ts = t :: rest ->
  gatherWalk (knownG keyOf) (registerG keyOf prep fmtName load) fuel ts resolverInit = Ok r ->
  partialFuncNames r !! keyOf t = Some (fmtName 0)
  /\ partials r !! 0 = treeOfKey load nameOf textOf (keyOf t).
Proof.
  induction ts as [|u ts IHt]; intros t rest r; [discriminate|].
  unfold references. cbn [List.filter]. rewrite gatherWalk_cons.
  destruct (isReference u) eqn:Href; [|apply IHt].
  intros [= -> _]. unfold knownG at 1, mapGet. cbn [resolverInit partialFuncNames].
  rewrite lookup_empty. cbn [default String.eqb negb].
  destruct (registerG keyOf prep fmtName load t resolverInit) as [[r1 tree]|e|] eqn:Hreg;
    cbn [bind]; try discriminate.
  destruct (registerG_spec keyOf prep fmtName load nameOf textOf key_name key_text
              _ _ _ _ (resolverInit_inv _ _ _ _) (lookup_empty _) Hreg)
    as (Hinv1 & Htree & _).
  assert (H1 : partialFuncNames r1 !! keyOf t = Some (fmtName 0) /\ partials r1 !! 0 = Some tree).
  { revert Hreg. unfold registerG.
    destruct (load (tag_s t)) as [source|msg]; [|discriminate].
    destruct (parse (prep t source)) as [pt|pe|]; try discriminate.
    cbn. intros [= <- <-]. cbn. split; [apply lookup_insert_eq|reflexivity]. }
  destruct fuel as [|fuel']; [discriminate|].
  destruct (gatherWalk _ _ fuel' (walkTags tree) r1) as [r2|e|] eqn:Hrun; cbn [bind];
    try discriminate.
  intros Hrest. rewrite Htree.
  assert (Hkeep : forall fuel0 ts0 ra rb,
            resolverInv fmtName load nameOf textOf ra ->
            partialFuncNames ra !! keyOf t = Some (fmtName 0) /\ partials ra !! 0 = Some tree ->
            gatherWalk (knownG keyOf) (registerG keyOf prep fmtName load) fuel0 ts0 ra = Ok rb ->
            partialFuncNames rb !! keyOf t = Some (fmtName 0) /\ partials rb !! 0 = Some tree).
  { apply (walk_preserves (fun r0 => partialFuncNames r0 !! keyOf t = Some (fmtName 0)
                                     /\ partials r0 !! 0 = Some tree)).
    intros u r0 r0' tree0 Hinv0 [Ha Hb] Hnone0 Hreg0. revert Hreg0. unfold registerG.
    destruct (load (tag_s u)) as [source|msg]; [|discriminate].
    destruct (parse (prep u source)) as [pt|pe|]; try discriminate.
    cbn [logLoad logParse partials partialFuncNames loads parses].
    destruct (internTree (partials r0) pt) as [ps i] eqn:Hin. intros [= <- <-].
    cbn [partials partialFuncNames].
    apply internTree_spec in Hin as (_ & _ & Hk).
    split; [rewrite lookup_insert_ne; [exact Ha|intros E; rewrite E in Hnone0; congruence]
           |now apply Hk]. }
  destruct (walk_spec keyOf prep fmtName load nameOf textOf key_name key_text fmt_nonempty
              fuel' _ _ _ Hinv1 Hrun) as (Hinv2 & _).
  refine (Hkeep (S fuel') ts r2 r Hinv2 _ Hrest).
  exact (Hkeep fuel' (walkTags tree) r1 r2 Hinv1 H1 Hrun).
Qed.

End ResolverOrder.

(** X20: the functions of the partials are numbered in the order in which
    the partials are met: the partial of the first reference in pre-order is
    function 0, and every function emitted is the function of a partial that
    is referred to, under the name made from its index. *)
Theorem partials_first_encounter (fuel : nat) (load : string -> loadResult) (tags : list tag) :
  (forall templateName r,
     gatherPartialsGo fuel load templateName tags resolverInit = Ok r ->
     (forall t rest, references (walkTags tags) = t :: rest ->
        partialFuncNames r !! tag_s t = Some (goFuncName templateName 0)
        /\ partials r !! 0 = partialTreeGo load (tag_s t))
     /\ (forall i tree, partials r !! i = Some tree ->
           exists name, partialFuncNames r !! name = Some (goFuncName templateName i)
                        /\ partialTreeGo load name = Some tree))
  /\ (forall r,
        gatherPartialsJS fuel load tags resolverInit = Ok r ->
        (forall t rest, references (walkTags tags) = t :: rest ->
           partialFuncNames r !! keyJS t = Some (jsFuncName 0)
           /\ partials r !! 0 = partialTreeJS load (keyJS t))
        /\ (forall i tree, partials r !! i = Some tree ->
              exists k, partialFuncNames r !! k = Some (jsFuncName i)
                        /\ partialTreeJS load k = Some tree)).
Proof.
  split.
  - intros templateName r. rewrite gatherPartialsGo_generic. intros Hrun. split.
    + intros t rest Href.
      exact (walk_first_index tag_s (fun _ source => source) (goFuncName templateName) load
               (fun k => k) (fun _ source => source)
               ltac:(reflexivity) ltac:(reflexivity) (goFuncName_nonempty templateName)
               fuel _ t rest r Href Hrun).
    + apply (walk_functions_used tag_s (fun _ source => source) (goFuncName templateName) load
               (fun k => k) (fun _ source => source)
               ltac:(reflexivity) ltac:(reflexivity) (goFuncName_nonempty templateName)
               fuel (walkTags tags) resolverInit r (resolverInit_inv _ _ _ _)); [|exact Hrun].
      intros i tree Hi. cbn in Hi. now rewrite lookup_nil in Hi.
  - intros r. rewrite gatherPartialsJS_generic. intros Hrun. split.
    + intros t rest Href.
      exact (walk_first_index keyJS (fun t source => indent source (tag_indent t)) jsFuncName
               load fst (fun k source => indent source (snd k))
               ltac:(reflexivity) ltac:(reflexivity) jsFuncName_nonempty
               fuel _ t rest r Href Hrun).
    + apply (walk_functions_used keyJS (fun t source => indent source (tag_indent t))
               jsFuncName load fst (fun k source => indent source (snd k))
               ltac:(reflexivity) ltac:(reflexivity) jsFuncName_nonempty
               fuel (walkTags tags) resolverInit r (resolverInit_inv _ _ _ _)); [|exact Hrun].
      intros i tree Hi. cbn in Hi. now rewrite lookup_nil in Hi.
Qed.

Lemma partials_first_encounter_witness :
  exists r,
    gatherPartialsGo 2 exampleLoad "T" exampleTags resolverInit = Ok r
    /\ partialFuncNames r !! "a" = Some "_T_p0"
    /\ partials r !! 0 = partialTreeGo exampleLoad "a".
Proof.
  destruct (gatherPartialsGo 2 exampleLoad "T" exampleTags resolverInit) as [r| |] eqn:Hrun;
    try (exfalso; vm_compute in Hrun; discriminate).
  exists r. split; [reflexivity|].
  exact (proj1 (proj1 (partials_first_encounter 2 exampleLoad exampleTags) "T" r Hrun)
           (mkTag partial "a" "" []) [mkTag partial "b" "" []; mkTag partial "a" "" []]
           eq_refl).
Defined.

(** ** The indentation of the source of a partial *)

Lemma cat_cons x l : cat (x :: l) = x +:+ cat l.
Proof.
  unfold cat. destruct l as [|y l]; cbn [String.concat]; [now rewrite append_nil_r|].
  reflexivity.
Qed.

Lemma indentLoop_lines ind fuel : forall s,
  s <> EmptyString -> String.length s < fuel ->
  indentLoop fuel s ind = cat (map (fun line => ind +:+ line) (sourceLines s)).
Proof.
  induction fuel as [|fuel IH]; intros s Hne Hlen; [lia|].
  rewrite sourceLines_step by exact Hne. cbn [map]. rewrite cat_cons.
  cbn [indentLoop]. unfold indexNextLine.
  destruct (gostrings.IndexByte s nl) as [i|] eqn:Hi.
  - pose proof (IndexByte_lt _ _ _ Hi) as Hlt. rewrite Nat.add_1_r, substr_0.
    destruct (S i =? String.length s) eqn:E.
    + apply Nat.eqb_eq in E. rewrite (sdrop_all (S i) s) by lia.
      cbn. now rewrite append_nil_r.
    + apply Nat.eqb_neq in E. rewrite IH.
      * now rewrite append_assoc.
      * intros Hd. apply (f_equal String.length) in Hd. rewrite length_sdrop in Hd.
        cbn in Hd. lia.
      * rewrite length_sdrop. lia.
  - rewrite stake_all, sdrop_all by lia. cbn. now rewrite append_nil_r.
Qed.

(** X21: [indent] puts the indentation before every line of the source,
    the last line included when it has no line terminator; an empty
    indentation leaves the source as it is, and an empty source gives the
    indentation alone. *)
Theorem indent_every_line (s ind : string) :
  indent s EmptyString = s
  /\ (ind <> EmptyString ->
      indent EmptyString ind = ind
      /\ (s <> EmptyString ->
          indent s ind = cat (map (fun line => ind +:+ line) (sourceLines s))
          /\ String.length (indent s ind)
             = String.length s + String.length ind * length (sourceLines s))).
Proof.
  split; [reflexivity|]. intros Hind.
  assert (Heq : String.eqb ind "" = false) by now apply String.eqb_neq.
  unfold indent. rewrite Heq. split.
  - cbn. now rewrite append_nil_r.
  - intros Hne. rewrite indentLoop_lines by (auto; lia). split; [reflexivity|].
    assert (Hgen : forall n t, String.length t <= n ->
              String.length (cat (map (fun line => ind +:+ line) (sourceLines t)))
              = String.length t + String.length ind * length (sourceLines t)).
    { induction n as [|n IH]; intros t Ht.
      - apply Nat.le_0_r, length_zero_empty in Ht. subst t. cbn. lia.
      - destruct t as [|c t]; [cbn; lia|].
        rewrite sourceLines_step by discriminate. cbn [map length].
        rewrite cat_cons, !length_append, IH.
        + rewrite length_stake, length_sdrop.
          pose proof (indexNextLine_le (String c t)). lia.
        + rewrite length_sdrop.
          pose proof (indexNextLine_pos (String c t) ltac:(discriminate)).
          cbn [String.length] in *. lia. }
    apply (Hgen (String.length s)). lia.
Qed.

Lemma indent_every_line_witness :
  indent ("a" +:+ String nl "b") "  " = "  a" +:+ String nl "  b".
Proof.
  exact (proj1 (proj2 (proj2 (indent_every_line ("a" +:+ String nl "b") "  ")
                         ltac:(discriminate)) ltac:(discriminate))).
Defined.

(** ** The parser of mustachejsc.go *)

Lemma lastIndexByte_spec c : forall s i,
  mustachejsc.lastIndexByte s c = Some i ->
  i < String.length s /\ byteAt s i = c
  /\ forall p, i < p -> p < String.length s -> byteAt s p <> c.
Proof.
  induction s as [|b s IH]; intros i; cbn [mustachejsc.lastIndexByte]; [discriminate|].
  destruct (mustachejsc.lastIndexByte s c) as [j|] eqn:E.
  - intros [= <-]. destruct (IH j eq_refl) as (H1 & H2 & H3). cbn [String.length].
    split; [lia|]. split; [exact H2|].
    intros [|p] Hp Hlt; [lia|]. unfold byteAt. cbn [sdrop]. apply H3; lia.
  - destruct (Ascii.eqb b c) eqn:Eb; [|discriminate]. intros [= <-].
    apply Ascii.eqb_eq in Eb. subst b. cbn [String.length].
    split; [lia|]. split; [reflexivity|].
    intros [|p] Hp Hlt; [lia|]. unfold byteAt. cbn [sdrop].
    clear -E Hlt. revert p Hlt. induction s as [|d s IHs]; intros p Hlt; [simpl in Hlt; lia|].
    cbn [mustachejsc.lastIndexByte] in E.
    destruct (mustachejsc.lastIndexByte s c) eqn:E'; [discriminate|].
    destruct (Ascii.eqb d c) eqn:Ed; [discriminate|].
    destruct p as [|p]; cbn [sdrop].
    + intros ->. now rewrite Ascii.eqb_refl in Ed.
    + apply IHs; [reflexivity|simpl in Hlt; lia].
Qed.

Lemma lastIndexByte_None c : forall s,
  mustachejsc.lastIndexByte s c = None ->
  forall p, p < String.length s -> byteAt s p <> c.
Proof.
  induction s as [|b r IH]; intros Hi p Hp; [simpl in Hp; lia|].
  cbn [mustachejsc.lastIndexByte] in Hi.
  destruct (mustachejsc.lastIndexByte r c) eqn:E; [discriminate|].
  destruct (Ascii.eqb b c) eqn:Eb; [discriminate|].
  destruct p as [|p]; unfold byteAt; cbn [sdrop].
  - intros ->. now rewrite Ascii.eqb_refl in Eb.
  - apply IH; [reflexivity|simpl in Hp; lia].
Qed.

Lemma old_base_appendLiteral st text :
  mustachejsc.base (mustachejsc.appendLiteral st text) = mustachejsc.base st
  /\ mustachejsc.prevStandalone (mustachejsc.appendLiteral st text)
     = mustachejsc.prevStandalone st.
Proof.
  unfold mustachejsc.appendLiteral. destruct (String.eqb text ""); split; reflexivity.
Qed.

Lemma old_isStandalone_next s tagStart tagEnd ple nls ins ind :
  mustachejsc.isStandalone s tagStart tagEnd = Some (ple, nls, ins, ind) ->
  tagEnd <= String.length s ->
  tagEnd <= nls <= String.length s
  /\ (nls = String.length s \/ byteAt s (nls - 1) = nl).
Proof.
  unfold mustachejsc.isStandalone.
  destruct (match mustachejsc.lastIndexByte (substr s 0 tagStart) nl with
            | Some i => _ | None => _ end) as [[lineStart prevLineEnd] insert].
  destruct (gostrings.Index (sdrop tagEnd s) (String nl EmptyString)) as [i|] eqn:Hi.
  - destruct (_ || _); [discriminate|]. intros [= _ <- _ _] Hle.
    pose proof (Index_bounds _ _ _ Hi) as Hb. rewrite length_sdrop in Hb. cbn in Hb.
    split; [lia|]. right. apply Index_Some_spec in Hi as [Hp _].
    rewrite sdrop_sdrop in Hp. replace (tagEnd + i + 1 - 1) with (tagEnd + i) by lia.
    unfold byteAt. destruct (sdrop (tagEnd + i) s) as [|b r]; [discriminate|].
    cbn [gostrings.HasPrefix] in Hp. apply andb_true_iff in Hp as [Hp _].
    apply Ascii.eqb_eq in Hp. now subst.
  - destruct (_ || _); [discriminate|]. intros [= _ <- _ _] Hle. split; [lia|now left].
Qed.

Lemma old_literals_base st s search special tagStart tagEnd st1 indent :
  mustachejsc.literals st s search special tagStart tagEnd = (st1, indent) ->
  0 < tagEnd -> mustachejsc.base st + tagEnd <= String.length s ->
  mustachejsc.base st < mustachejsc.base st1.
Proof.
  intros H Hpos Hle. unfold mustachejsc.literals in H.
  assert (Hplain : forall st0 ind0,
            (mustachejsc.setBase
               (mustachejsc.appendLiteral st (substr search 0 tagStart))
               (mustachejsc.base st + tagEnd), EmptyString) = (st0, ind0) ->
            mustachejsc.base st < mustachejsc.base st0).
  { intros st0 ind0 [= <- _]. cbn [mustachejsc.setBase mustachejsc.base]. lia. }
  destruct (mustachejsc.standaloneSigil special); [|now apply (Hplain st1 indent)].
  destruct (mustachejsc.isStandalone s _ _) as [[[[ple nls] ins] ind]|] eqn:Hsa;
    [|now apply (Hplain st1 indent)].
  apply old_isStandalone_next in Hsa as [Hn _]; [|exact Hle].
  injection H as <- _. cbn [mustachejsc.base]. lia.
Qed.

Lemma old_applyTag_base st s special key indent st' :
  mustachejsc.applyTag st s special key indent = Ok st' ->
  mustachejsc.base st <= mustachejsc.base st'.
Proof.
  unfold mustachejsc.applyTag.
  repeat match goal with
         | |- context [if Ascii.eqb special ?c then _ else _] =>
           destruct (Ascii.eqb special c)
         end;
    try (intros [= <-]; cbn; lia).
  - destruct (mustachejsc.below st) as [|p rest]; [discriminate|].
    destruct (negb _); [discriminate|]. intros [= <-]. cbn. lia.
  - destruct (gostrings.HasPrefix _ "}"); intros [= <-]; cbn; lia.
Qed.

(** A pass of the loop that does not leave it moves [base] forward. *)
Lemma old_step_progress s st st' :
  mustachejsc.step s st = Ok (st', true) ->
  mustachejsc.base st < mustachejsc.base st' /\ mustachejsc.base st < String.length s.
Proof.
  unfold mustachejsc.step.
  destruct (gostrings.Index (sdrop (mustachejsc.base st) s) mustachejsc.startDelim)
    as [tagStart|] eqn:Hts; [|discriminate].
  pose proof (Index_bounds _ _ _ Hts) as Hb1. rewrite length_sdrop in Hb1.
  cbn [mustachejsc.startDelim mustachejsc.endDelim String.length] in *.
  destruct (gostrings.Index (sdrop (tagStart + 2) (sdrop (mustachejsc.base st) s))
              mustachejsc.endDelim) as [tagLength|] eqn:Hte; [|discriminate].
  pose proof (Index_bounds _ _ _ Hte) as Hb2. rewrite !length_sdrop in Hb2.
  cbn [mustachejsc.endDelim String.length] in Hb2.
  destruct (mustachejsc.cutTag _ _) as [special key].
  destruct (String.eqb key "").
  - intros [= <-]. cbn [mustachejsc.setBase mustachejsc.base]. lia.
  - destruct (mustachejsc.literals st s _ special tagStart (tagStart + 2 + tagLength + 2))
      as [st1 indent] eqn:Hlit.
    apply old_literals_base in Hlit; [|lia|lia].
    destruct (mustachejsc.applyTag st1 s special key indent) as [st2|e|] eqn:Happ;
      cbn [bind]; try discriminate.
    intros [= <-]. apply old_applyTag_base in Happ. lia.
Qed.

Lemma old_step_fuel s st : mustachejsc.step s st <> OutOfFuel.
Proof.
  unfold mustachejsc.step.
  destruct (gostrings.Index _ mustachejsc.startDelim); [|discriminate].
  destruct (gostrings.Index _ mustachejsc.endDelim); [|discriminate].
  destruct (mustachejsc.cutTag _ _) as [special key].
  destruct (String.eqb key ""); [discriminate|].
  destruct (mustachejsc.literals _ _ _ _ _ _) as [st1 indent].
  destruct (mustachejsc.applyTag st1 s special key indent) as [st2|e|] eqn:Happ;
    cbn [bind]; try discriminate.
  revert Happ. unfold mustachejsc.applyTag.
  repeat match goal with
         | |- context [if Ascii.eqb special ?c then _ else _] =>
           destruct (Ascii.eqb special c)
         end; try discriminate.
  - destruct (mustachejsc.below st1); [discriminate|]. destruct (negb _); discriminate.
  - destruct (gostrings.HasPrefix _ "}"); discriminate.
Qed.

Lemma old_parseLoop_total s fuel : forall st,
  String.length s - mustachejsc.base st < fuel ->
  mustachejsc.parseLoop fuel s st <> OutOfFuel.
Proof.
  induction fuel as [|fuel IH]; intros st Hlt; [lia|].
  cbn [mustachejsc.parseLoop].
  pose proof (old_step_fuel s st) as Hf.
  destruct (mustachejsc.step s st) as [[st' more]|e|] eqn:Hstep; cbn [bind];
    [|discriminate|congruence].
  destruct more.
  - apply old_step_progress in Hstep as [H1 H2]. apply IH. lia.
  - unfold mustachejsc.finish. destruct (mustachejsc.below st'); discriminate.
Qed.

(** X22: the earlier parser returns on every source, with a tree or an
    error: every pass of its loop that does not leave the loop moves [base]
    forward, and [base] is then inside the source. *)
Theorem old_parse_terminates (s : string) :
  mustachejsc.parse s <> OutOfFuel
  /\ forall st st', mustachejsc.step s st = Ok (st', true) ->
       mustachejsc.base st < mustachejsc.base st'
       /\ mustachejsc.base st < String.length s.
Proof.
  split; [apply old_parseLoop_total; cbn; lia|]. intros st st'. apply old_step_progress.
Qed.

Lemma old_parse_terminates_witness :
  mustachejsc.parse "a{{b}}c" <> OutOfFuel
  /\ mustachejsc.base mustachejsc.initState < 6 /\ 0 < String.length "a{{b}}c".
Proof.
  destruct (old_parse_terminates "a{{b}}c") as [H1 H2]. split; [exact H1|].
  exact (H2 mustachejsc.initState
           (mustachejsc.mkState
              (mustachejsc.mkScope "" literal
                 [mkTag literal "a" "" []; mkTag variable "b" "" []])
              [] 6 None)
           eq_refl).
Defined.

(** X23: the earlier parser keeps a source without an open delimiter as
    one literal, and never fails on a tag that is not closed: when the first
    open delimiter has no end delimiter after it, the tree is the one literal
    that starts at this open delimiter, and the text before it is not in the
    tree. *)
Theorem old_parse_without_tag (s : string) :
  (gostrings.Index s "{{" = None ->
   mustachejsc.parse s = Ok (if String.eqb s "" then [] else [mkTag literal s "" []]))
  /\ (forall i, gostrings.Index s "{{" = Some i ->
        gostrings.Index (sdrop (i + 2) s) "}}" = None ->
        mustachejsc.parse s = Ok [mkTag literal (sdrop i s) "" []]).
Proof.
  split.
  - intros Hnone. unfold mustachejsc.parse. cbn [mustachejsc.parseLoop].
    unfold mustachejsc.step. cbn [mustachejsc.initState mustachejsc.base sdrop].
    unfold mustachejsc.startDelim. rewrite Hnone. cbn [bind].
    unfold mustachejsc.appendLiteral. destruct (String.eqb s ""); reflexivity.
  - intros i Hi Hnone. unfold mustachejsc.parse. cbn [mustachejsc.parseLoop].
    unfold mustachejsc.step. cbn [mustachejsc.initState mustachejsc.base sdrop].
    unfold mustachejsc.startDelim, mustachejsc.endDelim. rewrite Hi.
    cbn [String.length]. rewrite Hnone. cbn [bind].
    unfold mustachejsc.appendLiteral.
    apply Index_bounds in Hi. cbn [String.length] in Hi.
    destruct (sdrop i s) as [|c r] eqn:E; [|reflexivity].
    apply (f_equal String.length) in E. rewrite length_sdrop in E. cbn in E. lia.
Qed.

Lemma old_parse_without_tag_witness :
  mustachejsc.parse "abc{{x" = Ok [mkTag literal "{{x" "" []].
Proof.
  exact (proj2 (old_parse_without_tag "abc{{x") 3 eq_refl eq_refl).
Defined.

(** X24: when the earlier [isStandalone] reports a standalone tag, the text
    between the start of the line and the tag is the indentation it returns,
    which is white space without a line feed; [prevLineEnd], the line
    terminator [insert] and the indentation add up to the start of the tag;
    the text from the end of the tag to the end of its line is white space,
    and [nextLineStart] is the index after that line, inside the source. *)
Theorem old_isStandalone_line (s : string) (tagStart tagEnd ple nls : nat) (ins ind : string) :
  tagStart <= tagEnd -> tagEnd <= String.length s ->
  mustachejsc.isStandalone s tagStart tagEnd = Some (ple, nls, ins, ind) ->
  ple + String.length ins + String.length ind = tagStart
  /\ ind = substr s (tagStart - String.length ind) tagStart
  /\ isSpace ind = true
  /\ (forall p, p < String.length ind -> byteAt ind p <> nl)
  /\ (ins = EmptyString /\ ple = 0
      \/ ins = String nl EmptyString
      \/ ins = String mustachejsc.cr (String nl EmptyString))
  /\ tagEnd <= nls <= String.length s
  /\ exists lineEnd,
       isSpace (substr s tagEnd lineEnd) = true
       /\ (lineEnd = String.length s /\ nls = String.length s
           \/ nls = lineEnd + 1 /\ byteAt s lineEnd = nl).
Proof.
  intros Hle Hlen Hsa. pose proof (old_isStandalone_next _ _ _ _ _ _ _ Hsa Hlen) as [Hn _].
  revert Hsa. unfold mustachejsc.isStandalone.
  assert (Hfirst : exists lineStart prevLineEnd insert,
            match mustachejsc.lastIndexByte (substr s 0 tagStart) nl with
            | Some i =>
              if gostrings.HasSuffix (substr s 0 i) (String mustachejsc.cr EmptyString)
              then (i + 1, i - 1, String mustachejsc.cr (String nl EmptyString))
              else (i + 1, i, String nl EmptyString)
            | None => (0, 0, EmptyString)
            end = (lineStart, prevLineEnd, insert)
            /\ lineStart <= tagStart
            /\ prevLineEnd + String.length insert = lineStart
            /\ (forall p, lineStart <= p -> p < tagStart -> byteAt s p <> nl)
            /\ (insert = EmptyString /\ prevLineEnd = 0
                \/ insert = String nl EmptyString
                \/ insert = String mustachejsc.cr (String nl EmptyString))).
  { destruct (mustachejsc.lastIndexByte (substr s 0 tagStart) nl) as [i|] eqn:Hi.
    - apply lastIndexByte_spec in Hi as (Hi1 & _ & Hi3).
      rewrite substr_0, length_stake in Hi1.
      assert (Hno : forall p, i + 1 <= p -> p < tagStart -> byteAt s p <> nl).
      { intros p Hp1 Hp2. rewrite <- (byteAt_stake tagStart s p Hp2), <- substr_0.
        apply Hi3; [lia|]. rewrite substr_0, length_stake. lia. }
      destruct (gostrings.HasSuffix (substr s 0 i) (String mustachejsc.cr EmptyString)) eqn:Hs.
      + exists (i + 1), (i - 1), (String mustachejsc.cr (String nl EmptyString)).
        split; [reflexivity|]. split; [lia|]. split; [|split; [exact Hno|auto]].
        unfold gostrings.HasSuffix in Hs. apply andb_true_iff in Hs as [Hs _].
        apply Nat.leb_le in Hs. rewrite substr_0, length_stake in Hs.
        cbn [String.length] in *. lia.
      + exists (i + 1), i, (String nl EmptyString).
        split; [reflexivity|]. split; [lia|]. split; [cbn; lia|split; [exact Hno|auto]].
    - exists 0, 0, EmptyString. split; [reflexivity|]. split; [lia|]. split; [reflexivity|].
      split; [|auto]. intros p _ Hp.
      rewrite <- (byteAt_stake tagStart s p Hp), <- substr_0.
      apply (lastIndexByte_None _ _ Hi). rewrite substr_0, length_stake. lia. }
  destruct Hfirst as (lineStart & prevLineEnd & insert & -> & Hls & Hsum & Hno & Hins).
  assert (Hind : String.length (substr s lineStart tagStart) = tagStart - lineStart)
    by (rewrite length_substr; lia).
  assert (Hlast : forall lineEnd nextLineStart,
            (lineEnd = String.length s /\ nextLineStart = String.length s
             \/ nextLineStart = lineEnd + 1 /\ byteAt s lineEnd = nl) ->
            (if gostrings.ContainsFunc (substr s lineStart tagStart) isNonSpace
                || gostrings.ContainsFunc (substr s tagEnd lineEnd) isNonSpace
             then None
             else Some (prevLineEnd, nextLineStart, insert, substr s lineStart tagStart))
            = Some (ple, nls, ins, ind) ->
            ple + String.length ins + String.length ind = tagStart
            /\ ind = substr s (tagStart - String.length ind) tagStart
            /\ isSpace ind = true
            /\ (forall p, p < String.length ind -> byteAt ind p <> nl)
            /\ (ins = EmptyString /\ ple = 0
                \/ ins = String nl EmptyString
                \/ ins = String mustachejsc.cr (String nl EmptyString))
            /\ tagEnd <= nls <= String.length s
            /\ exists lineEnd0,
                 isSpace (substr s tagEnd lineEnd0) = true
                 /\ (lineEnd0 = String.length s /\ nls = String.length s
                     \/ nls = lineEnd0 + 1 /\ byteAt s lineEnd0 = nl)).
  { intros lineEnd nextLineStart Hend.
    destruct (gostrings.ContainsFunc (substr s lineStart tagStart) isNonSpace) eqn:H1;
      [discriminate|].
    destruct (gostrings.ContainsFunc (substr s tagEnd lineEnd) isNonSpace) eqn:H2;
      [discriminate|].
    intros [= <- <- <- <-]. rewrite Hind.
    split; [lia|]. split; [f_equal; lia|]. split; [unfold isSpace; now rewrite H1|].
    split; [|split; [exact Hins|split; [exact Hn|]]].
    - intros p Hp. unfold substr. rewrite byteAt_stake, byteAt_sdrop by lia.
      apply Hno; lia.
    - exists lineEnd. split; [unfold isSpace; now rewrite H2|exact Hend]. }
  destruct (gostrings.Index (sdrop tagEnd s) (String nl EmptyString)) as [i|] eqn:Hi.
  - apply Hlast. right. split; [reflexivity|].
    apply Index_Some_spec in Hi as [Hp _]. rewrite sdrop_sdrop in Hp.
    unfold byteAt. destruct (sdrop (tagEnd + i) s) as [|b r]; [discriminate|].
    cbn [gostrings.HasPrefix] in Hp. apply andb_true_iff in Hp as [Hp _].
    apply Ascii.eqb_eq in Hp. now subst.
  - apply Hlast. now left.
Qed.

Lemma old_isStandalone_line_witness :
  let s := "x" +:+ String nl ("  {{#s}}" +:+ String nl "y") in
  mustachejsc.isStandalone s 4 10 = Some (1, 11, String nl EmptyString, "  ")
  /\ 1 + 1 + 2 = 4.
Proof.
  intros s. split; [reflexivity|].
  exact (proj1 (old_isStandalone_line s 4 10 1 11 (String nl EmptyString) "  "
                  ltac:(lia) ltac:(unfold s; vm_compute; lia) eq_refl)).
Defined.

Lemma old_shaped_appendTag st t :
  mustachejsc.shapeOK t = true -> tag_body t = [] ->
  mustachejsc.shapedState st -> mustachejsc.shapedState (mustachejsc.appendTag st t).
Proof.
  intros Ht Hb [Hsl Hop]. unfold mustachejsc.shapedState, mustachejsc.appendTag in *.
  cbn [mustachejsc.top mustachejsc.below] in *.
  apply Forall_cons in Hsl as [Htop Hbelow]. split.
  - apply Forall_cons. split; [|exact Hbelow]. cbn [mustachejsc.slice].
    rewrite walkTags_app. apply Forall_app. split; [exact Htop|].
    rewrite walkTags_cons, Hb. cbn. apply Forall_cons. split; [exact Ht|apply Forall_nil_2].
  - destruct (mustachejsc.below st) as [|p rest]; [exact Hop|].
    change (removelast (?a :: p :: rest)) with (a :: removelast (p :: rest)) in *.
    apply Forall_cons in Hop as [H1 H2]. apply Forall_cons. split; [exact H1|exact H2].
Qed.

Lemma old_shaped_appendLiteral st text :
  mustachejsc.shapedState st -> mustachejsc.shapedState (mustachejsc.appendLiteral st text).
Proof.
  intros H. unfold mustachejsc.appendLiteral. destruct (String.eqb text "") eqn:E; [exact H|].
  apply old_shaped_appendTag; auto. unfold mustachejsc.shapeOK. cbn. now rewrite E.
Qed.

Lemma old_shaped_frame st st' :
  mustachejsc.top st' = mustachejsc.top st -> mustachejsc.below st' = mustachejsc.below st ->
  mustachejsc.shapedState st -> mustachejsc.shapedState st'.
Proof. unfold mustachejsc.shapedState. now intros -> ->. Qed.

Lemma old_shaped_newScope st ty key :
  isScopeType ty = true -> String.eqb key "" = false ->
  mustachejsc.shapedState st -> mustachejsc.shapedState (mustachejsc.newScope st ty key).
Proof.
  intros Hty Hkey [Hsl Hop]. unfold mustachejsc.shapedState, mustachejsc.newScope in *.
  cbn [mustachejsc.top mustachejsc.below] in *. split.
  - apply Forall_cons. split; [apply Forall_nil_2|exact Hsl].
  - change (removelast (?a :: mustachejsc.top st :: mustachejsc.below st))
      with (a :: removelast (mustachejsc.top st :: mustachejsc.below st)).
    apply Forall_cons. split; [|exact Hop].
    cbn [mustachejsc.opened mustachejsc.name]. now rewrite Hty, Hkey.
Qed.

Lemma old_isStandalone_indent s tagStart tagEnd ple nls ins ind :
  mustachejsc.isStandalone s tagStart tagEnd = Some (ple, nls, ins, ind) ->
  isSpace ind = true.
Proof.
  unfold mustachejsc.isStandalone.
  destruct (match mustachejsc.lastIndexByte (substr s 0 tagStart) nl with
            | Some i => _ | None => _ end) as [[lineStart prevLineEnd] insert].
  destruct (match gostrings.Index (sdrop tagEnd s) (String nl EmptyString) with
            | Some i => _ | None => _ end) as [lineEnd nextLineStart].
  destruct (gostrings.ContainsFunc (substr s lineStart tagStart) isNonSpace) eqn:H1;
    cbn [orb]; [discriminate|].
  destruct (gostrings.ContainsFunc (substr s tagEnd lineEnd) isNonSpace); [discriminate|].
  intros [= _ _ _ <-]. unfold isSpace. now rewrite H1.
Qed.

Lemma old_shaped_literals st s search special tagStart tagEnd st1 indent :
  mustachejsc.literals st s search special tagStart tagEnd = (st1, indent) ->
  mustachejsc.shapedState st ->
  mustachejsc.shapedState st1 /\ isSpace indent = true.
Proof.
  intros H Hst. unfold mustachejsc.literals in H.
  assert (Hplain : (mustachejsc.setBase
                      (mustachejsc.appendLiteral st (substr search 0 tagStart))
                      (mustachejsc.base st + tagEnd), EmptyString) = (st1, indent) ->
                   mustachejsc.shapedState st1 /\ isSpace indent = true).
  { intros [= <- <-]. split; [|reflexivity].
    apply (old_shaped_frame (mustachejsc.appendLiteral st (substr search 0 tagStart)));
      [reflexivity|reflexivity|now apply old_shaped_appendLiteral]. }
  destruct (mustachejsc.standaloneSigil special); [|now apply Hplain].
  destruct (mustachejsc.isStandalone s _ _) as [[[[ple nls] ins] ind]|] eqn:Hsa;
    [|now apply Hplain].
  injection H as <- <-. split.
  - match goal with
    | |- mustachejsc.shapedState (mustachejsc.mkState (mustachejsc.top ?x) _ _ _) =>
      apply (old_shaped_frame x); [reflexivity|reflexivity|]
    end.
    destruct (match mustachejsc.prevStandalone st with Some p => _ | None => _ end);
      [apply old_shaped_appendLiteral|];
      (destruct (mustachejsc.base st <? ple); [now apply old_shaped_appendLiteral|exact Hst]).
  - eapply old_isStandalone_indent; eauto.
Qed.

Lemma old_shaped_applyTag st s special key indent st' :
  String.eqb key "" = false -> isSpace indent = true ->
  mustachejsc.shapedState st ->
  mustachejsc.applyTag st s special key indent = Ok st' ->
  mustachejsc.shapedState st'.
Proof.
  intros Hkey Hind Hst. unfold mustachejsc.applyTag.
  assert (Hleaf : forall ty, (ty = variable \/ ty = rawVariable) ->
            mustachejsc.shapedState (mustachejsc.appendTag st (mkTag ty key "" []))).
  { intros ty Hty. apply old_shaped_appendTag; auto. unfold mustachejsc.shapeOK. cbn.
    rewrite Hkey. now destruct Hty as [-> | ->]. }
  repeat match goal with
         | |- context [if Ascii.eqb special ?c then _ else _] =>
           destruct (Ascii.eqb special c)
         end;
    try (intros [= <-]; first [now apply old_shaped_newScope | exact Hst | now apply Hleaf; auto]).
  - intros [= <-]. apply old_shaped_appendTag; auto. unfold mustachejsc.shapeOK. cbn.
    now rewrite Hkey, Hind.
  - destruct (mustachejsc.below st) as [|p rest] eqn:Hbelow; [discriminate|].
    destruct (negb _); [discriminate|]. intros [= <-]. destruct Hst as [Hsl Hop].
    unfold mustachejsc.shapedState in *. rewrite Hbelow in *.
    cbn [mustachejsc.top mustachejsc.below] in *.
    apply Forall_cons in Hsl as [Htop Hsl]. apply Forall_cons in Hsl as [Hp Hrest].
    change (removelast (mustachejsc.top st :: p :: rest))
      with (mustachejsc.top st :: removelast (p :: rest)) in Hop.
    apply Forall_cons in Hop as [Hstart Hop]. split.
    + apply Forall_cons. split; [|exact Hrest]. cbn [mustachejsc.slice].
      rewrite walkTags_app. apply Forall_app. split; [exact Hp|].
      rewrite walkTags_cons, app_nil_r. cbn [tag_body].
      apply Forall_cons. split; [|exact Htop].
      apply andb_true_iff in Hstart as [Hty Hname]. unfold mustachejsc.shapeOK.
      cbn [tag_tt tag_s tag_indent tag_body]. rewrite Hname.
      destruct (mustachejsc.opened (mustachejsc.top st)); auto; discriminate.
    + destruct rest as [|q rest]; [apply Forall_nil_2|].
      change (removelast (?a :: q :: rest)) with (a :: removelast (q :: rest)) in *.
      apply Forall_cons in Hop as [H1 H2]. apply Forall_cons. split; [exact H1|exact H2].
  - destruct (gostrings.HasPrefix _ "}"); intros [= <-]; [|now apply Hleaf; auto].
    apply (old_shaped_frame (mustachejsc.appendTag st (mkTag rawVariable key "" [])));
      [reflexivity|reflexivity|now apply Hleaf; auto].
Qed.

Lemma old_shaped_step s st st' more :
  mustachejsc.shapedState st -> mustachejsc.step s st = Ok (st', more) ->
  mustachejsc.shapedState st'.
Proof.
  intros Hst. unfold mustachejsc.step.
  destruct (gostrings.Index _ mustachejsc.startDelim) as [tagStart|];
    [|intros [= <- _]; now apply old_shaped_appendLiteral].
  destruct (gostrings.Index _ mustachejsc.endDelim) as [tagLength|];
    [|intros [= <- _]; now apply old_shaped_appendLiteral].
  destruct (mustachejsc.cutTag _ _) as [special key].
  destruct (String.eqb key "") eqn:Hkey.
  - intros [= <- _].
    match goal with
    | |- mustachejsc.shapedState (mustachejsc.setBase ?x _) =>
      apply (old_shaped_frame x); [reflexivity|reflexivity|]
    end. now apply old_shaped_appendLiteral.
  - destruct (mustachejsc.literals _ _ _ _ _ _) as [st1 indent] eqn:Hlit.
    apply old_shaped_literals in Hlit as [Hst1 Hind]; [|exact Hst].
    destruct (mustachejsc.applyTag st1 s special key indent) as [st2|e|] eqn:Happ;
      cbn [bind]; try discriminate.
    intros [= <- _]. eapply old_shaped_applyTag; eauto.
Qed.

Lemma old_shaped_parseLoop s fuel : forall st tags,
  mustachejsc.shapedState st -> mustachejsc.parseLoop fuel s st = Ok tags ->
  Forall (fun t => mustachejsc.shapeOK t = true) (walkTags tags).
Proof.
  induction fuel as [|fuel IH]; intros st tags Hst; cbn [mustachejsc.parseLoop];
    [discriminate|].
  destruct (mustachejsc.step s st) as [[st' more]|e|] eqn:Hstep; cbn [bind]; try discriminate.
  apply old_shaped_step in Hstep; [|exact Hst].
  destruct more; [now apply IH|].
  unfold mustachejsc.finish. destruct (mustachejsc.below st'); [|discriminate].
  intros [= <-]. destruct Hstep as [Hsl _]. now apply Forall_cons in Hsl as [Htop _].
Qed.

(** X25: in a tree that the earlier parser returns every tag has a name
    (a literal its text) that is not empty and no tag is an indent point; only
    section, inverted section, block and parent tags have children; only
    partial tags have an indentation, and it is white space. *)
Theorem old_parse_shape (s : string) (tags : list tag) (t : tag) :
  mustachejsc.parse s = Ok tags -> t ∈ walkTags tags ->
  tag_s t <> EmptyString /\ tag_tt t <> indentPoint
  /\ (tag_body t <> [] -> isScopeType (tag_tt t) = true)
  /\ (tag_indent t <> EmptyString -> tag_tt t = partial)
  /\ isSpace (tag_indent t) = true.
Proof.
  intros Hp Ht. apply old_shaped_parseLoop in Hp.
  2:{ split; cbn; [apply Forall_cons; split; apply Forall_nil_2|apply Forall_nil_2]. }
  rewrite Forall_forall in Hp. specialize (Hp t Ht). unfold mustachejsc.shapeOK in Hp.
  apply andb_true_iff in Hp as [Hname Hp].
  apply negb_true_iff, String.eqb_neq in Hname. split; [exact Hname|].
  destruct t as [ty key ind body]. cbn [tag_tt tag_s tag_indent tag_body] in *.
  destruct ty; cbn [isScopeType]; try discriminate;
    repeat match goal with
           | H : _ && _ = true |- _ => apply andb_true_iff in H as [? ?]
           | H : String.eqb _ _ = true |- _ => apply String.eqb_eq in H; subst
           | H : isNil ?b = true |- _ => destruct b; [clear H|discriminate]
           end;
    repeat split; auto; try congruence.
Qed.

Lemma old_parse_shape_witness :
  "p" <> EmptyString /\ partial <> indentPoint
  /\ (@nil tag <> [] -> isScopeType partial = true)
  /\ ("  " <> EmptyString -> partial = partial)
  /\ isSpace "  " = true.
Proof.
  refine (old_parse_shape ("  {{>p}}" +:+ String nl "x")
            [mkTag partial "p" "  " []; mkTag literal "x" "" []]
            (mkTag partial "p" "  " []) eq_refl _).
  apply list_elem_of_here.
Defined.

(** ** The resolvers of the two backends side by side *)

Section TwoFormats.

Context {K : Type} {EqK : EqDecision K} {CountK : Countable K}.
Variable keyOf : tag -> K.
Variable prep : tag -> string -> string.
Variable load : string -> loadResult.
Variables f1 f2 : nat -> string.

Hypothesis f1_nonempty : forall i, f1 i <> EmptyString.
Hypothesis f2_nonempty : forall i, f2 i <> EmptyString.

Lemma sameResolution_known t (r1 r2 : resolver K) :
  sameResolution f1 f2 r1 r2 -> knownG keyOf t r1 = knownG keyOf t r2.
Proof.
  intros (_ & _ & _ & Hn). unfold knownG, mapGet.
  destruct (Hn (keyOf t)) as [[-> ->]|(i & -> & ->)]; [reflexivity|]. cbn.
  pose proof (f1_nonempty i) as H1. pose proof (f2_nonempty i) as H2.
  apply String.eqb_neq in H1, H2. now rewrite H1, H2.
Qed.

Lemma sameResolution_register t (r1 r2 : resolver K) :
  sameResolution f1 f2 r1 r2 ->
  match registerG keyOf prep f1 load t r1, registerG keyOf prep f2 load t r2 with
  | Ok (a, tree1), Ok (b, tree2) => tree1 = tree2 /\ sameResolution f1 f2 a b
  | Err e1, Err e2 => e1 = e2
  | OutOfFuel, OutOfFuel => True
  | _, _ => False
  end.
Proof.
  intros (Hp & Hl & Hs & Hn). unfold registerG.
  destruct (load (tag_s t)) as [source|msg]; [|reflexivity].
  destruct (parse (prep t source)) as [pt|pe|]; [|reflexivity|exact I].
  cbn [logLoad logParse partials partialFuncNames loads parses]. rewrite Hp.
  destruct (internTree (partials r2) pt) as [ps i]. split; [reflexivity|].
  split; [reflexivity|]. cbn [partials partialFuncNames loads parses].
  split; [now rewrite Hl|]. split; [now rewrite Hs|].
  intros k. destruct (decide (keyOf t = k)) as [<-|Hne].
  - right. exists i. now rewrite !lookup_insert_eq.
  - rewrite !lookup_insert_ne by exact Hne. apply Hn.
Qed.

(** The two walks make the same calls and end alike. *)
Lemma sameResolution_walk fuel : forall ts (r1 r2 : resolver K),
  sameResolution f1 f2 r1 r2 ->
  match gatherWalk (knownG keyOf) (registerG keyOf prep f1 load) fuel ts r1,
        gatherWalk (knownG keyOf) (registerG keyOf prep f2 load) fuel ts r2 with
  | Ok a, Ok b => sameResolution f1 f2 a b
  | Err e1, Err e2 => e1 = e2
  | OutOfFuel, OutOfFuel => True
  | _, _ => False
  end.
Proof.
  induction fuel as [fuel IHf] using lt_wf_ind.
  induction ts as [|t ts IHt]; intros r1 r2 HR; [now rewrite !gatherWalk_nil|].
  rewrite !gatherWalk_cons. destruct (isReference t); [|now apply IHt].
  rewrite (sameResolution_known t r1 r2 HR).
  destruct (knownG keyOf t r2); [now apply IHt|].
  pose proof (sameResolution_register t r1 r2 HR) as Hreg.
  destruct (registerG keyOf prep f1 load t r1) as [[a tree1]|e1|],
           (registerG keyOf prep f2 load t r2) as [[b tree2]|e2|];
    cbn [bind]; try contradiction; try exact Hreg.
  destruct Hreg as [<- Hab]. destruct fuel as [|fuel']; [exact I|].
  pose proof (IHf fuel' ltac:(lia) (walkTags tree1) a b Hab) as Hrec.
  destruct (gatherWalk _ (registerG keyOf prep f1 load) fuel' (walkTags tree1) a) as [a'|e1|],
           (gatherWalk _ (registerG keyOf prep f2 load) fuel' (walkTags tree1) b) as [b'|e2|];
    cbn [bind]; try contradiction; try exact Hrec.
  now apply IHt.
Qed.

End TwoFormats.

(** X26: the resolvers of go.go and of js.go resolve a template alike: with
    the same loader they call [load] and [parse] for the same names in the
    same order, gather the same list of partials, give every name a function
    name made from the same index ([_T_pN] and [pN]), and fail with the same
    error. *)
Theorem backends_resolve_alike (fuel : nat) (load : string -> loadResult)
    (templateName : string) (tags : list tag) :
  (forall rg, gatherPartialsGo fuel load templateName tags resolverInit = Ok rg ->
     exists rj, js.gatherPartials fuel load tags resolverInit = Ok rj
                /\ sameResolution (goFuncName templateName) jsFuncName rg rj)
  /\ (forall e, gatherPartialsGo fuel load templateName tags resolverInit = Err e
                <-> js.gatherPartials fuel load tags resolverInit = Err e).
Proof.
  rewrite gatherPartialsGo_generic, js_gatherPartials_generic.
  pose proof (sameResolution_walk tag_s (fun _ source => source) load
                (goFuncName templateName) jsFuncName
                (goFuncName_nonempty templateName) jsFuncName_nonempty
                fuel (walkTags tags) resolverInit resolverInit) as H.
  assert (Hinit : sameResolution (goFuncName templateName) jsFuncName
                    (resolverInit : resolver string) resolverInit).
  { repeat split. intros k. left. cbn. now rewrite lookup_empty. }
  specialize (H Hinit).
  destruct (gatherWalk _ (registerG tag_s _ (goFuncName templateName) load) fuel
              (walkTags tags) resolverInit) as [a|e1|],
           (gatherWalk _ (registerG tag_s _ jsFuncName load) fuel
              (walkTags tags) resolverInit) as [b|e2|];
    try contradiction; (split; [intros rg Hrg|intros e; split; intros He]);
    try discriminate.
  - injection Hrg as <-. eauto.
  - congruence.
  - congruence.
Qed.

Lemma backends_resolve_alike_witness :
  exists rg rj,
    gatherPartialsGo 2 exampleLoad "T" exampleTags resolverInit = Ok rg
    /\ js.gatherPartials 2 exampleLoad exampleTags resolverInit = Ok rj
    /\ partials rg = partials rj /\ loads rg = loads rj.
Proof.
  destruct (gatherPartialsGo 2 exampleLoad "T" exampleTags resolverInit) as [rg| |] eqn:Hrun;
    try (exfalso; vm_compute in Hrun; discriminate).
  destruct (proj1 (backends_resolve_alike 2 exampleLoad "T" exampleTags) rg Hrun)
    as (rj & Hj & Hp & Hl & _).
  exists rg, rj. auto.
Defined.

(** ** Set delimiter tags, from the delimiters to the tag *)

Ltac decode_cases :=
  repeat match goal with
         | |- context [if ?b then _ else _] => destruct b eqn:?
         | |- context [match ?x with EmptyString => _ | String _ _ => _ end] =>
           destruct x eqn:?
         end.

Lemma inRange_cont lo hi c :
  (128 <= lo)%N -> (hi <= 191)%N -> utf8.cont c = false -> utf8.inRange lo hi c = false.
Proof.
  unfold utf8.cont, utf8.inRange. intros Hlo Hhi H.
  apply andb_false_iff in H. apply andb_false_iff.
  destruct H as [H|H]; [left|right].
  - apply N.leb_gt in H. apply N.leb_gt. lia.
  - apply N.leb_gt in H. apply N.leb_gt. lia.
Qed.

Lemma Decode_size_le s : snd (utf8.DecodeRuneInString s) <= String.length s.
Proof.
  unfold utf8.DecodeRuneInString. decode_cases; cbn [snd String.length]; lia.
Qed.

(** A string that does not start with a continuation byte, put after a
    string, leaves the first rune of that string as it is. *)
Lemma Decode_append a b :
  a <> EmptyString ->
  (forall c r, b = String c r -> utf8.cont c = false) ->
  utf8.DecodeRuneInString (a +:+ b) = utf8.DecodeRuneInString a.
Proof.
  intros Ha Hb. destruct a as [|c0 a]; [congruence|]. clear Ha.
  assert (Hr : forall lo hi c r, b = String c r ->
            (128 <= lo)%N -> (hi <= 191)%N -> utf8.inRange lo hi c = false).
  { intros lo hi c r E H1 H2. apply inRange_cont; auto. eapply Hb; eauto. }
  rewrite append_cons. unfold utf8.DecodeRuneInString.
  destruct (N_of_ascii c0 <? 128)%N; [reflexivity|].
  destruct (N_of_ascii c0 <? 194)%N; [reflexivity|].
  destruct (N_of_ascii c0 <? 224)%N.
  { destruct a as [|c1 a]; [|reflexivity]. rewrite append_nil_l.
    destruct b as [|c r]; [reflexivity|]. now rewrite (Hb c r eq_refl). }
  destruct (N_of_ascii c0 <? 240)%N.
  { destruct a as [|c1 [|c2 a]]; rewrite ?append_cons, ?append_nil_l; [| |reflexivity].
    - destruct b as [|c [|d r]]; try reflexivity.
      rewrite (Hr _ _ c (String d r) eq_refl); [reflexivity| |];
        destruct (N_of_ascii c0 =? 224)%N, (N_of_ascii c0 =? 237)%N; lia.
    - destruct b as [|c r]; [reflexivity|]. rewrite (Hb c r eq_refl).
      now rewrite andb_false_r. }
  destruct (N_of_ascii c0 <? 245)%N; [|reflexivity].
  destruct a as [|c1 [|c2 [|c3 a]]]; rewrite ?append_cons, ?append_nil_l; [| | |reflexivity].
  - destruct b as [|c [|d [|e r]]]; try reflexivity.
    rewrite (Hr _ _ c (String d (String e r)) eq_refl); [reflexivity| |];
      destruct (N_of_ascii c0 =? 240)%N, (N_of_ascii c0 =? 244)%N; lia.
  - destruct b as [|c [|d r]]; try reflexivity. rewrite (Hb c (String d r) eq_refl).
    now rewrite andb_false_r.
  - destruct b as [|c r]; [reflexivity|]. rewrite (Hb c r eq_refl).
    now rewrite andb_false_r.
Qed.

(** A rune that is not the error rune decodes the same whatever follows the
    string. *)
Lemma Decode_append_valid a b :
  fst (utf8.DecodeRuneInString a) <> utf8.RuneError ->
  utf8.DecodeRuneInString (a +:+ b) = utf8.DecodeRuneInString a.
Proof.
  destruct a as [|c0 a]; [cbn; congruence|]. rewrite append_cons.
  unfold utf8.DecodeRuneInString.
  destruct (N_of_ascii c0 <? 128)%N; [reflexivity|].
  destruct (N_of_ascii c0 <? 194)%N; [reflexivity|].
  destruct (N_of_ascii c0 <? 224)%N.
  { destruct a as [|c1 a]; [cbn; congruence|reflexivity]. }
  destruct (N_of_ascii c0 <? 240)%N.
  { destruct a as [|c1 [|c2 a]]; try (cbn; congruence). reflexivity. }
  destruct (N_of_ascii c0 <? 245)%N; [|reflexivity].
  destruct a as [|c1 [|c2 [|c3 a]]]; try (cbn; congruence). reflexivity.
Qed.

Lemma sdrop_append0 (a b : string) : sdrop (String.length a) (a +:+ b) = b.
Proof. rewrite <- (Nat.add_0_r (String.length a)). apply sdrop_append. Qed.

(** [IndexFunc] passes a string in which no rune satisfies [f], when the
    runes of that string decode the same with [b] after it. *)
Lemma IndexFuncFrom_append f b :
  forall a skip pos,
    (forall a', a' <> EmptyString -> f (fst (utf8.DecodeRuneInString a')) = false ->
       utf8.DecodeRuneInString (a' +:+ b) = utf8.DecodeRuneInString a') ->
    skip <= String.length a ->
    gostrings.IndexFuncFrom f skip pos a = None ->
    gostrings.IndexFuncFrom f skip pos (a +:+ b)
    = gostrings.IndexFuncFrom f 0 (pos + String.length a) b.
Proof.
  induction a as [|c a IH]; intros skip pos Hdec Hskip Hnone.
  - cbn [String.length] in *. assert (skip = 0) by lia. subst skip.
    rewrite append_nil_l. f_equal. lia.
  - rewrite append_cons. cbn [gostrings.IndexFuncFrom String.length] in *.
    replace (pos + S (String.length a)) with (S pos + String.length a) by lia.
    destruct skip as [|k]; [|apply IH; auto; lia].
    destruct (utf8.DecodeRuneInString (String c a)) as [r size] eqn:D.
    destruct (f r) eqn:Hf; [discriminate|].
    change (String c (a +:+ b)) with (String c a +:+ b).
    rewrite Hdec by (try discriminate; now rewrite D). rewrite D, Hf.
    pose proof (Decode_size_le (String c a)) as Hsz. rewrite D in Hsz.
    cbn [snd String.length] in Hsz. apply IH; auto. lia.
Qed.

Lemma cont_RuneError c r :
  utf8.cont c = true -> utf8.DecodeRuneInString (String c r) = (utf8.RuneError, 1).
Proof.
  unfold utf8.cont, utf8.inRange. intros H. apply andb_true_iff in H as [H1 H2].
  apply N.leb_le in H1, H2. unfold utf8.DecodeRuneInString.
  replace (N_of_ascii c <? 128)%N with false by (symmetry; apply N.ltb_ge; lia).
  replace (N_of_ascii c <? 194)%N with true by (symmetry; apply N.ltb_lt; lia).
  reflexivity.
Qed.

(** X27: [splitSetDelimiterTag] accepts every tag made of a start
    delimiter, white space and an end delimiter, and returns the two
    delimiters, when they are not empty and hold no white space. *)
Theorem splitSetDelimiterTag_accepts (sd ws ed : string) :
  sd <> EmptyString -> gostrings.IndexFunc sd unicode.IsSpace = None ->
  ws <> EmptyString -> isSpace ws = true ->
  ed <> EmptyString -> gostrings.IndexFunc ed unicode.IsSpace = None ->
  splitSetDelimiterTag (sd +:+ ws +:+ ed) = Ok (sd, ed).
Proof.
  intros Hsd Hsd' Hws Hws' Hed Hed'.
  assert (Hwsn : gostrings.IndexFunc ws isNonSpace = None).
  { unfold isSpace, gostrings.ContainsFunc in Hws'.
    destruct (gostrings.IndexFunc ws isNonSpace); [discriminate|reflexivity]. }
  destruct ws as [|w ws']; [congruence|]. destruct ed as [|e ed']; [congruence|].
  (* the first rune of the white space *)
  destruct (utf8.DecodeRuneInString (String w ws')) as [r0 size0] eqn:D0.
  assert (Hr0 : isNonSpace r0 = false).
  { revert Hwsn. unfold gostrings.IndexFunc. cbn [gostrings.IndexFuncFrom]. rewrite D0.
    destruct (isNonSpace r0); [discriminate|reflexivity]. }
  assert (Hvalid : forall a', isNonSpace (fst (utf8.DecodeRuneInString a')) = false ->
            fst (utf8.DecodeRuneInString a') <> utf8.RuneError).
  { intros a' H E. rewrite E in H. discriminate. }
  assert (Hw : utf8.cont w = false).
  { destruct (utf8.cont w) eqn:E; [|reflexivity].
    rewrite (cont_RuneError w ws' E) in D0. injection D0 as <- _. discriminate. }
  (* the first rune of the end delimiter *)
  destruct (utf8.DecodeRuneInString (String e ed')) as [r1 size1] eqn:D1.
  assert (Hr1 : unicode.IsSpace r1 = false).
  { revert Hed'. unfold gostrings.IndexFunc. cbn [gostrings.IndexFuncFrom]. rewrite D1.
    destruct (unicode.IsSpace r1); [discriminate|reflexivity]. }
  set (s := sd +:+ String w ws' +:+ String e ed').
  assert (Hi : gostrings.IndexFunc s unicode.IsSpace = Some (String.length sd)).
  { unfold gostrings.IndexFunc, s.
    rewrite (IndexFuncFrom_append unicode.IsSpace _ sd 0 0); [| |lia|exact Hsd'].
    - rewrite append_cons. cbn [gostrings.IndexFuncFrom].
      change (String w (ws' +:+ String e ed')) with (String w ws' +:+ String e ed').
      rewrite Decode_append_valid by (apply Hvalid; now rewrite D0).
      rewrite D0. unfold isNonSpace in Hr0. apply negb_false_iff in Hr0. now rewrite Hr0.
    - intros a' Ha' _. apply Decode_append; [exact Ha'|].
      intros c r E. rewrite append_cons in E. now injection E as <- _. }
  assert (Hj : gostrings.IndexFunc (String w ws' +:+ String e ed') isNonSpace
               = Some (String.length (String w ws'))).
  { unfold gostrings.IndexFunc.
    rewrite (IndexFuncFrom_append isNonSpace _ (String w ws') 0 0);
      [| |cbn; lia|exact Hwsn].
    - cbn [gostrings.IndexFuncFrom]. rewrite D1. unfold isNonSpace. now rewrite Hr1.
    - intros a' _ H. apply Decode_append_valid. now apply Hvalid. }
  unfold splitSetDelimiterTag. fold s. rewrite Hi.
  destruct (String.length sd) as [|n] eqn:Hlen; [now apply length_zero_empty in Hlen|].
  rewrite <- Hlen. unfold nextIndexFunc.
  replace (sdrop (String.length sd) s) with (String w ws' +:+ String e ed')
    by (unfold s; now rewrite sdrop_append0).
  rewrite Hj.
  replace (sdrop (String.length sd + String.length (String w ws')) s) with (String e ed')
    by (unfold s; now rewrite sdrop_append, sdrop_append0).
  rewrite Hed'. rewrite substr_0. unfold s. now rewrite stake_append.
Qed.

Lemma splitSetDelimiterTag_accepts_witness :
  splitSetDelimiterTag ("<%" +:+ "  " +:+ "%>") = Ok ("<%", "%>").
Proof.
  exact (splitSetDelimiterTag_accepts "<%" "  " "%>" ltac:(discriminate) eq_refl
           ltac:(discriminate) eq_refl ltac:(discriminate) eq_refl).
Defined.

(** ** The tag that [cutTag] returns *)

Lemma HasPrefix_stake_eq p : forall r,
  gostrings.HasPrefix r p = true -> stake (String.length p) r = p.
Proof.
  induction p as [|a p IH]; intros [|b r]; cbn [gostrings.HasPrefix String.length stake];
    try discriminate; auto.
  intros H. apply andb_true_iff in H as [H1 H2]. apply Ascii.eqb_eq in H1. subst b.
  f_equal. now apply IH.
Qed.

(** X28: a tag that [cutTag] accepts lies inside [s], after the open
    delimiter at [tagStart], and ends with the end delimiter; the sigil
    returned is the zero byte, [=] or one of [#^!<>$/&]. *)
Theorem cutTag_delimited (s : string) (tagStart : nat) (sd ed : string)
    (special : ascii) (key : string) (tagEnd : nat) :
  cutTag s tagStart sd ed = Ok (special, key, tagEnd) ->
  tagStart + String.length sd + String.length ed <= tagEnd <= String.length s
  /\ substr s (tagEnd - String.length ed) tagEnd = ed
  /\ (special = zero \/ special = "="%char
      \/ found (gostrings.IndexByte specials special) = true).
Proof.
  intros Hcut. pose proof (cutTag_bounds _ _ _ _ _ _ _ Hcut) as [Hb1 Hb2].
  split; [lia|]. revert Hcut. unfold cutTag.
  destruct (scanEnd _ ed _ _) as [e| |] eqn:Hscan;
    [|discriminate|destruct (gostrings.HasPrefix _ "!"); discriminate].
  apply scanEnd_bounds in Hscan as (Hs1 & Hs2 & Hs3 & Hp).
  rewrite sdrop_sdrop in Hp.
  replace (tagStart + String.length sd + (e - (tagStart + String.length sd))) with e in Hp
    by lia.
  assert (Hend : substr s e (e + String.length ed) = ed).
  { unfold substr. replace (e + String.length ed - e) with (String.length ed) by lia.
    now apply HasPrefix_stake_eq. }
  destruct (_ && _ && gostrings.HasPrefix (sdrop (e + String.length ed) s) "}") eqn:Htriple.
  - intros [= <- _ <-]. split; [|right; right; reflexivity].
    apply andb_true_iff in Htriple as [Hd Hp3]. apply andb_true_iff in Hd as [Hd _].
    apply andb_true_iff in Hd as [_ Hed]. apply String.eqb_eq in Hed. subst ed.
    cbn [String.length] in *. unfold substr.
    replace (S (e + 2) - (S (e + 2) - 2)) with 2 by lia.
    replace (S (e + 2) - 2) with (e + 1) by lia.
    rewrite <- sdrop_sdrop. rewrite <- (sdrop_sdrop 2 e) in Hp3.
    destruct (sdrop e s) as [|c0 [|c1 [|c2 r]]]; try discriminate.
    cbn [gostrings.HasPrefix sdrop] in Hp, Hp3.
    apply andb_true_iff in Hp as [_ Hp]. apply andb_true_iff in Hp as [H1 _].
    apply andb_true_iff in Hp3 as [H2 _].
    apply Ascii.eqb_eq in H1, H2. subst c1 c2. reflexivity.
  - destruct (gostrings.CutPrefix _ "=").
    + destruct (gostrings.CutSuffix _ "="); [|discriminate].
      intros [= <- _ <-]. split; [|auto].
      now replace (e + String.length ed - String.length ed) with e by lia.
    + match goal with |- (if ?c then _ else _) = _ -> _ => destruct c eqn:Hc end;
        intros [= <- _ <-];
        (split; [now replace (e + String.length ed - String.length ed) with e by lia|]).
      * apply andb_true_iff in Hc as [_ Hc]. auto.
      * auto.
Qed.

Lemma cutTag_delimited_witness :
  substr "a<%# b %>c" (9 - 2) 9 = "%>"
  /\ found (gostrings.IndexByte specials "#") = true.
Proof.
  destruct (cutTag_delimited "a<%# b %>c" 1 "<%" "%>" "#" "b" 9 eq_refl) as (_ & H1 & H2).
  split; [exact H1|].
  destruct H2 as [H|[H|H]]; [discriminate|discriminate|exact H].
Defined.
